(** * The file harvester of logstash-forwarder (harvester.go)

    A shallow embedding of [Harvester.Harvest], [Harvester.open],
    [Harvester.readline], [Harvester.read] and [mustBeRegularFile], and the
    properties of the harvesting loop proved about it.

    The harvester talks to a file that other processes write, to a clock and
    to two channels.  The embedding makes these explicit:
    - the file system is an oracle [fs : nat -> FsView]; the n-th call of
      [read] opens the file as [fs n] shows it, so growth, truncation and
      device errors between two reads are all expressible;
    - the clock is a number of nanoseconds, moved by [time.Sleep] and by the
      latency each view charges for the read;
    - a channel is the list of the values sent on it, oldest first. *)

From Stdlib Require Import ZArith List Ascii String Bool Lia.
From Stdlib Require Import Strings.Byte.
Import ListNotations.
Local Open Scope string_scope.
Local Open Scope list_scope.
Local Open Scope Z_scope.

Set Implicit Arguments.

(** ** Bytes, integers and durations *)

Definition bytes := list byte.

Definition LF : byte := x0a.   (* '\n' *)
Definition CR : byte := x0d.   (* '\r' *)

(** [len] is Go's [len] and [bytes.Buffer.Len], an [int]. *)
Definition len {A : Type} (l : list A) : Z := Z.of_nat (List.length l).
Arguments len : simpl never.

(** int64 and uint64 arithmetic wraps around. *)
Definition wrap64 (z : Z) : Z := (z + 2 ^ 63) mod 2 ^ 64 - 2 ^ 63.
Definition wrapu64 (z : Z) : Z := z mod 2 ^ 64.

(** [time.Duration] counts nanoseconds. *)
Definition Second : Z := 1000000000.

(** [drop p l] is what is left of [l] from position [p] on: the bytes a
    descriptor positioned at [p] still has to deliver.  A position at or
    beyond the end leaves nothing. *)
Fixpoint drop (p : Z) (l : bytes) : bytes :=
  match l with
  | [] => []
  | b :: t => if p <=? 0 then l else drop (p - 1) t
  end.

(** [s[:n]] for [0 <= n <= len s]. *)
Definition slice_to (n : Z) (s : bytes) : bytes := firstn (Z.to_nat n) s.

(** [s[i]], with [x00] standing for an index out of range (never taken under
    the guards of the callers). *)
Definition byte_at (s : bytes) (i : Z) : byte :=
  if i <? 0 then x00 else nth (Z.to_nat i) s x00.

(** ** Errors *)

(** [io.EOF] and [FILE_TRUNCATED] are sentinel values compared with [==];
    every other error of the operating system is an [IOError]. *)
Inductive error : Type :=
| EOF
| FILE_TRUNCATED
| IOError (msg : string).

Definition error_eqb (a b : error) : bool :=
  match a, b with
  | EOF, EOF => true
  | FILE_TRUNCATED, FILE_TRUNCATED => true
  | IOError m, IOError n => String.eqb m n
  | _, _ => false
  end.

(** ** Types declared in the other files of the package *)

(** Modelled from the spec: [os.FileInfo], the snapshot of file metadata
    (size/info) that [Stat] returns. *)
Record FileInfo : Type := mkFileInfo {
  fi_name : string;
  fi_size : Z;
  fi_regular : bool
}.

Module Cfg.
(** Modelled from the spec: the per-file configuration, declared in the
    configuration file of the package: the dead-time threshold and the tag
    fields attached to every event. *)
Record FileConfig : Type := mkFileConfig {
  Fields : list (string * string);
  deadtime : Z
}.
End Cfg.

Module Event.
(** Modelled from the spec: the event record, declared in the event file of
    the package; the fields are the ones [Harvest] fills.  [Source] and
    [Fields] point into the harvester, whose path and configuration never
    change; [Text] is the [*string] that [readline] returned. *)
Record FileEvent : Type := mkFileEvent {
  Source : string;
  Offset : Z;
  Line : Z;
  Text : option bytes;
  Fields : list (string * string);
  fileinfo : option FileInfo
}.
End Event.

(** Modelled from the spec: the process-wide options; only the tailing policy
    (read-from-end-on-first-sight) is consulted here. *)
Record Options : Type := mkOptions { tailOnRotate : bool }.

(** The notices passed to [emit], one constructor per call site. *)
Inductive Notice : Type :=
| HarvestPosition (path : string) (position : Z)
| HarvestTailing (path : string)
| HarvestStart (path : string)
| NoticeTruncated (path : string)
| NoticeStopping (path : string) (age : Z)
| NoticeUnexpected (path : string) (err : error)
| NoticeFailedOpening (path : string)
| NoticeReadLine (err : error).

(** ** The harvester *)

(** [*os.File]: standard input, or a descriptor on the named file with its
    position. *)
Inductive File : Type :=
| Stdin
| OsFile (pos : Z).

Record Harvester : Type := mkHarvester {
  IsTracked : bool;
  Path : string;
  FileConfig : Cfg.FileConfig;
  Offset : Z;
  FinishChan : list Z;       (* chan int64: the values sent so far *)
  file : option File;
  size : Z;
  info : option FileInfo
}.

Definition set_IsTracked (b : bool) (h : Harvester) : Harvester :=
  mkHarvester b (Path h) (FileConfig h) (Offset h) (FinishChan h) (file h) (size h) (info h).
Definition set_Offset (o : Z) (h : Harvester) : Harvester :=
  mkHarvester (IsTracked h) (Path h) (FileConfig h) o (FinishChan h) (file h) (size h) (info h).
Definition send_FinishChan (o : Z) (h : Harvester) : Harvester :=
  mkHarvester (IsTracked h) (Path h) (FileConfig h) (Offset h) (FinishChan h ++ [o]) (file h) (size h) (info h).
Definition set_file (f : File) (h : Harvester) : Harvester :=
  mkHarvester (IsTracked h) (Path h) (FileConfig h) (Offset h) (FinishChan h) (Some f) (size h) (info h).
Definition set_size_info (s : Z) (i : FileInfo) (h : Harvester) : Harvester :=
  mkHarvester (IsTracked h) (Path h) (FileConfig h) (Offset h) (FinishChan h) (file h) s (Some i).

(** ** The world around the harvester *)

(** What [f.Stat()] gives on the descriptor that [os.Open] returned: the
    error [e], or a file information whose [Mode()] prints as [mode] and
    whose [Mode().IsRegular()] is [regular]. *)
Inductive StatResult : Type :=
| StatOk (mode : string) (regular : bool)
| StatFails (e : string).

(** What one [read] finds when it opens the file: how many times [os.Open]
    fails before it succeeds, what [Stat] gives on the descriptor, the bytes
    of the file, and a device error if the reader meets one: [Some (k, msg)]
    lets the reader have [k] more bytes and then fails with [msg].  [latency]
    is the time the call takes, in nanoseconds. *)
Record FsView : Type := mkFsView {
  open_failures : nat;
  status : StatResult;
  contents : bytes;
  fault : option (nat * string);
  latency : N
}.

(** The path names a regular file: [Stat] succeeds and the mode it shows is
    regular. *)
Definition is_regular (v : FsView) : bool :=
  match status v with
  | StatOk _ regular => regular
  | StatFails _ => false
  end.

Record World : Type := mkWorld {
  clock : Z;                      (* time.Now(), in nanoseconds *)
  reads : nat;                    (* calls of [read] so far *)
  log : list Notice;              (* what [emit] printed *)
  output : list Event.FileEvent   (* the channel given to [Harvest] *)
}.

Record St : Type := mkSt { hv : Harvester; wd : World }.

(** ** Panics

    The value a panic carries: the error that [fmt.Errorf] builds from a
    format and its arguments, kept as the format and the arguments, or an
    error of the run-time system.  An argument is kept as its text: a string
    is itself, and a file mode is what its [String] method gives. *)
Inductive PanicValue : Type :=
| Errorf (format : string) (args : list string)
| RuntimeError (msg : string).

(** ** A state monad with panics

    A computation runs on the harvester and the world and either returns,
    panics, leaves the model (a read of standard input) or is cut short by the
    fuel of the loop that hosts it; the state comes back in every case,
    because deferred calls still see it. *)
Inductive Outcome (A : Type) : Type :=
| Ret (a : A)
| Panic (p : PanicValue)
| OnStdin
| NoFuel.

Arguments Ret {A} a.
Arguments Panic {A} p.
Arguments OnStdin {A}.
Arguments NoFuel {A}.

Definition M (A : Type) : Type := St -> Outcome A * St.

Definition ret {A : Type} (a : A) : M A := fun st => (Ret a, st).

Definition bind {A B : Type} (m : M A) (k : A -> M B) : M B :=
  fun st =>
    match m st with
    | (Ret a, st') => k a st'
    | (Panic msg, st') => (Panic msg, st')
    | (OnStdin, st') => (OnStdin, st')
    | (NoFuel, st') => (NoFuel, st')
    end.

Notation "x <- m ;; k" := (bind m (fun x => k))
  (at level 61, m at next level, right associativity).
Notation "m ;; k" := (bind m (fun _ => k))
  (at level 61, right associativity).

Definition panic {A : Type} (p : PanicValue) : M A := fun st => (Panic p, st).
Definition get_h : M Harvester := fun st => (Ret (hv st), st).
Definition get_w : M World := fun st => (Ret (wd st), st).
Definition modify_h (f : Harvester -> Harvester) : M unit :=
  fun st => (Ret tt, mkSt (f (hv st)) (wd st)).
Definition modify_w (f : World -> World) : M unit :=
  fun st => (Ret tt, mkSt (hv st) (f (wd st))).

Definition advance (d : Z) (w : World) : World :=
  mkWorld (clock w + d) (reads w) (log w) (output w).
Definition logged (n : Notice) (w : World) : World :=
  mkWorld (clock w) (reads w) (log w ++ [n]) (output w).
Definition shipped (e : Event.FileEvent) (w : World) : World :=
  mkWorld (clock w) (reads w) (log w) (output w ++ [e]).
Definition next_view (d : Z) (w : World) : World :=
  mkWorld (clock w + d) (S (reads w)) (log w) (output w).

(** Modelled from the spec: [emit], declared in another file of the package,
    makes a transition observable on the log. *)
Definition emit (n : Notice) : M unit := modify_w (logged n).

(** [time.Sleep], [time.Now] and a send on the output channel. *)
Definition Sleep (d : Z) : M unit := modify_w (advance d).
Definition Now : M Z := fun st => (Ret (clock (wd st)), st).
Definition send (e : Event.FileEvent) : M unit := modify_w (shipped e).

(** ** The operating system calls *)

Inductive Whence : Type := SEEK_SET | SEEK_CUR | SEEK_END.

(** [f.Seek(offset, whence)] on the file that [v] shows: the descriptor after
    the call and the position returned.  A seek to a negative position fails
    and moves nothing, as does any seek on standard input; the callers drop
    the error, and the position returned with it is 0. *)
Definition Seek (v : FsView) (f : File) (offset : Z) (whence : Whence) : File * Z :=
  match f with
  | Stdin => (Stdin, 0)
  | OsFile pos =>
      let target :=
        match whence with
        | SEEK_SET => offset
        | SEEK_CUR => pos + offset
        | SEEK_END => len (contents v) + offset
        end in
      if target <? 0 then (OsFile pos, 0) else (OsFile target, target)
  end.

Definition position (f : File) : Z :=
  match f with
  | Stdin => 0
  | OsFile pos => pos
  end.

(** The name a file information carries for a file opened as [name]: the
    library takes the trailing slashes off, but for the first character, and
    then the directories, that is everything up to the last slash. *)
Fixpoint strip_slashes (reversed : list Ascii.ascii) : list Ascii.ascii :=
  match reversed with
  | c :: (_ :: _) as rest =>
      if Ascii.eqb c "/"%char then strip_slashes rest else reversed
  | _ => reversed
  end.

Fixpoint upto_slash (reversed : list Ascii.ascii) : list Ascii.ascii :=
  match reversed with
  | [] => []
  | c :: rest => if Ascii.eqb c "/"%char then [] else c :: upto_slash rest
  end.

Definition basename (name : string) : string :=
  match strip_slashes (rev (list_ascii_of_string name)) with
  | [c] => String c EmptyString
  | reversed => string_of_list_ascii (rev (upto_slash reversed))
  end.

(** [f.Stat()] on a descriptor opened as [name], when it succeeds. *)
Definition Stat (v : FsView) (name : string) : FileInfo :=
  mkFileInfo (basename name) (len (contents v)) (is_regular v).

(** The bytes of [data] up to and including the first ['\n'], and whether
    there was one. *)
Fixpoint upto_LF (data : bytes) : bytes * bool :=
  match data with
  | [] => ([], false)
  | b :: rest =>
      if Byte.eqb b LF then ([b], true)
      else let (l, found) := upto_LF rest in (b :: l, found)
  end.

(** [bufio.NewReader(f).ReadBytes('\n')]: the bytes from the position of [f]
    up to and including the first ['\n']; when the data ends before one is
    found, the bytes read so far together with the error that ended the data,
    [io.EOF] at the end of the file. *)
Definition ReadBytes (v : FsView) (f : File) : bytes * option error :=
  let rest := drop (position f) (contents v) in
  let avail := match fault v with
               | Some (k, _) => firstn k rest
               | None => rest
               end in
  let (l, found) := upto_LF avail in
  if found then (l, None)
  else (l, Some match fault v with
                | Some (_, msg) => IOError msg
                | None => EOF
                end).

Section Harvesting.

(** The process-wide options and the file system the harvester runs
    against. *)
Variable options : Options.
Variable fs : nat -> FsView.

(** *** open *)

(** The retry loop of [open]: every failed [os.Open] is reported and
    followed by a sleep of five seconds.  The view says how many attempts
    fail; a file that never opens has no view. *)
Fixpoint open_retry (failures : nat) (path : string) : M unit :=
  match failures with
  | O => ret tt
  | S k =>
      emit (NoticeFailedOpening path) ;;
      Sleep (5 * Second) ;;
      open_retry k path
  end.

(** *** mustBeRegularFile *)

(** The three panics of [mustBeRegularFile(f)]: [f] is nil, [f.Stat()] fails,
    and the mode is not regular.  [v] is what the file system shows for the
    descriptor and [name] the name it was opened with.  The format of the
    last panic has one verb for its two arguments; the value keeps both. *)
Definition mustBeRegularFile (f : option File) (v : FsView) (name : string)
  : M unit :=
  match f with
  | None => panic (Errorf "Harvester: BUG: f arg is nil" [])
  | Some _ =>
      match status v with
      | StatFails e => panic (Errorf "Harvester: FAULT: stat error: %s" [e])
      | StatOk mode regular =>
          if negb regular then
            panic (Errorf "Harvester: not a regular file:%q"
                          [mode; fi_name (Stat v name)])
          else ret tt
      end
  end.

Definition open (v : FsView) : M File :=
  h <- get_h ;;
  if String.eqb (Path h) "-" then
    modify_h (set_file Stdin) ;;
    ret Stdin
  else
    open_retry (open_failures v) (Path h) ;;
    modify_h (set_file (OsFile 0)) ;;
    h' <- get_h ;;
    mustBeRegularFile (file h') v (Path h') ;;
    if IsTracked h then
      let (f, _) := Seek v (OsFile 0) (Offset h) SEEK_SET in
      modify_h (set_file f) ;;
      ret f
    else if tailOnRotate options then
      let (f, o) := Seek v (OsFile 0) 0 SEEK_END in
      modify_h (fun h => set_IsTracked true (set_Offset o (set_file f h))) ;;
      ret f
    else
      let (f, o) := Seek v (OsFile 0) 0 SEEK_SET in
      modify_h (fun h => set_IsTracked true (set_Offset o (set_file f h))) ;;
      ret f.

(** *** read *)

(** One chunk: the file is opened as the next view shows it, its size is
    compared with the size seen by the read before, and the reader starts
    [offset] bytes after the position [open] chose.  The deferred function
    stores the size and the metadata of this view on both returns; its
    arguments are evaluated before the comparison.  [Close] releases the
    descriptor, which the next read replaces.  A [nil] segment is the empty
    list.  What standard input yields is not modelled: a harvester on "-"
    leaves the model here. *)
Definition read (offset : Z) : M (bytes * option error) :=
  w <- get_w ;;
  let v := fs (reads w) in
  modify_w (next_view (Z.of_N (latency v))) ;;
  f <- open v ;;
  match f with
  | Stdin => fun st => (OnStdin, st)
  | OsFile _ =>
      h <- get_h ;;
      let i := Stat v (Path h) in
      let deferred := modify_h (set_size_info (fi_size i) i) in
      if fi_size i <? size h then
        deferred ;;
        ret ([], Some FILE_TRUNCATED)
      else
        let (f', _) := Seek v f offset SEEK_CUR in
        modify_h (set_file f') ;;
        let r := ReadBytes v f' in
        deferred ;;
        ret r
  end.

(** *** readline *)

(** The three results of [readline]: the text, the byte count and the
    error. *)
Definition Line3 : Type := option bytes * Z * option error.

(** The loop of [readline].  [buffer] is the [*bytes.Buffer] of the caller:
    the loop appends to it and the caller gets it back, so what one call
    leaves in it is there for the next.  [fuel] bounds the number of
    chunks. *)
Fixpoint readline_loop (fuel : nat) (start_time eof_timeout : Z)
         (buffer : bytes) (is_partial : bool) (newline_length : Z)
  : M (Line3 * bytes) :=
  match fuel with
  | O => fun st => (NoFuel, st)
  | S fuel' =>
      r <- read (len buffer) ;;
      let (segment, err) := r : bytes * option error in
      let '(is_partial, newline_length, buffer) :=
        if 0 <? len segment then
          (if Byte.eqb (byte_at segment (len segment - 1)) LF then
             (false,
              if (1 <? len segment)
                 && Byte.eqb (byte_at segment (len segment - 2)) CR
              then newline_length + 1 else newline_length)
           else (is_partial, newline_length),
           buffer ++ segment)
        else (is_partial, newline_length, buffer) in
      match err with
      | Some e =>
          if error_eqb e EOF && is_partial then
            Sleep (1 * Second) ;;
            now <- Now ;;
            if now - start_time >? eof_timeout then
              ret ((None, 0, Some e), buffer)
            else
              readline_loop fuel' start_time eof_timeout
                            buffer is_partial newline_length
          else
            emit (NoticeReadLine e) ;;
            ret ((None, 0, Some e), buffer)
      | None =>
          if negb is_partial then
            let bufferSize := len buffer in
            if bufferSize - newline_length <? 0 then
              panic (RuntimeError "slice bounds out of range")
            else
              ret ((Some (slice_to (bufferSize - newline_length) buffer),
                    bufferSize, None), [])
          else
            readline_loop fuel' start_time eof_timeout
                          buffer is_partial newline_length
      end
  end.

(** A chunk that ends at the end of the file costs a second of sleep, and
    the loop goes on only while the time spent is within [eof_timeout]: the
    number of chunks is at most one more than the seconds in it. *)
Definition readline_fuel (eof_timeout : Z) : nat :=
  S (Z.to_nat (eof_timeout / Second)).

Definition readline (buffer : bytes) (eof_timeout : Z) : M (Line3 * bytes) :=
  start_time <- Now ;;
  readline_loop (readline_fuel eof_timeout) start_time eof_timeout
                buffer true 1.

(** *** Harvest *)

(** The local variables of [Harvest] that live across iterations. *)
Record Frame : Type := mkFrame {
  line : Z;              (* uint64 *)
  buffer : bytes;        (* the contents of the *bytes.Buffer *)
  last_read_time : Z
}.

Inductive Exit : Type :=
| Dead        (* nothing read for longer than the dead time *)
| Aborted.    (* unexpected read error *)

Inductive Control : Type :=
| Continue (fr : Frame)
| Return (e : Exit).

Definition read_timeout : Z := 10 * Second.

(** One iteration of the [for] loop. *)
Definition Harvest_body (fr : Frame) : M Control :=
  r <- readline (buffer fr) read_timeout ;;
  let '((text, bytesread, err), buf) := r : Line3 * bytes in
  h <- get_h ;;
  match err with
  | Some e =>
      if error_eqb e FILE_TRUNCATED then
        emit (NoticeTruncated (Path h)) ;;
        modify_h (set_Offset 0) ;;
        ret (Continue (mkFrame (line fr) buf (last_read_time fr)))
      else if error_eqb e EOF then
        now <- Now ;;
        let age := now - last_read_time fr in
        if age >? Cfg.deadtime (FileConfig h) then
          emit (NoticeStopping (Path h) age) ;;
          ret (Return Dead)
        else
          ret (Continue (mkFrame (line fr) buf (last_read_time fr)))
      else
        emit (NoticeUnexpected (Path h) e) ;;
        ret (Return Aborted)
  | None =>
      now <- Now ;;
      let line' := wrapu64 (line fr + 1) in
      let event :=
        Event.mkFileEvent (Path h) (Offset h) line' text
                          (Cfg.Fields (FileConfig h)) (info h) in
      modify_h (set_Offset (wrap64 (Offset h + bytesread))) ;;
      send event ;;
      ret (Continue (mkFrame line' buf now))
  end.

Fixpoint Harvest_loop (fuel : nat) (fr : Frame) : M Exit :=
  match fuel with
  | O => fun st => (NoFuel, st)
  | S fuel' =>
      c <- Harvest_body fr ;;
      match c with
      | Continue fr' => Harvest_loop fuel' fr'
      | Return e => ret e
      end
  end.

(** The deferred function of [Harvest]. *)
Definition push_offset (st : St) : St :=
  mkSt (send_FinishChan (Offset (hv st)) (hv st)) (wd st).

(** [Harvest] with at most [fuel] iterations of its loop.  The deferred send
    runs when the function returns and when a panic unwinds it; a run that
    is out of fuel is still in its loop and has sent nothing. *)
Definition Harvest (fuel : nat) : M Exit :=
  fun st =>
    let h := hv st in
    let started :=
      (if IsTracked h then emit (HarvestPosition (Path h) (Offset h))
       else if tailOnRotate options then emit (HarvestTailing (Path h))
       else emit (HarvestStart (Path h))) ;;
      now <- Now ;;
      Harvest_loop fuel (mkFrame 0 [] now) in
    match started st with
    | (Ret e, st') => (Ret e, push_offset st')
    | (Panic msg, st') => (Panic msg, push_offset st')
    | (OnStdin, st') => (OnStdin, st')
    | (NoFuel, st') => (NoFuel, st')
    end.

End Harvesting.

Unset Implicit Arguments.

(** * The vocabulary of the properties

    ** One chunk read in closed form

    The position [open] chooses, the offset it leaves, and the harvester and
    the world that [read] leaves behind. *)

Definition entry_pos (options : Options) (v : FsView) (h : Harvester) : Z :=
  if IsTracked h then (if Offset h <? 0 then 0 else Offset h)
  else if tailOnRotate options then len (contents v)
  else 0.

Definition entry_offset (options : Options) (v : FsView) (h : Harvester) : Z :=
  if IsTracked h then Offset h else entry_pos options v h.

Fixpoint retried (failures : nat) (path : string) (w : World) : World :=
  match failures with
  | O => w
  | S k => retried k path (advance (5 * Second) (logged (NoticeFailedOpening path) w))
  end.

Definition opened (options : Options) (v : FsView) (h : Harvester) : Harvester :=
  mkHarvester true (Path h) (FileConfig h) (entry_offset options v h)
              (FinishChan h) (Some (OsFile (entry_pos options v h)))
              (size h) (info h).

(** The panic with which [mustBeRegularFile] refuses the view [v] of a file
    opened as [name]: the one of the failed [Stat], or the one of the mode
    that is not regular. *)
Definition refusal (v : FsView) (name : string) : PanicValue :=
  match status v with
  | StatFails e => Errorf "Harvester: FAULT: stat error: %s" [e]
  | StatOk mode _ =>
      Errorf "Harvester: not a regular file:%q" [mode; fi_name (Stat v name)]
  end.

Definition truncated (v : FsView) (h : Harvester) : bool :=
  len (contents v) <? size h.

Definition chunk (options : Options) (v : FsView) (offset : Z) (h : Harvester)
  : bytes * option error :=
  if truncated v h then ([], Some FILE_TRUNCATED)
  else ReadBytes v (OsFile (entry_pos options v h + offset)).

Definition after_read (options : Options) (v : FsView) (offset : Z) (h : Harvester)
  : Harvester :=
  mkHarvester true (Path h) (FileConfig h) (entry_offset options v h)
              (FinishChan h)
              (Some (OsFile (if truncated v h then entry_pos options v h
                             else entry_pos options v h + offset)))
              (len (contents v)) (Some (Stat v (Path h))).

Definition world_after_read (v : FsView) (path : string) (w : World) : World :=
  retried (open_failures v) path (next_view (Z.of_N (latency v)) w).

(** ** The loop of readline *)

(** What the loop does with a segment before it looks at the error. *)
Definition absorb (segment : bytes) (is_partial : bool) (newline_length : Z)
           (buffer : bytes) : bool * Z * bytes :=
  if 0 <? len segment then
    (if Byte.eqb (byte_at segment (len segment - 1)) LF then
       (false,
        if (1 <? len segment) && Byte.eqb (byte_at segment (len segment - 2)) CR
        then newline_length + 1 else newline_length)
     else (is_partial, newline_length),
     buffer ++ segment)
  else (is_partial, newline_length, buffer).

(** The length of the terminator the loop finds at the end of a segment, and
    the segment without it. *)
Definition terminator_length (segment : bytes) : Z :=
  if (1 <? len segment) && Byte.eqb (byte_at segment (len segment - 2)) CR
  then 2 else 1.

Definition chomp (segment : bytes) : bytes :=
  slice_to (len segment - terminator_length segment) segment.

(** The view the most recent [read] opened. *)
Definition last_view (fs : nat -> FsView) (w : World) : FsView :=
  fs (pred (reads w)).

(** The postcondition of [readline] from harvester [h] and world [w], with
    [buffer] left over from the calls before.  [P] is the position [open]
    chooses, the same at every chunk of the call. *)
Definition readline_post (options : Options) (fs : nat -> FsView)
           (start_time eof_timeout : Z) (buffer : bytes)
           (h : Harvester) (w : World)
           (o : Outcome (Line3 * bytes)) (st' : St) : Prop :=
  let P := entry_pos options (fs (reads w)) h in
  Path (hv st') = Path h /\
  FileConfig (hv st') = FileConfig h /\
  FinishChan (hv st') = FinishChan h /\
  output (wd st') = output w /\
  clock w <= clock (wd st') /\
  (IsTracked h = true ->
   Offset (hv st') = Offset h /\ IsTracked (hv st') = true) /\
  match o with
  | Ret (text, n, err, buf') =>
      IsTracked (hv st') = true /\
      Offset (hv st') = entry_offset options (fs (reads w)) h /\
      (reads w < reads (wd st'))%nat /\
      size (hv st') = len (contents (last_view fs (wd st'))) /\
      info (hv st') = Some (Stat (last_view fs (wd st')) (Path h)) /\
      match err with
      | Some e =>
          text = None /\ n = 0 /\
          (exists more, buf' = buffer ++ more /\ ~ In LF more) /\
          (forall B, (forall k, len (contents (fs k)) <= B) ->
                     P + len buffer <= B -> P + len buf' <= B) /\
          (e = EOF -> clock (wd st') - start_time > eof_timeout)
      | None =>
          buf' = [] /\
          exists more segment body,
            segment = body ++ [LF] /\ ~ In LF body /\ ~ In LF more /\
            text = Some (buffer ++ more ++ chomp segment) /\
            n = len (buffer ++ more ++ segment) /\
            P + n <= len (contents (last_view fs (wd st'))) /\
            exists rest,
              drop (P + len (buffer ++ more)) (contents (last_view fs (wd st')))
              = segment ++ rest
      end
  | Panic _ =>
      (0 < reads (wd st'))%nat /\ is_regular (last_view fs (wd st')) = false
  | OnStdin => False
  | NoFuel => True
  end.

(** ** The loop of Harvest *)

(** What the loop body does with the results of [readline]. *)
Definition Harvest_handle (fr : Frame) (r : Line3 * bytes) : M Control :=
  let '((text, bytesread, err), buf) := r in
  h <- get_h ;;
  match err with
  | Some e =>
      if error_eqb e FILE_TRUNCATED then
        emit (NoticeTruncated (Path h)) ;;
        modify_h (set_Offset 0) ;;
        ret (Continue (mkFrame (line fr) buf (last_read_time fr)))
      else if error_eqb e EOF then
        now <- Now ;;
        let age := now - last_read_time fr in
        if age >? Cfg.deadtime (FileConfig h) then
          emit (NoticeStopping (Path h) age) ;;
          ret (Return Dead)
        else
          ret (Continue (mkFrame (line fr) buf (last_read_time fr)))
      else
        emit (NoticeUnexpected (Path h) e) ;;
        ret (Return Aborted)
  | None =>
      now <- Now ;;
      let line' := wrapu64 (line fr + 1) in
      let event :=
        Event.mkFileEvent (Path h) (Offset h) line' text
                          (Cfg.Fields (FileConfig h)) (info h) in
      modify_h (set_Offset (wrap64 (Offset h + bytesread))) ;;
      send event ;;
      ret (Continue (mkFrame line' buf now))
  end.

(** The event built from a line and the state left by the [readline] that
    returned it. *)
Definition event_of (fr : Frame) (text : option bytes) (h : Harvester)
  : Event.FileEvent :=
  Event.mkFileEvent (Path h) (Offset h) (wrapu64 (line fr + 1)) text
                    (Cfg.Fields (FileConfig h)) (info h).

(** The offset the harvester works from: its own once it is tracked, and
    before that the one [open] will choose at the next read. *)
Definition start_offset (options : Options) (fs : nat -> FsView) (st : St) : Z :=
  entry_offset options (fs (reads (wd st))) (hv st).

(** How the offset moves with the result of one [readline]. *)
Definition offset_after (o : Z) (r : Line3) : Z :=
  match r with
  | (_, n, None) => o + n
  | (_, _, Some FILE_TRUNCATED) => 0
  | (_, _, Some _) => o
  end.

Definition tracked_after (o : Z) (rs : list Line3) : Z :=
  fold_left offset_after rs o.

(** The runs of the loop: [iterates fr st rs fr' st'] when the loop goes from
    the frame [fr] and the state [st] to [fr'] and [st'], [rs] being the
    results of the calls of [readline] on the way. *)
Inductive iterates (options : Options) (fs : nat -> FsView)
  : Frame -> St -> list Line3 -> Frame -> St -> Prop :=
| iterates_nil fr st : iterates options fs fr st [] fr st
| iterates_cons fr st r buf st1 fr2 st2 rs fr3 st3 :
    readline options fs (buffer fr) read_timeout st = (Ret (r, buf), st1) ->
    Harvest_body options fs fr st = (Ret (Continue fr2), st2) ->
    iterates options fs fr2 st2 rs fr3 st3 ->
    iterates options fs fr st (r :: rs) fr3 st3.

(** The invariant of the loop: the harvester reads a named file from a
    position that is not negative, and what it has buffered lies within the
    bound [B] on the size of the file. *)
Definition loop_inv (options : Options) (fs : nat -> FsView) (B : Z)
           (fr : Frame) (st : St) : Prop :=
  String.eqb (Path (hv st)) "-" = false /\
  (IsTracked (hv st) = true -> 0 <= Offset (hv st)) /\
  start_offset options fs st + len (buffer fr) <= B /\
  ~ In LF (buffer fr).

(** The number of lines among the results of [readline]. *)
Definition is_line (r : Line3) : bool :=
  match r with
  | (_, _, None) => true
  | _ => false
  end.

Definition emitted (rs : list Line3) : Z := len (filter is_line rs).

(** ** Sample inputs *)

Definition sample_bytes (s : string) : bytes := list_byte_of_string s.

Definition sample_config : Cfg.FileConfig :=
  Cfg.mkFileConfig [("type", "syslog")] (25 * Second).

(** A harvester as the prospector makes it for a file it has not seen. *)
Definition fresh_harvester : Harvester :=
  mkHarvester false "/var/log/messages" sample_config 0 [] None 0 None.

(** A harvester resumed at [offset], whose last read saw [sz] bytes. *)
Definition resumed_harvester (offset sz : Z) : Harvester :=
  mkHarvester true "/var/log/messages" sample_config offset [] None sz None.

Definition sample_world : World := mkWorld 0 0 [] [].

Definition plain_view (c : bytes) : FsView :=
  mkFsView 0 (StatOk "-rw-r--r--" true) c None 0.

Definition replay : Options := mkOptions false.
Definition tailing : Options := mkOptions true.

(** ** Harvest as a run of its loop *)

(** The state in which the loop starts, after the notice of the start, and
    the local variables it starts with. *)
Definition announced (options : Options) (st : St) : St :=
  let h := hv st in
  mkSt h (logged (if IsTracked h then HarvestPosition (Path h) (Offset h)
                  else if tailOnRotate options then HarvestTailing (Path h)
                  else HarvestStart (Path h))
                 (wd st)).

Definition initial_frame (st : St) : Frame := mkFrame 0 [] (clock (wd st)).

(** ** Waiting at the end of the file *)

(** The time one chunk at the end of the file takes: the read with its
    retried opens, and the second of sleep after it. *)
Definition cost (v : FsView) : Z :=
  Z.of_N (latency v) + 5 * Second * Z.of_nat (open_failures v) + 1 * Second.

(** The time [m] such chunks take, from read number [k0] on. *)
Fixpoint elapsed (fs : nat -> FsView) (k0 m : nat) : Z :=
  match m with
  | O => 0
  | S m' => cost (fs k0) + elapsed fs (S k0) m'
  end.

(** The file is quiet from read number [k0] on, for a reader at position [p]
    whose last read saw [sz] bytes: it stays a regular file without device
    errors, it does not shrink, and it holds no newline from [p] on. *)
Definition quiet (fs : nat -> FsView) (p sz : Z) (k0 : nat) : Prop :=
  sz <= len (contents (fs k0)) /\
  forall k, (k0 <= k)%nat ->
            is_regular (fs k) = true
            /\ fault (fs k) = None
            /\ ~ In LF (drop p (contents (fs k)))
            /\ len (contents (fs k)) <= len (contents (fs (S k))).

(** ** Files that do not change *)

(** The text of a line without its terminator, as the specification words
    it: the final newline goes, and with it the carriage return right before
    it if there is one. *)
Definition strip_terminator (raw : bytes) : bytes :=
  match rev raw with
  | a :: b :: rest =>
      if Byte.eqb a LF && Byte.eqb b CR then rev rest
      else if Byte.eqb a LF then rev (b :: rest)
      else raw
  | [a] => if Byte.eqb a LF then [] else raw
  | [] => []
  end.

(** [n] newline-terminated lines, one after the other. *)
Definition terminated (bodies : list bytes) : bytes :=
  List.concat (map (fun b => b ++ [LF]) bodies).

(** Every read finds the same regular file, without device errors. *)
Definition static (fs : nat -> FsView) (data : bytes) : Prop :=
  forall k, contents (fs k) = data
            /\ is_regular (fs k) = true
            /\ fault (fs k) = None.

(** ** Sample files *)

Definition sample_lines : list bytes :=
  [sample_bytes "ab" ++ [CR]; sample_bytes "cde"; []].
Definition sample_partial : bytes := sample_bytes "xy".
Definition sample_file : bytes := terminated sample_lines ++ sample_partial.
Definition sample_state : St := mkSt fresh_harvester sample_world.

(** A writer that flushes between the carriage return and the newline. *)
Definition grown (n : nat) : FsView :=
  match n with
  | O => plain_view (sample_bytes "abc" ++ [CR])
  | _ => plain_view (sample_bytes "abc" ++ [CR; LF])
  end.

(** A file with a partial line that is cut and written anew. *)
Definition rewritten (n : nat) : FsView :=
  match n with
  | O => plain_view (sample_bytes "abc")
  | S O => plain_view (sample_bytes "hi")
  | _ => plain_view (sample_bytes "hi there" ++ [LF])
  end.

(** A device that fails at the second read. *)
Definition faulty (n : nat) : FsView :=
  match n with
  | O => plain_view (sample_bytes "ab" ++ [LF] ++ sample_bytes "cd")
  | _ => mkFsView 0 (StatOk "-rw-r--r--" true)
                  (sample_bytes "ab" ++ [LF] ++ sample_bytes "cd")
                  (Some (O, "input/output error")) 0
  end.

(** A path that names a directory by the second read. *)
Definition replaced (n : nat) : FsView :=
  match n with
  | O => plain_view (sample_bytes "ab" ++ [LF] ++ sample_bytes "cd")
  | _ => mkFsView 0 (StatOk "drwxr-xr-x" false) [] None 0
  end.

(** * More vocabulary

    ** Failed opens *)

(** The view [v] with every [os.Open] succeeding at once. *)
Definition without_failures (v : FsView) : FsView :=
  mkFsView 0 (status v) (contents v) (fault v) (latency v).

(** A file that fails to open twice at every read. *)
Definition busy (n : nat) : FsView :=
  mkFsView 2 (StatOk "-rw-r--r--" true) sample_file None 0.

(** ** Files that only grow *)

(** From read number [k0] on, every read finds the bytes of the read before
    it, and maybe more after them. *)
Definition append_only (fs : nat -> FsView) (k0 : nat) : Prop :=
  forall k, (k0 <= k)%nat ->
            exists more, contents (fs (S k)) = contents (fs k) ++ more.

(** [data] holds the bytes [b] at position [p]. *)
Definition lies_at (data : bytes) (p : Z) (b : bytes) : Prop :=
  exists pre rest, data = pre ++ b ++ rest /\ len pre = p.

(** [raw] is one line of a file with its newline, and [text] what an event
    carries for it: the line without the newline, and maybe without a
    carriage return before it. *)
Definition line_text (raw : bytes) (text : option bytes) : Prop :=
  exists body,
    raw = body ++ [LF] /\ ~ In LF body
    /\ (text = Some body \/ exists b, body = b ++ [CR] /\ text = Some b).

(** The events [evs] are the lines [raws] laid end to end from the offset
    [o]: each event carries the offset at which its line starts, and the
    next line starts where it ends. *)
Fixpoint tiles (o : Z) (raws : list bytes) (evs : list Event.FileEvent) : Prop :=
  match raws, evs with
  | [], [] => True
  | raw :: raws', e :: evs' =>
      Event.Offset e = o
      /\ line_text raw (Event.Text e)
      /\ tiles (o + len raw) raws' evs'
  | _, _ => False
  end.

(** What the loop of [Harvest] keeps true on a file that only grows: the
    harvester reads a named file from a position that is not negative, the
    size it remembers is not beyond the file, and the bytes it has buffered
    are those of the file at its offset, without a newline. *)
Definition follows (options : Options) (fs : nat -> FsView)
           (fr : Frame) (st : St) : Prop :=
  String.eqb (Path (hv st)) "-" = false
  /\ (IsTracked (hv st) = true -> 0 <= Offset (hv st))
  /\ size (hv st) <= len (contents (fs (reads (wd st))))
  /\ lies_at (contents (fs (reads (wd st)))) (start_offset options fs st)
             (buffer fr)
  /\ ~ In LF (buffer fr).

(** A file of one line to which a writer appends a second one, found from
    read number [t] on. *)
Definition appended (t n : nat) : FsView :=
  plain_view (sample_bytes "ab" ++ [LF]
              ++ (if (n <? t)%nat then [] else sample_bytes "cd" ++ [LF])).

(** ** Harvesters that resume *)

(** The harvester [h] as the registrar would hand it back to resume at the
    position [p]. *)
Definition tracked_at (p : Z) (h : Harvester) : Harvester :=
  set_IsTracked true (set_Offset p h).

(** ** The time of the last line *)

(** [last_line_at options fs st0 rs fr st t]: the loop of [Harvest], started
    in the state [st0], has come to the frame [fr] and the state [st] by the
    iterations [rs], and [t] is the time of the last successful line read
    of that run: the clock when the [readline] of the last iteration that
    returned a line came back, and the clock at the start of the loop when
    no iteration has returned one. *)
Inductive last_line_at (options : Options) (fs : nat -> FsView) (st0 : St)
  : list Line3 -> Frame -> St -> Z -> Prop :=
| no_line_yet rs fr st :
    iterates options fs (initial_frame st0) (announced options st0) rs fr st ->
    emitted rs = 0 ->
    last_line_at options fs st0 rs fr st (clock (wd st0))
| line_then_none rs1 frm stm r bufm st1m frn stn rs2 fr st :
    iterates options fs (initial_frame st0) (announced options st0) rs1 frm stm ->
    readline options fs (buffer frm) read_timeout stm = (Ret (r, bufm), st1m) ->
    is_line r = true ->
    Harvest_body options fs frm stm = (Ret (Continue frn), stn) ->
    iterates options fs frn stn rs2 fr st ->
    emitted rs2 = 0 ->
    last_line_at options fs st0 (rs1 ++ r :: rs2) fr st (clock (wd st1m)).

(** A file of one line and a partial one, on a file system that takes two
    seconds to answer. *)
Definition slow (n : nat) : FsView :=
  mkFsView 0 (StatOk "-rw-r--r--" true)
           (sample_bytes "ab" ++ [LF] ++ sample_bytes "cd") None 2000000000.

(** * Properties

    ** Lists of bytes *)

Lemma len_nil {A : Type} : len (@nil A) = 0.
Proof. reflexivity. Qed.

Lemma len_cons {A : Type} (a : A) (l : list A) : len (a :: l) = len l + 1.
Proof. unfold len. simpl List.length. lia. Qed.

Lemma len_app {A : Type} (l1 l2 : list A) : len (l1 ++ l2) = len l1 + len l2.
Proof. unfold len. rewrite length_app. lia. Qed.

Lemma len_nonneg {A : Type} (l : list A) : 0 <= len l.
Proof. unfold len. lia. Qed.

Lemma len_zero_nil {A : Type} (l : list A) : len l = 0 -> l = [].
Proof. destruct l; [reflexivity | rewrite len_cons; pose proof (len_nonneg l); lia]. Qed.

(** Lengths of appended lists, pushed to the leaves. *)
Ltac len_norm :=
  rewrite ?len_app, ?len_cons; change (len (@nil byte)) with 0.

Lemma drop_nonpos p l : p <= 0 -> drop p l = l.
Proof.
  intros Hp. destruct l as [|b t]; simpl; [reflexivity|].
  destruct (Z.leb_spec p 0); [reflexivity | lia].
Qed.

Lemma drop_app_len a b : drop (len a) (a ++ b) = b.
Proof.
  induction a as [|x a IH]; cbn [drop app].
  - apply drop_nonpos. rewrite len_nil. lia.
  - rewrite len_cons. pose proof (len_nonneg a).
    destruct (Z.leb_spec (len a + 1) 0); [lia|].
    replace (len a + 1 - 1) with (len a) by lia. exact IH.
Qed.

Lemma drop_beyond p l : len l <= p -> drop p l = [].
Proof.
  revert p. induction l as [|x l IH]; intros p Hp; cbn [drop]; [reflexivity|].
  rewrite len_cons in Hp. pose proof (len_nonneg l).
  destruct (Z.leb_spec p 0); [lia|]. apply IH. lia.
Qed.

Lemma drop_drop p q l : 0 <= p -> 0 <= q -> drop q (drop p l) = drop (p + q) l.
Proof.
  revert p. induction l as [|x l IH]; intros p Hp Hq; simpl.
  - destruct q; reflexivity.
  - destruct (Z.leb_spec p 0).
    + assert (p = 0) by lia. subst p. reflexivity.
    + destruct (Z.leb_spec (p + q) 0); [lia|].
      rewrite IH by lia. f_equal. lia.
Qed.

Lemma drop_app_plus a b p : 0 <= p -> drop (len a + p) (a ++ b) = drop p b.
Proof.
  intros Hp. rewrite <- drop_drop by (auto using len_nonneg).
  rewrite drop_app_len. reflexivity.
Qed.

Lemma In_drop x p l : In x (drop p l) -> In x l.
Proof.
  revert p. induction l as [|y l IH]; intros p H; simpl in *; [exact H|].
  destruct (p <=? 0); [exact H | right; eauto].
Qed.

(** ** Lines *)

Lemma upto_LF_found data l :
  upto_LF data = (l, true) ->
  exists body rest, l = body ++ [LF] /\ data = l ++ rest /\ ~ In LF body.
Proof.
  revert l. induction data as [|b data IH]; intros l H; simpl in H; [discriminate|].
  destruct (Byte.eqb b LF) eqn:E.
  - apply Byte.byte_dec_bl in E. subst b. inversion H; subst.
    exists [], data. simpl. auto.
  - destruct (upto_LF data) as [l' f] eqn:U. inversion H; subst.
    destruct (IH l' eq_refl) as (body & rest & -> & -> & Hn).
    exists (b :: body), rest. simpl. repeat split; auto.
    intros [->|Hin]; [|auto].
    rewrite Byte.byte_dec_lb in E by reflexivity. discriminate.
Qed.

Lemma upto_LF_missing data l :
  upto_LF data = (l, false) -> l = data /\ ~ In LF data.
Proof.
  revert l. induction data as [|b data IH]; intros l H; simpl in H.
  - inversion H. auto.
  - destruct (Byte.eqb b LF) eqn:E; [discriminate|].
    destruct (upto_LF data) as [l' f] eqn:U. inversion H; subst.
    destruct (IH l' eq_refl) as [-> Hn]. split; [reflexivity|].
    intros [->|Hin]; [|auto].
    rewrite Byte.byte_dec_lb in E by reflexivity. discriminate.
Qed.

Lemma upto_LF_no_LF data : ~ In LF data -> upto_LF data = (data, false).
Proof.
  induction data as [|b data IH]; intros H; simpl; [reflexivity|].
  destruct (Byte.eqb b LF) eqn:E.
  - apply Byte.byte_dec_bl in E. subst. exfalso. apply H. left; reflexivity.
  - rewrite IH; [reflexivity|]. intros Hin. apply H. right; exact Hin.
Qed.

Lemma upto_LF_line body rest :
  ~ In LF body -> upto_LF (body ++ LF :: rest) = (body ++ [LF], true).
Proof.
  induction body as [|b body IH]; intros H; simpl.
  - reflexivity.
  - destruct (Byte.eqb b LF) eqn:E.
    + apply Byte.byte_dec_bl in E. subst. exfalso. apply H. left; reflexivity.
    + rewrite IH; [reflexivity|]. intros Hin. apply H. right; exact Hin.
Qed.

Lemma byte_at_app_right a b i :
  len a <= i -> byte_at (a ++ b) i = byte_at b (i - len a).
Proof.
  intros Hi. unfold byte_at. pose proof (len_nonneg a).
  destruct (Z.ltb_spec i 0); [lia|].
  destruct (Z.ltb_spec (i - len a) 0); [lia|].
  rewrite app_nth2 by (unfold len in *; lia).
  f_equal. unfold len in *. lia.
Qed.

Lemma byte_at_app_left a b i :
  0 <= i < len a -> byte_at (a ++ b) i = byte_at a i.
Proof.
  intros Hi. unfold byte_at.
  destruct (Z.ltb_spec i 0); [lia|].
  apply app_nth1. unfold len in *. lia.
Qed.

Lemma byte_at_last a b : byte_at (a ++ [b]) (len (a ++ [b]) - 1) = b.
Proof.
  rewrite byte_at_app_right by (rewrite len_app, len_cons, len_nil; lia).
  rewrite len_app, len_cons, len_nil.
  replace (len a + (0 + 1) - 1 - len a) with 0 by lia. reflexivity.
Qed.

Lemma firstn_len_app (a b : bytes) : slice_to (len a) (a ++ b) = a.
Proof.
  unfold slice_to, len. rewrite Nat2Z.id.
  rewrite firstn_app, Nat.sub_diag, firstn_all. simpl. apply app_nil_r.
Qed.

(** ** What one chunk read does

    The position [open] chooses, and the harvester and the world that [read]
    leaves behind, in closed form. *)

Lemma entry_pos_nonneg options v h : 0 <= entry_pos options v h.
Proof.
  unfold entry_pos. pose proof (len_nonneg (contents v)).
  destruct (IsTracked h); [destruct (Z.ltb_spec (Offset h) 0); lia|].
  destruct (tailOnRotate options); lia.
Qed.

Lemma open_retry_eq k path h w :
  open_retry k path (mkSt h w) = (Ret tt, mkSt h (retried k path w)).
Proof.
  revert w. induction k as [|k IH]; intros w; [reflexivity|].
  cbn [open_retry retried]. unfold bind, emit, Sleep, modify_w. cbn [hv wd].
  apply IH.
Qed.

Lemma open_eq options v h w :
  String.eqb (Path h) "-" = false ->
  is_regular v = true ->
  open options v (mkSt h w) =
  (Ret (OsFile (entry_pos options v h)),
   mkSt (opened options v h) (retried (open_failures v) (Path h) w)).
Proof.
  intros Hpath Hreg. unfold open, bind, get_h. cbn [hv wd].
  rewrite Hpath, open_retry_eq. unfold modify_h, mustBeRegularFile.
  cbn [hv wd set_file file]. unfold is_regular in Hreg.
  destruct (status v) as [mode regular|e]; [subst regular | discriminate].
  cbn [negb ret hv wd].
  unfold opened, entry_offset, entry_pos, Seek.
  destruct h as [tr pa cf off fc fi sz inf]; cbn.
  destruct tr; cbn.
  - destruct (Z.ltb_spec off 0); reflexivity.
  - destruct (tailOnRotate options); cbn.
    + pose proof (len_nonneg (contents v)).
      rewrite Z.add_0_r.
      destruct (Z.ltb_spec (len (contents v)) 0); [lia | reflexivity].
    + reflexivity.
Qed.

Lemma open_panics options v h w :
  String.eqb (Path h) "-" = false ->
  is_regular v = false ->
  open options v (mkSt h w) =
  (Panic (refusal v (Path h)),
   mkSt (set_file (OsFile 0) h) (retried (open_failures v) (Path h) w)).
Proof.
  intros Hpath Hreg. unfold open, bind, get_h. cbn [hv wd].
  rewrite Hpath, open_retry_eq. unfold modify_h, mustBeRegularFile, refusal.
  cbn [hv wd set_file file Path]. unfold is_regular in Hreg.
  destruct (status v) as [mode regular|e]; [subst regular|]; reflexivity.
Qed.

Lemma read_eq options fs offset h w :
  String.eqb (Path h) "-" = false ->
  is_regular (fs (reads w)) = true ->
  0 <= offset ->
  read options fs offset (mkSt h w) =
  (Ret (chunk options (fs (reads w)) offset h),
   mkSt (after_read options (fs (reads w)) offset h)
        (world_after_read (fs (reads w)) (Path h) w)).
Proof.
  intros Hpath Hreg Hoff. unfold read, bind at 1, get_w. cbn [wd].
  set (v := fs (reads w)) in *.
  unfold bind at 1, modify_w. cbn [hv wd].
  unfold bind at 1. rewrite open_eq by assumption.
  unfold bind, get_h, modify_h, ret. cbn [hv wd].
  unfold chunk, after_read, truncated, world_after_read.
  cbn [Stat fi_size opened Path size].
  destruct (len (contents v) <? size h); cbn.
  - reflexivity.
  - pose proof (entry_pos_nonneg options v h).
    destruct (Z.ltb_spec (entry_pos options v h + offset) 0); [lia|].
    cbn. reflexivity.
Qed.

(** ** The loop of readline, one chunk at a time *)

Lemma readline_loop_step options fs fuel start_time eof_timeout buffer
      is_partial newline_length h w :
  String.eqb (Path h) "-" = false ->
  is_regular (fs (reads w)) = true ->
  readline_loop options fs (S fuel) start_time eof_timeout buffer
                is_partial newline_length (mkSt h w) =
  let v := fs (reads w) in
  let h1 := after_read options v (len buffer) h in
  let w1 := world_after_read v (Path h) w in
  let '(ip, nl, buf) :=
    absorb (fst (chunk options v (len buffer) h)) is_partial newline_length buffer in
  match snd (chunk options v (len buffer) h) with
  | Some e =>
      if error_eqb e EOF && ip then
        if clock (advance (1 * Second) w1) - start_time >? eof_timeout then
          (Ret ((None, 0, Some e), buf), mkSt h1 (advance (1 * Second) w1))
        else
          readline_loop options fs fuel start_time eof_timeout buf ip nl
                        (mkSt h1 (advance (1 * Second) w1))
      else
        (Ret ((None, 0, Some e), buf), mkSt h1 (logged (NoticeReadLine e) w1))
  | None =>
      if negb ip then
        if len buf - nl <? 0 then
          (Panic (RuntimeError "slice bounds out of range"), mkSt h1 w1)
        else
          (Ret ((Some (slice_to (len buf - nl) buf), len buf, None), []),
           mkSt h1 w1)
      else
        readline_loop options fs fuel start_time eof_timeout buf ip nl
                      (mkSt h1 w1)
  end.
Proof.
  intros Hpath Hreg. cbn [readline_loop]. unfold bind at 1.
  rewrite read_eq by (auto using len_nonneg).
  cbv zeta. unfold absorb.
  destruct (chunk options (fs (reads w)) (len buffer) h) as [segment err].
  cbn [fst snd].
  destruct (0 <? len segment);
    [destruct (Byte.eqb (byte_at segment (len segment - 1)) LF)|].
  all: destruct err as [e|]; [destruct (error_eqb e EOF)|]; cbn [andb negb].
  all: try destruct is_partial; cbn [andb negb].
  all: unfold bind, Sleep, Now, emit, modify_w, ret, panic; cbn [hv wd].
  all: repeat match goal with
              | |- context [if ?c then _ else _] => destruct c
              end; reflexivity.
Qed.

Lemma readline_loop_panics options fs fuel start_time eof_timeout buffer
      is_partial newline_length h w :
  String.eqb (Path h) "-" = false ->
  is_regular (fs (reads w)) = false ->
  readline_loop options fs (S fuel) start_time eof_timeout buffer
                is_partial newline_length (mkSt h w) =
  (Panic (refusal (fs (reads w)) (Path h)),
   mkSt (set_file (OsFile 0) h) (world_after_read (fs (reads w)) (Path h) w)).
Proof.
  intros Hpath Hreg. cbn [readline_loop]. unfold bind at 1.
  unfold read. unfold bind at 1, get_w. cbn [wd hv].
  unfold bind at 1, modify_w. cbn [wd hv]. unfold bind at 1.
  rewrite open_panics by assumption. reflexivity.
Qed.

Lemma byte_at_In s i : 0 <= i < len s -> In (byte_at s i) s.
Proof.
  intros Hi. unfold byte_at. destruct (Z.ltb_spec i 0); [lia|].
  apply nth_In. unfold len in Hi. lia.
Qed.

Lemma absorb_partial segment is_partial newline_length buffer :
  ~ In LF segment ->
  absorb segment is_partial newline_length buffer =
  (is_partial, newline_length, buffer ++ segment).
Proof.
  intros Hno. unfold absorb. destruct (Z.ltb_spec 0 (len segment)) as [Hpos|Hz].
  - destruct (Byte.eqb (byte_at segment (len segment - 1)) LF) eqn:E;
      [|reflexivity].
    apply Byte.byte_dec_bl in E. exfalso. apply Hno. rewrite <- E.
    apply byte_at_In. lia.
  - pose proof (len_nonneg segment).
    rewrite (len_zero_nil segment) by lia. rewrite app_nil_r. reflexivity.
Qed.

Lemma absorb_line body is_partial newline_length buffer :
  absorb (body ++ [LF]) is_partial newline_length buffer =
  (false, newline_length + terminator_length (body ++ [LF]) - 1,
   buffer ++ body ++ [LF]).
Proof.
  unfold absorb, terminator_length.
  assert (Hl : len (body ++ [LF]) = len body + 1)
    by (rewrite len_app, len_cons, len_nil; lia).
  pose proof (len_nonneg body).
  destruct (Z.ltb_spec 0 (len (body ++ [LF]))); [|lia].
  rewrite byte_at_last. cbn [Byte.eqb].
  replace (Byte.eqb LF LF) with true by reflexivity.
  destruct ((1 <? len (body ++ [LF]))
            && Byte.eqb (byte_at (body ++ [LF]) (len (body ++ [LF]) - 2)) CR).
  - replace (newline_length + 2 - 1) with (newline_length + 1) by lia.
    reflexivity.
  - replace (newline_length + 1 - 1) with newline_length by lia.
    reflexivity.
Qed.


Lemma terminator_length_le body :
  terminator_length (body ++ [LF]) <= len (body ++ [LF]).
Proof.
  unfold terminator_length. rewrite len_app, len_cons, len_nil.
  pose proof (len_nonneg body).
  destruct (Z.ltb_spec 1 (len body + (0 + 1))); cbn [andb]; [|lia].
  destruct (Byte.eqb _ _); lia.
Qed.

Lemma slice_to_app a b k :
  0 <= k -> slice_to (len a + k) (a ++ b) = a ++ slice_to k b.
Proof.
  intros Hk. unfold slice_to, len.
  rewrite Z2Nat.inj_add by lia. rewrite Nat2Z.id.
  rewrite firstn_app_2. reflexivity.
Qed.

(** ** Facts about a chunk *)

Lemma len_firstn_le {A : Type} k (l : list A) : len (firstn k l) <= len l.
Proof. unfold len. rewrite length_firstn. lia. Qed.

Lemma len_drop p l : 0 <= p -> l <> [] -> drop p l <> [] -> p + len (drop p l) = len l.
Proof.
  revert p. induction l as [|x l IH]; intros p Hp Hl Hd; [congruence|].
  cbn [drop] in *. destruct (Z.leb_spec p 0).
  - lia.
  - rewrite len_cons. destruct l as [|y l]; [cbn in Hd; congruence|].
    specialize (IH (p - 1) ltac:(lia) ltac:(discriminate) Hd). lia.
Qed.

Lemma upto_LF_prefix data l found :
  upto_LF data = (l, found) -> exists rest, data = l ++ rest.
Proof.
  destruct found; intros H.
  - apply upto_LF_found in H. destruct H as (body & rest & _ & H & _). eauto.
  - apply upto_LF_missing in H. destruct H as [-> _]. exists []. now rewrite app_nil_r.
Qed.

Lemma ReadBytes_within v p l err :
  0 <= p -> ReadBytes v (OsFile p) = (l, err) -> l <> [] ->
  p + len l <= len (contents v).
Proof.
  intros Hp H Hl. unfold ReadBytes in H. cbn [position] in H.
  set (rest := drop p (contents v)) in *.
  set (avail := match fault v with Some (k, _) => firstn k rest | None => rest end) in *.
  destruct (upto_LF avail) as [l' found] eqn:U.
  assert (l' = l) by (destruct found; congruence). subst l'.
  destruct (upto_LF_prefix _ _ _ U) as [r Hr].
  assert (Ha : len l <= len avail) by (rewrite Hr, len_app; pose proof (len_nonneg r); lia).
  assert (Hb : len avail <= len rest).
  { unfold avail. destruct (fault v) as [[k msg]|]; [apply len_firstn_le | lia]. }
  assert (Hrest : rest <> []).
  { intros E. rewrite E in Hb. rewrite len_nil in Hb.
    apply Hl. apply len_zero_nil. pose proof (len_nonneg l). lia. }
  assert (Hc : contents v <> []).
  { intros E. apply Hrest. subst rest. rewrite E. reflexivity. }
  pose proof (len_drop p (contents v) Hp Hc Hrest) as Hd. fold rest in Hd. lia.
Qed.

Lemma ReadBytes_shape v f l err :
  ReadBytes v f = (l, err) ->
  match err with
  | None => exists body, l = body ++ [LF] /\ ~ In LF body
  | Some e => ~ In LF l /\ e <> FILE_TRUNCATED
              /\ (e = EOF -> fault v = None)
  end.
Proof.
  unfold ReadBytes. intros H.
  destruct (upto_LF _) as [l' found] eqn:U. destruct found.
  - inversion H; subst. apply upto_LF_found in U.
    destruct U as (body & rest & -> & _ & Hn). eauto.
  - inversion H; subst. apply upto_LF_missing in U. destruct U as [-> Hn].
    split; [exact Hn|]. destruct (fault v) as [[k msg]|]; split; congruence.
Qed.

Lemma chunk_shape options v offset h segment err :
  0 <= offset ->
  chunk options v offset h = (segment, err) ->
  (segment <> [] ->
   entry_pos options v h + offset + len segment <= len (contents v)) /\
  match err with
  | None => truncated v h = false
            /\ exists body, segment = body ++ [LF] /\ ~ In LF body
  | Some e => ~ In LF segment
              /\ (e = FILE_TRUNCATED <-> truncated v h = true)
              /\ (e = FILE_TRUNCATED -> segment = [])
  end.
Proof.
  intros Hoff. unfold chunk. pose proof (entry_pos_nonneg options v h) as Hp.
  destruct (truncated v h) eqn:T; intros H.
  - inversion H; subst. split; [congruence|]. cbn. intuition congruence.
  - split.
    + intros Hne. apply (ReadBytes_within v) with (err := err); [lia|exact H|exact Hne].
    + pose proof (ReadBytes_shape _ _ _ _ H) as S. destruct err as [e|].
      * destruct S as (Hn & Hne & _). repeat split; try assumption; try congruence.
      * split; [reflexivity | exact S].
Qed.

(** A segment is what the file holds at the position of the reader. *)
Lemma chunk_in_file options v offset h segment err :
  chunk options v offset h = (segment, err) ->
  truncated v h = false ->
  exists rest,
    drop (entry_pos options v h + offset) (contents v) = segment ++ rest.
Proof.
  unfold chunk. intros H T. rewrite T in H. unfold ReadBytes in H.
  cbn [position] in H.
  set (data := drop (entry_pos options v h + offset) (contents v)) in *.
  destruct (upto_LF _) as [l found] eqn:U.
  assert (l = segment) by (destruct found; congruence). subst l.
  destruct (upto_LF_prefix _ _ _ U) as [r Hr].
  destruct (fault v) as [[k msg]|].
  - exists (r ++ skipn k data).
    rewrite <- (firstn_skipn k data) at 1. rewrite Hr, <- app_assoc. reflexivity.
  - exists r. exact Hr.
Qed.

(** ** The world after a read *)

Lemma retried_facts k path w :
  reads (retried k path w) = reads w
  /\ output (retried k path w) = output w
  /\ clock (retried k path w) = clock w + 5 * Second * Z.of_nat k.
Proof.
  revert w. induction k as [|k IH]; intros w.
  - cbn [retried]. repeat split. lia.
  - cbn [retried]. destruct (IH (advance (5 * Second) (logged (NoticeFailedOpening path) w)))
      as (-> & -> & ->). cbn [advance logged reads output clock].
    repeat split. lia.
Qed.

Lemma world_after_read_reads v path w :
  reads (world_after_read v path w) = S (reads w).
Proof.
  unfold world_after_read. destruct (retried_facts (open_failures v) path
    (next_view (Z.of_N (latency v)) w)) as (-> & _). reflexivity.
Qed.

Lemma world_after_read_output v path w :
  output (world_after_read v path w) = output w.
Proof.
  unfold world_after_read. destruct (retried_facts (open_failures v) path
    (next_view (Z.of_N (latency v)) w)) as (_ & -> & _). reflexivity.
Qed.

Lemma world_after_read_clock v path w :
  clock (world_after_read v path w) =
  clock w + Z.of_N (latency v) + 5 * Second * Z.of_nat (open_failures v).
Proof.
  unfold world_after_read. destruct (retried_facts (open_failures v) path
    (next_view (Z.of_N (latency v)) w)) as (_ & _ & ->). reflexivity.
Qed.

Lemma world_after_read_later v path w :
  clock w <= clock (world_after_read v path w).
Proof. rewrite world_after_read_clock. unfold Second. lia. Qed.

Lemma entry_pos_after_read options v v' offset h :
  entry_pos options v' (after_read options v offset h) = entry_pos options v h.
Proof.
  unfold after_read, entry_pos at 1. cbn [IsTracked Offset].
  unfold entry_offset. pose proof (entry_pos_nonneg options v h) as Hp.
  destruct (IsTracked h) eqn:T.
  - unfold entry_pos. rewrite T. reflexivity.
  - destruct (Z.ltb_spec (entry_pos options v h) 0); [lia | reflexivity].
Qed.

Lemma entry_offset_after_read options v v' offset h :
  entry_offset options v' (after_read options v offset h) = entry_offset options v h.
Proof. reflexivity. Qed.

Lemma entry_offset_tracked options v h :
  IsTracked h = true -> entry_offset options v h = Offset h.
Proof. unfold entry_offset. intros ->. reflexivity. Qed.

(** ** What readline returns *)

Lemma readline_loop_post options fs fuel :
  forall start_time eof_timeout buffer h w o st',
    String.eqb (Path h) "-" = false ->
    readline_loop options fs fuel start_time eof_timeout buffer true 1
                  (mkSt h w) = (o, st') ->
    readline_post options fs start_time eof_timeout buffer h w o st'.
Proof.
  induction fuel as [|fuel IH]; intros start_time T buffer h w o st' Hpath Hrun.
  - cbn in Hrun. inversion Hrun; subst. unfold readline_post. cbn.
    repeat split; auto; lia.
  - destruct (is_regular (fs (reads w))) eqn:Hreg.
    2:{ rewrite readline_loop_panics in Hrun by assumption.
        inversion Hrun; subst. unfold readline_post, last_view. cbn [hv wd].
        rewrite world_after_read_reads, world_after_read_output. cbn.
        pose proof (world_after_read_later (fs (reads w)) (Path h) w).
        repeat split; auto; lia. }
    rewrite readline_loop_step in Hrun by assumption. cbv zeta in Hrun.
    set (v := fs (reads w)) in *.
    destruct (chunk options v (len buffer) h) as [segment err] eqn:Hchunk.
    cbn [fst snd] in Hrun.
    destruct (chunk_shape options v (len buffer) h segment err (len_nonneg buffer) Hchunk)
      as [Hin Hshape].
    pose proof (world_after_read_later v (Path h) w) as Hlater.
    pose proof (entry_offset_tracked options v h) as Hoff.
    assert (Hbound : forall B, (forall k, len (contents (fs k)) <= B) ->
                               entry_pos options v h + len buffer <= B ->
                               entry_pos options v h + len (buffer ++ segment) <= B).
    { intros B HB Hb. destruct segment as [|b s].
      - rewrite app_nil_r. exact Hb.
      - rewrite len_app. specialize (HB (reads w)). fold v in HB.
        specialize (Hin ltac:(discriminate)). lia. }
    destruct err as [e|].
    + (* the chunk ended on an error *)
      destruct Hshape as (Hno & Htr & Hempty).
      assert (Hex : exists more, buffer ++ segment = buffer ++ more /\ ~ In LF more)
        by (exists segment; auto).
      rewrite absorb_partial in Hrun by assumption.
      destruct (error_eqb e EOF) eqn:He; cbn [andb] in Hrun.
      * destruct (Z.gtb_spec (clock (advance (1 * Second) (world_after_read v (Path h) w))
                              - start_time) T) as [Hout|Hin'].
        -- inversion Hrun; subst. unfold readline_post, last_view.
           cbn [hv wd advance reads output clock after_read
                Path FileConfig FinishChan Offset IsTracked size info] in *.
           rewrite world_after_read_reads, world_after_read_output.
           cbn [pred]. fold v. unfold Second in *.
           repeat split; auto; try lia.
        -- apply IH in Hrun; [|exact Hpath].
           unfold readline_post in *.
           cbn [hv wd advance reads output clock after_read
                Path FileConfig FinishChan Offset IsTracked size info] in *.
           rewrite world_after_read_reads, world_after_read_output in Hrun.
           rewrite entry_pos_after_read in Hrun.
           destruct Hrun as (H1 & H2 & H3 & H4 & H5 & H6 & H7).
           destruct (H6 eq_refl) as [H6a H6b].
           assert (Hsec : 0 < 1 * Second) by (unfold Second; lia).
           split; [exact H1|]. split; [exact H2|]. split; [exact H3|].
           split; [exact H4|]. split; [lia|].
           split; [intros Htk; rewrite H6a; auto|].
           destruct o as [[[[text n] err] buf']|msg| |]; auto.
           destruct H7 as (K1 & K2 & K3 & K4 & K5 & K6).
           split; [exact K1|]. split; [exact K2|]. split; [lia|].
           split; [exact K4|]. split; [exact K5|].
           destruct err as [e'|].
           ++ destruct K6 as (L1 & L2 & (more & L3 & L4) & L5 & L6).
              split; [exact L1|]. split; [exact L2|].
              split; [|split; [|exact L6]].
              ** exists (segment ++ more). rewrite app_assoc. split; [exact L3|].
                 intros Hi. apply in_app_or in Hi. tauto.
              ** intros B HB Hb. apply L5; [exact HB|]. apply Hbound; assumption.
           ++ destruct K6 as (L1 & more & seg & body & L2 & L3 & L4 & L5 & L6 & L7 & L8).
              split; [exact L1|].
              exists (segment ++ more), seg, body.
              split; [exact L2|]. split; [exact L3|].
              split; [intros Hi; apply in_app_or in Hi; tauto|].
              split; [rewrite L5, <- !app_assoc; reflexivity|].
              split; [rewrite L6, <- !app_assoc; reflexivity|].
              split; [exact L7|].
              rewrite app_assoc. exact L8.
      * inversion Hrun; subst. unfold readline_post, last_view.
        cbn [hv wd logged reads output clock after_read
             Path FileConfig FinishChan Offset IsTracked size info].
        rewrite world_after_read_reads, world_after_read_output.
        cbn [pred]. fold v.
        repeat split; auto; try lia.
        intros ->. discriminate.
    + (* the chunk ended on a newline *)
      destruct Hshape as (Htr & body & -> & Hbody).
      rewrite absorb_line in Hrun. cbn [negb] in Hrun.
      replace (1 + terminator_length (body ++ [LF]) - 1)
        with (terminator_length (body ++ [LF])) in Hrun by lia.
      pose proof (terminator_length_le body) as Hle.
      pose proof (len_nonneg buffer) as Hbuf.
      destruct (Z.ltb_spec (len (buffer ++ body ++ [LF])
                            - terminator_length (body ++ [LF])) 0) as [Hneg|Hpos].
      { rewrite len_app in Hneg. lia. }
      inversion Hrun; subst. unfold readline_post, last_view.
      cbn [hv wd reads output clock after_read
           Path FileConfig FinishChan Offset IsTracked size info].
      rewrite world_after_read_reads, world_after_read_output.
      cbn [pred]. fold v.
      split; [reflexivity|]. split; [reflexivity|]. split; [reflexivity|].
      split; [reflexivity|]. split; [exact Hlater|].
      split; [intros Htk; auto|].
      split; [reflexivity|]. split; [reflexivity|]. split; [lia|].
      split; [reflexivity|]. split; [reflexivity|]. split; [reflexivity|].
      exists [], (body ++ [LF]), body. cbn [app].
      split; [reflexivity|]. split; [exact Hbody|]. split; [tauto|].
      split; [|split; [reflexivity|split]].
      * f_equal. unfold chomp. rewrite <- slice_to_app by lia.
        f_equal. rewrite len_app. lia.
      * specialize (Hin ltac:(destruct body; discriminate)).
        rewrite len_app. lia.
      * rewrite app_nil_r. exact (chunk_in_file _ _ _ _ _ _ Hchunk Htr).
Qed.

(** [readline] always comes back: the fuel it gives its loop is never used
    up, because every chunk that does not end the call costs a second of the
    time allowed. *)
Lemma readline_loop_fuel options fs fuel :
  forall start_time eof_timeout buffer h w,
    String.eqb (Path h) "-" = false ->
    (0 < fuel)%nat ->
    eof_timeout - (clock w - start_time) < Z.of_nat fuel * Second ->
    fst (readline_loop options fs fuel start_time eof_timeout buffer true 1
                       (mkSt h w)) <> NoFuel.
Proof.
  induction fuel as [|fuel IH]; intros start_time T buffer h w Hpath Hpos Hfuel;
    [lia|].
  destruct (is_regular (fs (reads w))) eqn:Hreg.
  2:{ rewrite readline_loop_panics by assumption. discriminate. }
  rewrite readline_loop_step by assumption. cbv zeta.
  set (v := fs (reads w)) in *.
  destruct (chunk options v (len buffer) h) as [segment err] eqn:Hchunk.
  cbn [fst snd].
  destruct (chunk_shape options v (len buffer) h segment err (len_nonneg buffer) Hchunk)
    as [_ Hshape].
  pose proof (world_after_read_later v (Path h) w) as Hlater.
  destruct err as [e|].
  - destruct Hshape as (Hno & _).
    rewrite absorb_partial by assumption.
    destruct (error_eqb e EOF); cbn [andb]; [|discriminate].
    destruct (Z.gtb_spec (clock (advance (1 * Second) (world_after_read v (Path h) w))
                          - start_time) T) as [Hout|Hin]; [discriminate|].
    cbn [advance clock] in Hin. unfold Second in *.
    apply IH; [exact Hpath | | cbn [advance clock]]; lia.
  - destruct Hshape as (_ & body & -> & _).
    rewrite absorb_line. cbn [negb].
    destruct (_ <? 0); discriminate.
Qed.

Lemma readline_fuel_enough eof_timeout :
  eof_timeout < Z.of_nat (readline_fuel eof_timeout) * Second.
Proof.
  unfold readline_fuel, Second. rewrite Nat2Z.inj_succ.
  destruct (Z.le_gt_cases 0 eof_timeout) as [Hpos|Hneg].
  - rewrite Z2Nat.id by (apply Z.div_pos; lia).
    pose proof (Z.mod_pos_bound eof_timeout 1000000000 ltac:(lia)).
    pose proof (Z.div_mod eof_timeout 1000000000 ltac:(lia)). lia.
  - lia.
Qed.

(** The postcondition of [readline]; the time is counted from the clock at
    the call. *)
Lemma readline_spec options fs buffer eof_timeout h w o st' :
  String.eqb (Path h) "-" = false ->
  readline options fs buffer eof_timeout (mkSt h w) = (o, st') ->
  readline_post options fs (clock w) eof_timeout buffer h w o st'
  /\ o <> NoFuel.
Proof.
  intros Hpath Hrun. unfold readline, bind, Now in Hrun. cbn [wd hv] in Hrun.
  split.
  - eapply readline_loop_post; eassumption.
  - pose proof (readline_loop_fuel options fs (readline_fuel eof_timeout)
                  (clock w) eof_timeout buffer h w Hpath) as Hf.
    rewrite Hrun in Hf. cbn [fst] in Hf. apply Hf.
    + unfold readline_fuel. lia.
    + pose proof (readline_fuel_enough eof_timeout). lia.
Qed.

(** ** One iteration of the Harvest loop *)

Lemma Harvest_body_eq options fs fr :
  Harvest_body options fs fr =
  (r <- readline options fs (buffer fr) read_timeout ;; Harvest_handle fr r).
Proof. reflexivity. Qed.

Lemma Harvest_handle_line fr text n buf h w :
  Harvest_handle fr (text, n, None, buf) (mkSt h w) =
  (Ret (Continue (mkFrame (wrapu64 (line fr + 1)) buf (clock w))),
   mkSt (set_Offset (wrap64 (Offset h + n)) h) (shipped (event_of fr text h) w)).
Proof. reflexivity. Qed.

Lemma Harvest_handle_truncated fr text n buf h w :
  Harvest_handle fr (text, n, Some FILE_TRUNCATED, buf) (mkSt h w) =
  (Ret (Continue (mkFrame (line fr) buf (last_read_time fr))),
   mkSt (set_Offset 0 h) (logged (NoticeTruncated (Path h)) w)).
Proof. reflexivity. Qed.

Lemma Harvest_handle_EOF fr text n buf h w :
  Harvest_handle fr (text, n, Some EOF, buf) (mkSt h w) =
  if clock w - last_read_time fr >? Cfg.deadtime (FileConfig h) then
    (Ret (Return Dead),
     mkSt h (logged (NoticeStopping (Path h) (clock w - last_read_time fr)) w))
  else
    (Ret (Continue (mkFrame (line fr) buf (last_read_time fr))), mkSt h w).
Proof.
  unfold Harvest_handle, bind, get_h, Now. cbn [hv wd error_eqb].
  destruct (_ >? _); reflexivity.
Qed.

Lemma Harvest_handle_IOError fr text n msg buf h w :
  Harvest_handle fr (text, n, Some (IOError msg), buf) (mkSt h w) =
  (Ret (Return Aborted),
   mkSt h (logged (NoticeUnexpected (Path h) (IOError msg)) w)).
Proof. reflexivity. Qed.

Lemma start_offset_tracked options fs st :
  IsTracked (hv st) = true -> start_offset options fs st = Offset (hv st).
Proof. intros H. unfold start_offset. now apply entry_offset_tracked. Qed.

Lemma wrap64_small z : - 2 ^ 63 <= z < 2 ^ 63 -> wrap64 z = z.
Proof.
  intros H. unfold wrap64. rewrite Z.mod_small by lia. lia.
Qed.


Lemma entry_pos_start options fs st :
  (IsTracked (hv st) = true -> 0 <= Offset (hv st)) ->
  entry_pos options (fs (reads (wd st))) (hv st) = start_offset options fs st.
Proof.
  intros H. unfold start_offset, entry_offset, entry_pos.
  destruct (IsTracked (hv st)); [|reflexivity].
  destruct (Z.ltb_spec (Offset (hv st)) 0); [specialize (H eq_refl); lia | reflexivity].
Qed.

Lemma start_offset_nonneg options fs st :
  (IsTracked (hv st) = true -> 0 <= Offset (hv st)) ->
  0 <= start_offset options fs st.
Proof.
  intros H. rewrite <- entry_pos_start by exact H. apply entry_pos_nonneg.
Qed.

Lemma loop_inv_tracked options fs B fr st :
  String.eqb (Path (hv st)) "-" = false ->
  IsTracked (hv st) = true ->
  0 <= Offset (hv st) ->
  Offset (hv st) + len (buffer fr) <= B ->
  ~ In LF (buffer fr) ->
  loop_inv options fs B fr st.
Proof.
  intros Hp Ht Ho Hb Hn. unfold loop_inv.
  rewrite start_offset_tracked by exact Ht. auto.
Qed.

Lemma Harvest_body_step options fs B fr st o st2 :
  (forall k, len (contents (fs k)) <= B) ->
  B < 2 ^ 63 ->
  loop_inv options fs B fr st ->
  Harvest_body options fs fr st = (o, st2) ->
  exists ro st1,
    readline options fs (buffer fr) read_timeout st = (ro, st1)
    /\ readline_post options fs (clock (wd st)) read_timeout (buffer fr)
                     (hv st) (wd st) ro st1
    /\ match ro with
       | Ret (r, buf) =>
           Harvest_handle fr (r, buf) st1 = (o, st2)
           /\ Offset (hv st2) = offset_after (start_offset options fs st) r
           /\ IsTracked (hv st2) = true
           /\ Path (hv st2) = Path (hv st)
           /\ FileConfig (hv st2) = FileConfig (hv st)
           /\ FinishChan (hv st2) = FinishChan (hv st)
           /\ reads (wd st2) = reads (wd st1)
           /\ clock (wd st2) = clock (wd st1)
           /\ output (wd st2)
              = output (wd st) ++ match r with
                                  | (text, _, None) => [event_of fr text (hv st1)]
                                  | _ => []
                                  end
           /\ forall fr2, o = Ret (Continue fr2) ->
                          buffer fr2 = buf /\ loop_inv options fs B fr2 st2
       | Panic msg => o = Panic msg /\ st2 = st1
       | OnStdin => False
       | NoFuel => False
       end.
Proof.
  intros Hsize HB (Hpath & Hoff & Hbuf & HnoLF) Hrun.
  rewrite Harvest_body_eq in Hrun. unfold bind in Hrun.
  destruct (readline options fs (buffer fr) read_timeout st) as [ro st1] eqn:Hrl.
  exists ro, st1. split; [reflexivity|].
  destruct st as [h w]. cbn [hv wd] in *.
  destruct (readline_spec options fs (buffer fr) read_timeout h w ro st1 Hpath Hrl)
    as [Hpost Hfuel].
  split; [exact Hpost|].
  pose proof (start_offset_nonneg options fs (mkSt h w) Hoff) as Hso.
  unfold readline_post in Hpost. cbv zeta in Hpost.
  pose proof (entry_pos_start options fs (mkSt h w) Hoff) as Hep.
  cbn [hv wd] in Hep. rewrite Hep in Hpost. clear Hep.
  destruct Hpost as (P1 & P2 & P3 & P4 & P5 & P6 & P7).
  destruct ro as [[[[text n] err] buf]|msg| |]; try (inversion Hrun; subst; tauto).
  destruct P7 as (Q1 & Q2 & Q3 & Q4 & Q5 & Q6).
  destruct st1 as [h1 w1]. cbn [hv wd] in *.
  change (entry_offset options (fs (reads w)) h)
    with (start_offset options fs (mkSt h w)) in Q2.
  split; [exact Hrun|].
  destruct err as [e|].
  - destruct Q6 as (-> & -> & (more & -> & Hmore) & Hbound & Heof).
    specialize (Hbound B Hsize Hbuf).
    assert (Hno2 : ~ In LF (buffer fr ++ more))
      by (intros Hi; apply in_app_or in Hi; tauto).
    destruct e as [| |msg].
    + rewrite Harvest_handle_EOF in Hrun.
      destruct (_ >? _); inversion Hrun; subst;
        cbn [hv wd logged reads clock output offset_after].
      all: rewrite app_nil_r.
      all: do 8 (split; [solve [auto]|]).
      all: intros fr2 E; inversion E; subst; cbn [buffer].
      all: split; [reflexivity|].
      all: apply loop_inv_tracked; cbn [hv wd buffer]; auto; try lia.
      all: rewrite P1; auto.
    + rewrite Harvest_handle_truncated in Hrun.
      inversion Hrun; subst; cbn [hv wd logged reads clock output offset_after
                                   set_Offset Offset IsTracked Path FileConfig
                                   FinishChan].
      rewrite app_nil_r.
      do 8 (split; [solve [auto]|]).
      intros fr2 E; inversion E; subst; cbn [buffer].
      split; [reflexivity|].
      apply loop_inv_tracked;
        cbn [hv wd buffer set_Offset Offset IsTracked Path]; auto; try lia.
      rewrite P1; auto.
    + rewrite Harvest_handle_IOError in Hrun.
      inversion Hrun; subst; cbn [hv wd logged reads clock output offset_after].
      rewrite app_nil_r.
      do 8 (split; [solve [auto]|]).
      intros fr2 E; discriminate.
  - destruct Q6 as (-> & more & segment & body & -> & Hbody & Hmore & -> & -> & Hle & _).
    rewrite Harvest_handle_line in Hrun.
    pose proof (Hsize (pred (reads w1))) as Hs. unfold last_view in Hle.
    pose proof (len_nonneg (buffer fr ++ more ++ body ++ [LF])) as Hn.
    inversion Hrun; subst; cbn [hv wd shipped reads clock output offset_after
                                 set_Offset Offset IsTracked Path FileConfig
                                 FinishChan].
    rewrite Q2. rewrite wrap64_small by lia. rewrite P4.
    do 8 (split; [solve [auto]|]).
    intros fr2 E; inversion E; subst; cbn [buffer].
    split; [reflexivity|].
    apply loop_inv_tracked;
      cbn [hv wd buffer set_Offset Offset IsTracked Path]; auto; try lia.
    + rewrite P1; auto.
    + rewrite len_nil. lia.
Qed.

(** ** Runs of the loop *)

Lemma tracked_after_snoc o rs r :
  tracked_after o (rs ++ [r]) = offset_after (tracked_after o rs) r.
Proof. unfold tracked_after. rewrite fold_left_app. reflexivity. Qed.

Lemma iterates_inv options fs B :
  (forall k, len (contents (fs k)) <= B) ->
  B < 2 ^ 63 ->
  forall fr st rs fr' st',
    iterates options fs fr st rs fr' st' ->
    loop_inv options fs B fr st ->
    loop_inv options fs B fr' st'
    /\ start_offset options fs st' = tracked_after (start_offset options fs st) rs
    /\ (rs <> [] -> IsTracked (hv st') = true)
    /\ Path (hv st') = Path (hv st)
    /\ FileConfig (hv st') = FileConfig (hv st)
    /\ FinishChan (hv st') = FinishChan (hv st)
    /\ clock (wd st) <= clock (wd st').
Proof.
  intros Hsize HB fr st rs fr' st' Hit.
  induction Hit as [fr st|fr st r buf st1 fr2 st2 rs fr3 st3 Hrl Hbody Hit IH];
    intros Hinv.
  - split; [exact Hinv|]. split; [reflexivity|]. split; [congruence|].
    repeat split; lia.
  - destruct (Harvest_body_step options fs B fr st _ _ Hsize HB Hinv Hbody)
      as (ro & st1' & Hrl' & Hpost & Hcase).
    rewrite Hrl in Hrl'. inversion Hrl'; subst ro st1'. clear Hrl'.
    destruct Hcase as (_ & Hoff & Htr & Hp & Hc & Hf & _ & Hck & _ & Hnext).
    destruct (Hnext fr2 eq_refl) as [_ Hinv2].
    destruct (IH Hinv2) as (I1 & I2 & I3 & I4 & I5 & I6 & I7).
    destruct Hpost as (_ & _ & _ & _ & Hclock & _).
    split; [exact I1|].
    split.
    { rewrite I2. rewrite start_offset_tracked by exact Htr. rewrite Hoff.
      reflexivity. }
    split.
    { intros _. destruct rs as [|r' rs]; [|apply I3; discriminate].
      inversion Hit; subst. exact Htr. }
    repeat split; try congruence. lia.
Qed.

Lemma Harvest_handle_returns fr r st :
  exists c st', Harvest_handle fr r st = (Ret c, st').
Proof.
  destruct st as [h w]. destruct r as [[[text n] [[| |m]|]] buf].
  - rewrite Harvest_handle_EOF. destruct (_ >? _); eauto.
  - rewrite Harvest_handle_truncated. eauto.
  - rewrite Harvest_handle_IOError. eauto.
  - rewrite Harvest_handle_line. eauto.
Qed.

(** A run of [Harvest_loop] that comes back has iterated the body some number
    of times and left by a [return] or a panic of the last iteration. *)
Lemma Harvest_loop_unfold options fs B :
  (forall k, len (contents (fs k)) <= B) ->
  B < 2 ^ 63 ->
  forall fuel fr st o st',
    loop_inv options fs B fr st ->
    Harvest_loop options fs fuel fr st = (o, st') ->
    (o = NoFuel /\ exists rs fr', iterates options fs fr st rs fr' st'
                                  /\ List.length rs = fuel)
    \/ (exists rs frk stk,
           iterates options fs fr st rs frk stk
           /\ (List.length rs < fuel)%nat
           /\ ((exists e, o = Ret e
                          /\ Harvest_body options fs frk stk
                             = (Ret (Return e), st'))
               \/ (exists msg, o = Panic msg
                               /\ Harvest_body options fs frk stk
                                  = (Panic msg, st')))).
Proof.
  intros Hsize HB.
  induction fuel as [|fuel IH]; intros fr st o st' Hinv Hrun.
  - cbn in Hrun. inversion Hrun; subst. left. split; [reflexivity|].
    exists [], fr. split; [constructor | reflexivity].
  - cbn [Harvest_loop] in Hrun. unfold bind in Hrun.
    destruct (Harvest_body options fs fr st) as [ob st2] eqn:Hbody.
    destruct (Harvest_body_step options fs B fr st _ _ Hsize HB Hinv Hbody)
      as (ro & st1 & Hrl & Hpost & Hcase).
    destruct ro as [[r buf]|msg| |]; try contradiction.
    + destruct Hcase as (Hh & _ & _ & _ & _ & _ & _ & _ & _ & Hnext).
      destruct ob as [c|msg| |].
      2:{ destruct (Harvest_handle_returns fr (r, buf) st1) as (c & s & E).
          congruence. }
      * destruct c as [fr2|e].
        -- destruct (Hnext fr2 eq_refl) as [_ Hinv2].
           destruct (IH fr2 st2 o st' Hinv2 Hrun)
             as [(-> & rs & fr' & Hit & Hlen)
                |(rs & frk & stk & Hit & Hlen & Hout)].
           ++ left. split; [reflexivity|].
              exists (r :: rs), fr'. split; [|cbn; lia].
              econstructor; eassumption.
           ++ right. exists (r :: rs), frk, stk.
              split; [econstructor; eassumption|].
              split; [cbn; lia | assumption].
        -- unfold ret in Hrun. inversion Hrun; subst. right.
           exists [], fr, st. split; [constructor|]. split; [cbn; lia|].
           left. exists e. split; [reflexivity | exact Hbody].
      * destruct (Harvest_handle_returns fr (r, buf) st1) as (c & s & E).
        congruence.
      * destruct (Harvest_handle_returns fr (r, buf) st1) as (c & s & E).
        congruence.
    + destruct Hcase as [-> ->]. inversion Hrun; subst. right.
      exists [], fr, st. split; [constructor|]. split; [cbn; lia|].
      right. exists msg. split; [reflexivity | exact Hbody].
Qed.



Lemma wrapu64_succ a : wrapu64 (wrapu64 a + 1) = wrapu64 (a + 1).
Proof. unfold wrapu64. apply Z.add_mod_idemp_l. lia. Qed.



(** ** Standard input

    A harvester on "-" leaves the model at its first read. *)
Lemma Harvest_body_stdin options fs fr st :
  String.eqb (Path (hv st)) "-" = true ->
  exists st', Harvest_body options fs fr st = (OnStdin, st')
              /\ FinishChan (hv st') = FinishChan (hv st)
              /\ output (wd st') = output (wd st).
Proof.
  intros Hpath. destruct st as [h w]. cbn [hv wd] in *.
  rewrite Harvest_body_eq. unfold bind at 1, readline, bind at 1, Now.
  cbn [hv wd]. unfold readline_fuel. cbn [readline_loop].
  unfold bind at 1, read, bind at 1, get_w. cbn [hv wd].
  unfold bind at 1, modify_w. cbn [hv wd].
  unfold bind at 1, open, bind at 1, get_h. cbn [hv wd].
  rewrite Hpath. unfold bind, modify_h, ret. cbn [hv wd].
  eexists. split; [reflexivity|]. cbn. auto.
Qed.

(** ** The loop leaves the completion channel alone *)

Lemma Harvest_body_frame options fs fr st o st' :
  Harvest_body options fs fr st = (o, st') ->
  FinishChan (hv st') = FinishChan (hv st).
Proof.
  intros Hrun. destruct (String.eqb (Path (hv st)) "-") eqn:Hpath.
  - destruct (Harvest_body_stdin options fs fr st Hpath) as (s & E & F & _).
    congruence.
  - rewrite Harvest_body_eq in Hrun. unfold bind in Hrun.
    destruct (readline options fs (buffer fr) read_timeout st) as [ro st1] eqn:Hrl.
    destruct st as [h w]. cbn [hv wd] in *.
    destruct (readline_spec options fs _ _ h w ro st1 Hpath Hrl)
      as [(_ & _ & P3 & _) _].
    destruct ro as [[[[text n] err] buf]|msg| |];
      try (inversion Hrun; subst; exact P3).
    destruct st1 as [h1 w1]. cbn [hv] in P3.
    destruct err as [[| |m]|].
    + rewrite Harvest_handle_EOF in Hrun.
      destruct (_ >? _); inversion Hrun; subst; exact P3.
    + rewrite Harvest_handle_truncated in Hrun. inversion Hrun; subst; exact P3.
    + rewrite Harvest_handle_IOError in Hrun. inversion Hrun; subst; exact P3.
    + rewrite Harvest_handle_line in Hrun. inversion Hrun; subst; exact P3.
Qed.

Lemma Harvest_loop_frame options fs fuel :
  forall fr st o st',
    Harvest_loop options fs fuel fr st = (o, st') ->
    FinishChan (hv st') = FinishChan (hv st).
Proof.
  induction fuel as [|fuel IH]; intros fr st o st' Hrun.
  - cbn in Hrun. inversion Hrun; subst. reflexivity.
  - cbn [Harvest_loop] in Hrun. unfold bind in Hrun.
    destruct (Harvest_body options fs fr st) as [ob st2] eqn:Hbody.
    pose proof (Harvest_body_frame options fs fr st ob st2 Hbody) as Hf.
    destruct ob as [[fr2|e]|msg| |]; try (inversion Hrun; subst; exact Hf).
    apply IH in Hrun. congruence.
Qed.

Lemma Harvest_finish options fs fuel st o st' :
  Harvest options fs fuel st = (o, st') ->
  match o with
  | Ret _ | Panic _ =>
      FinishChan (hv st') = FinishChan (hv st) ++ [Offset (hv st')]
  | OnStdin | NoFuel =>
      FinishChan (hv st') = FinishChan (hv st)
  end.
Proof.
  unfold Harvest. intros Hrun.
  set (start := (if IsTracked (hv st)
                 then emit (HarvestPosition (Path (hv st)) (Offset (hv st)))
                 else if tailOnRotate options
                      then emit (HarvestTailing (Path (hv st)))
                      else emit (HarvestStart (Path (hv st))))) in *.
  assert (Hstart : exists w, start st = (Ret tt, mkSt (hv st) w)).
  { unfold start. destruct (IsTracked (hv st)); [|destruct (tailOnRotate options)];
      unfold emit, modify_w; eauto. }
  destruct Hstart as [w Hstart].
  unfold bind at 1 in Hrun. rewrite Hstart in Hrun.
  unfold bind, Now in Hrun. cbn [hv wd] in Hrun.
  destruct (Harvest_loop options fs fuel (mkFrame 0 [] (clock w)) (mkSt (hv st) w))
    as [ol st1] eqn:Hloop.
  apply Harvest_loop_frame in Hloop. cbn [hv] in Hloop.
  destruct ol as [e|msg| |]; inversion Hrun; subst; cbn; congruence.
Qed.


(** ** The position of the first read *)

(** C8: the position of the first read is decided once.  On a named regular
    file, [open] on a tracked harvester seeks to its offset and changes
    neither the offset nor the flag; on an untracked harvester it seeks to
    the end of the file when tailing and to 0 otherwise, stores that position
    as the offset and sets the flag; and whatever the file has become by
    then, the next [open] seeks to the stored offset. *)
Theorem open_decides_position_once options v v2 h w :
  String.eqb (Path h) "-" = false ->
  is_regular v = true ->
  is_regular v2 = true ->
  (IsTracked h = true -> 0 <= Offset h) ->
  exists p h1 w1,
    open options v (mkSt h w) = (Ret (OsFile p), mkSt h1 w1)
    /\ file h1 = Some (OsFile p)
    /\ (IsTracked h = true -> p = Offset h /\ Offset h1 = Offset h)
    /\ (IsTracked h = false -> tailOnRotate options = true ->
        p = len (contents v) /\ Offset h1 = len (contents v))
    /\ (IsTracked h = false -> tailOnRotate options = false ->
        p = 0 /\ Offset h1 = 0)
    /\ IsTracked h1 = true
    /\ forall w', exists h2 w2,
         open options v2 (mkSt h1 w') = (Ret (OsFile (Offset h1)), mkSt h2 w2)
         /\ file h2 = Some (OsFile (Offset h1))
         /\ Offset h2 = Offset h1
         /\ IsTracked h2 = true.
Proof.
  intros Hpath Hreg Hreg2 Hoff.
  exists (entry_pos options v h), (opened options v h),
         (retried (open_failures v) (Path h) w).
  split; [apply open_eq; assumption|].
  split; [reflexivity|].
  unfold opened, entry_offset, entry_pos. cbn [Offset IsTracked].
  split.
  { intros Ht. rewrite Ht. specialize (Hoff Ht).
    destruct (Z.ltb_spec (Offset h) 0); [lia | auto]. }
  split; [intros -> ->; auto|].
  split; [intros -> ->; auto|].
  split; [reflexivity|].
  intros w'. eexists _, _. rewrite open_eq by assumption.
  split.
  { f_equal. f_equal. unfold entry_pos. cbn [IsTracked Offset].
    destruct (IsTracked h) eqn:Ht.
    - specialize (Hoff eq_refl).
      destruct (Z.ltb_spec (Offset h) 0); [lia|].
      destruct (Z.ltb_spec (Offset h) 0); [lia | reflexivity].
    - destruct (tailOnRotate options).
      + pose proof (len_nonneg (contents v)).
        destruct (Z.ltb_spec (len (contents v)) 0); [lia | reflexivity].
      + reflexivity. }
  cbn [opened file Offset IsTracked entry_offset].
  split; [|auto].
  f_equal. f_equal. unfold entry_pos. cbn [IsTracked Offset].
  destruct (IsTracked h) eqn:Ht.
  - specialize (Hoff eq_refl).
    destruct (Z.ltb_spec (Offset h) 0); [lia | reflexivity].
  - destruct (tailOnRotate options).
    + pose proof (len_nonneg (contents v)).
      destruct (Z.ltb_spec (len (contents v)) 0); [lia | reflexivity].
    + reflexivity.
Qed.

(** ** Truncation and the size last seen *)

(** C6, as stated, fails: a read that signals truncation does store the size
    it saw.  The harvester last saw 10 bytes, the file now has 3: the read
    signals truncation and leaves 3 as the size. *)
Lemma read_truncation_updates_size :
  let st := mkSt (resumed_harvester 10 10) sample_world in
  let r := read replay (fun _ => plain_view (sample_bytes "abc")) 0 st in
  fst r = Ret ([], Some FILE_TRUNCATED)
  /\ size (hv st) = 10
  /\ size (hv (snd r)) = 3
  /\ ~ (fst r = Ret ([], Some FILE_TRUNCATED) -> size (hv (snd r)) = size (hv st)).
Proof.
  cbv zeta. split; [reflexivity|]. split; [reflexivity|]. split; [reflexivity|].
  intros H. specialize (H eq_refl). vm_compute in H. discriminate.
Qed.

(** C6, amended: each read of a named regular file compares the size of the
    file as it finds it with the size stored by the read before; when the
    file is smaller it signals truncation with no bytes read, and otherwise
    it returns what the reader returns; in both cases it stores the size and
    the metadata it found, so the size last seen is that of the most recent
    read, truncated or not. *)
Theorem read_compares_and_records_size options fs offset h w :
  String.eqb (Path h) "-" = false ->
  is_regular (fs (reads w)) = true ->
  0 <= offset ->
  let v := fs (reads w) in
  exists segment err st',
    read options fs offset (mkSt h w) = (Ret (segment, err), st')
    /\ (len (contents v) < size h ->
        segment = [] /\ err = Some FILE_TRUNCATED)
    /\ (size h <= len (contents v) ->
        err <> Some FILE_TRUNCATED
        /\ (segment, err)
           = ReadBytes v (OsFile (entry_pos options v h + offset)))
    /\ size (hv st') = len (contents v)
    /\ info (hv st') = Some (Stat v (Path h)).
Proof.
  intros Hpath Hreg Hoff v.
  destruct (chunk options v offset h) as [segment err] eqn:Hchunk.
  exists segment, err. eexists.
  rewrite read_eq by assumption. fold v. rewrite Hchunk.
  split; [reflexivity|]. cbn [hv after_read size info].
  unfold chunk, truncated in Hchunk.
  split; [|split].
  - intros Hlt. destruct (Z.ltb_spec (len (contents v)) (size h)); [|lia].
    inversion Hchunk. auto.
  - intros Hle. destruct (Z.ltb_spec (len (contents v)) (size h)); [lia|].
    split; [|congruence].
    pose proof (ReadBytes_shape _ _ _ _ Hchunk) as S.
    destruct err as [e|]; [|discriminate].
    destruct S as (_ & Hne & _). congruence.
  - auto.
Qed.

Lemma read_compares_and_records_size_witness :
  let fs := fun _ : nat => plain_view (sample_bytes "abc") in
  let h := resumed_harvester 10 10 in
  exists segment err st',
    read replay fs 0 (mkSt h sample_world) = (Ret (segment, err), st')
    /\ (len (contents (fs O)) < size h ->
        segment = [] /\ err = Some FILE_TRUNCATED)
    /\ (size h <= len (contents (fs O)) ->
        err <> Some FILE_TRUNCATED
        /\ (segment, err)
           = ReadBytes (fs O) (OsFile (entry_pos replay (fs O) h + 0)))
    /\ size (hv st') = len (contents (fs O))
    /\ info (hv st') = Some (Stat (fs O) (Path h)).
Proof.
  cbv zeta.
  apply (read_compares_and_records_size replay
           (fun _ : nat => plain_view (sample_bytes "abc")) 0
           (resumed_harvester 10 10) sample_world).
  - reflexivity.
  - reflexivity.
  - lia.
Defined.

Lemma open_decides_position_once_witness :
  let v := plain_view (sample_bytes "abcdef") in
  let v2 := plain_view (sample_bytes "abcdefghi") in
  exists p h1 w1,
    open tailing v (mkSt fresh_harvester sample_world)
    = (Ret (OsFile p), mkSt h1 w1)
    /\ file h1 = Some (OsFile p)
    /\ (IsTracked fresh_harvester = true ->
        p = Offset fresh_harvester /\ Offset h1 = Offset fresh_harvester)
    /\ (IsTracked fresh_harvester = false -> tailOnRotate tailing = true ->
        p = len (contents v) /\ Offset h1 = len (contents v))
    /\ (IsTracked fresh_harvester = false -> tailOnRotate tailing = false ->
        p = 0 /\ Offset h1 = 0)
    /\ IsTracked h1 = true
    /\ forall w', exists h2 w2,
         open tailing v2 (mkSt h1 w') = (Ret (OsFile (Offset h1)), mkSt h2 w2)
         /\ file h2 = Some (OsFile (Offset h1))
         /\ Offset h2 = Offset h1
         /\ IsTracked h2 = true.
Proof.
  cbv zeta.
  apply (open_decides_position_once tailing
           (plain_view (sample_bytes "abcdef"))
           (plain_view (sample_bytes "abcdefghi"))
           fresh_harvester sample_world).
  - reflexivity.
  - reflexivity.
  - reflexivity.
  - cbn. discriminate.
Defined.

(** ** The offset along a run *)

Lemma start_offset_bound options fs B st :
  (forall k, len (contents (fs k)) <= B) ->
  (IsTracked (hv st) = true -> 0 <= Offset (hv st) <= B) ->
  0 <= B ->
  start_offset options fs st <= B.
Proof.
  intros Hsize Hoff HB. unfold start_offset, entry_offset, entry_pos.
  destruct (IsTracked (hv st)); [specialize (Hoff eq_refl); lia|].
  destruct (tailOnRotate options); [apply Hsize | lia].
Qed.

Lemma loop_inv_initial options fs fr st :
  (forall k, len (contents (fs k)) < 2 ^ 63) ->
  String.eqb (Path (hv st)) "-" = false ->
  (IsTracked (hv st) = true -> 0 <= Offset (hv st) < 2 ^ 63) ->
  buffer fr = [] ->
  loop_inv options fs (2 ^ 63 - 1) fr st.
Proof.
  intros Hsize Hpath Hoff Hbuf. unfold loop_inv. rewrite Hbuf.
  change (len (@nil byte)) with 0.
  split; [exact Hpath|]. split; [intros Ht; specialize (Hoff Ht); lia|].
  split; [|cbn; tauto].
  pose proof (start_offset_bound options fs (2 ^ 63 - 1) st) as Hb.
  rewrite Z.add_0_r. apply Hb.
  - intros k. specialize (Hsize k). lia.
  - intros Ht. specialize (Hoff Ht). lia.
  - lia.
Qed.

Lemma sizes_below (fs : nat -> FsView) :
  (forall k, len (contents (fs k)) < 2 ^ 63) ->
  forall k : nat, len (contents (fs k)) <= 2 ^ 63 - 1.
Proof. intros H k. specialize (H k). lia. Qed.

(** C5: at every point of the loop the offset is the offset of the start
    moved by the lines emitted since, each by its bytes with the terminator,
    and set back to 0 by every truncation.  In one more iteration it grows by
    the bytes of the line that is completed, those already buffered
    included, which puts it right after the newline of that line in the
    file as the last read found it; it is 0 after a truncation; and when no
    line is completed it does not move, whatever the iteration has read into
    the buffer. *)
Theorem tracked_offset_invariant options fs fr0 st0 rs fr st :
  (forall k, len (contents (fs k)) < 2 ^ 63) ->
  String.eqb (Path (hv st0)) "-" = false ->
  (IsTracked (hv st0) = true -> 0 <= Offset (hv st0) < 2 ^ 63) ->
  buffer fr0 = [] ->
  iterates options fs fr0 st0 rs fr st ->
  start_offset options fs st = tracked_after (start_offset options fs st0) rs
  /\ 0 <= start_offset options fs st
  /\ (rs <> [] -> Offset (hv st) = start_offset options fs st)
  /\ forall r buf st1 o st2,
       readline options fs (buffer fr) read_timeout st = (Ret (r, buf), st1) ->
       Harvest_body options fs fr st = (o, st2) ->
       match r with
       | (_, n, None) =>
           exists more body rest,
             n = len (buffer fr ++ more ++ body ++ [LF])
             /\ buf = []
             /\ drop (start_offset options fs st + len (buffer fr ++ more))
                     (contents (last_view fs (wd st1)))
                = (body ++ [LF]) ++ rest
             /\ Offset (hv st2) = start_offset options fs st + n
       | (_, _, Some FILE_TRUNCATED) => Offset (hv st2) = 0
       | (_, _, Some _) =>
           exists more,
             buf = buffer fr ++ more
             /\ Offset (hv st2) = start_offset options fs st
       end.
Proof.
  intros Hsize Hpath Hoff Hbuf Hit.
  pose proof (loop_inv_initial options fs fr0 st0 Hsize Hpath Hoff Hbuf) as Hinv0.
  pose proof (sizes_below fs Hsize) as Hsize'.
  destruct (iterates_inv options fs (2 ^ 63 - 1) Hsize' ltac:(lia)
              fr0 st0 rs fr st Hit Hinv0)
    as (Hinv & Hclosed & Htr & _).
  split; [exact Hclosed|].
  split; [apply start_offset_nonneg; apply Hinv|].
  split; [intros Hne; symmetry; apply start_offset_tracked; auto|].
  intros r buf st1 o st2 Hrl Hbody.
  destruct (Harvest_body_step options fs (2 ^ 63 - 1) fr st o st2
              Hsize' ltac:(lia) Hinv Hbody)
    as (ro & st1' & Hrl' & Hpost & Hcase).
  rewrite Hrl in Hrl'. inversion Hrl'; subst ro st1'. clear Hrl'.
  destruct Hcase as (_ & Hoffset & _).
  destruct r as [[text n] err].
  unfold readline_post in Hpost. cbv zeta in Hpost.
  rewrite (entry_pos_start options fs st) in Hpost by apply Hinv.
  destruct Hpost as (_ & _ & _ & _ & _ & _ & _ & _ & _ & _ & _ & Hshape).
  destruct err as [e|].
  - destruct Hshape as (_ & _ & (more & Hmore & _) & _).
    destruct e; cbn [offset_after] in Hoffset; eauto.
  - destruct Hshape
      as (Hb & more & segment & body & -> & _ & _ & _ & Hn & _ & rest & Hfile).
    exists more, body, rest. cbn [offset_after] in Hoffset. auto.
Qed.

(** ** The events *)

Lemma In_firstn {A : Type} (x : A) n l : In x (firstn n l) -> In x l.
Proof.
  intros H. rewrite <- (firstn_skipn n l). apply in_or_app. left. exact H.
Qed.



(** ** Harvest as a run of its loop *)

Lemma Harvest_eq options fs fuel st :
  Harvest options fs fuel st =
  match Harvest_loop options fs fuel (initial_frame st) (announced options st) with
  | (Ret e, st') => (Ret e, push_offset st')
  | (Panic msg, st') => (Panic msg, push_offset st')
  | (OnStdin, st') => (OnStdin, st')
  | (NoFuel, st') => (NoFuel, st')
  end.
Proof.
  unfold Harvest, announced, initial_frame.
  destruct (IsTracked (hv st)); [|destruct (tailOnRotate options)];
    unfold bind, emit, modify_w, Now; cbn [hv wd logged clock]; reflexivity.
Qed.

Lemma start_offset_announced options fs st :
  start_offset options fs (announced options st) = start_offset options fs st.
Proof. reflexivity. Qed.

(** C10: every error return of [readline] carries no text and a count of 0,
    and leaves the offset of a tracked harvester where it was.  So on the
    path that ends in an unexpected read error the loop has run some
    iterations, the [readline] of the last one returned the error, and the
    offset sent on the completion channel is the offset of the start moved
    by the lines emitted in the iterations before, and set back to 0 by the
    truncations among them: the failed read adds nothing to it. *)
Theorem failed_read_keeps_offset options fs fuel st :
  (forall k, len (contents (fs k)) < 2 ^ 63) ->
  String.eqb (Path (hv st)) "-" = false ->
  (IsTracked (hv st) = true -> 0 <= Offset (hv st) < 2 ^ 63) ->
  (forall buffer eof_timeout s text n e buf s',
      String.eqb (Path (hv s)) "-" = false ->
      readline options fs buffer eof_timeout s = (Ret (text, n, Some e, buf), s') ->
      text = None /\ n = 0
      /\ (IsTracked (hv s) = true -> Offset (hv s') = Offset (hv s)))
  /\ (forall st',
         Harvest options fs fuel st = (Ret Aborted, st') ->
         exists rs frk stk e buf st1,
           iterates options fs (initial_frame st) (announced options st)
                    rs frk stk
           /\ readline options fs (buffer frk) read_timeout stk
              = (Ret (None, 0, Some e, buf), st1)
           /\ e <> EOF /\ e <> FILE_TRUNCATED
           /\ Offset (hv st1) = tracked_after (start_offset options fs st) rs
           /\ Offset (hv st') = Offset (hv st1)
           /\ FinishChan (hv st')
              = FinishChan (hv st) ++ [tracked_after (start_offset options fs st) rs]).
Proof.
  intros Hsize Hpath Hoff. split.
  - intros buffer T [h w] text n e buf s' Hp Hrl. cbn [hv] in *.
    destruct (readline_spec options fs buffer T h w _ _ Hp Hrl) as [Hpost _].
    unfold readline_post in Hpost. cbv zeta in Hpost.
    destruct Hpost as (_ & _ & _ & _ & _ & Htr & _ & _ & _ & _ & _ & Ht & Hn & _).
    split; [exact Ht|]. split; [exact Hn|]. intros H. apply Htr. exact H.
  - intros st' Hrun.
    pose proof (Harvest_finish options fs fuel st _ _ Hrun) as Hfin. cbn in Hfin.
    rewrite Harvest_eq in Hrun.
    destruct (Harvest_loop options fs fuel (initial_frame st) (announced options st))
      as [ol sl] eqn:Hloop.
    destruct ol as [e0|msg| |]; try discriminate.
    inversion Hrun; subst e0 st'. clear Hrun.
    pose proof (sizes_below fs Hsize) as Hsize'.
    assert (Hinv0 : loop_inv options fs (2 ^ 63 - 1) (initial_frame st)
                             (announced options st))
      by (apply loop_inv_initial; auto).
    destruct (Harvest_loop_unfold options fs (2 ^ 63 - 1) Hsize' ltac:(lia)
                fuel _ _ _ _ Hinv0 Hloop)
      as [[E _]|(rs & frk & stk & Hit & _ & [(e1 & E & Hbody)|(msg & E & _)])];
      try discriminate.
    inversion E; subst e1. clear E.
    destruct (iterates_inv options fs (2 ^ 63 - 1) Hsize' ltac:(lia)
                _ _ _ _ _ Hit Hinv0) as (Hinv & Hclosed & _).
    rewrite start_offset_announced in Hclosed.
    destruct (Harvest_body_step options fs (2 ^ 63 - 1) frk stk _ _
                Hsize' ltac:(lia) Hinv Hbody)
      as (ro & st1 & Hrl & Hpost & Hcase).
    destruct ro as [[[[text n] err] buf]|msg| |]; try contradiction.
    2:{ destruct Hcase as [E _]. discriminate. }
    destruct Hcase as (Hh & Hoffset & _).
    unfold readline_post in Hpost. cbv zeta in Hpost.
    destruct Hpost as (_ & _ & _ & _ & _ & _ & _ & Q2 & _ & _ & _ & Hshape).
    destruct st1 as [h1 w1].
    destruct err as [[| |m]|].
    + rewrite Harvest_handle_EOF in Hh. destruct (_ >? _); discriminate.
    + rewrite Harvest_handle_truncated in Hh. discriminate.
    + destruct Hshape as (-> & -> & _).
      rewrite Harvest_handle_IOError in Hh. inversion Hh; subst sl.
      cbn [offset_after hv push_offset send_FinishChan Offset] in *.
      exists rs, frk, stk, (IOError m), buf, (mkSt h1 w1).
      split; [exact Hit|]. split; [exact Hrl|].
      split; [discriminate|]. split; [discriminate|].
      cbn [hv]. rewrite <- Hclosed.
      change (entry_offset options (fs (reads (wd stk))) (hv stk))
        with (start_offset options fs stk) in Q2.
      split; [exact Q2|]. split; [reflexivity|].
      rewrite Hfin. rewrite Q2. reflexivity.
    + rewrite Harvest_handle_line in Hh. discriminate.
Qed.

(** ** Waiting at the end of the file *)

Lemma cost_positive v : 1 * Second <= cost v.
Proof. unfold cost, Second. lia. Qed.

Lemma elapsed_nonneg fs m : forall k0, 0 <= elapsed fs k0 m.
Proof.
  induction m as [|m IH]; intros k0; cbn [elapsed]; [lia|].
  pose proof (cost_positive (fs k0)). specialize (IH (S k0)). unfold Second in *. lia.
Qed.

Lemma elapsed_instant fs :
  (forall k, latency (fs k) = 0%N /\ open_failures (fs k) = O) ->
  forall m k0, elapsed fs k0 m = Z.of_nat m * Second.
Proof.
  intros Hinst. induction m as [|m IH]; intros k0; cbn [elapsed]; [lia|].
  rewrite IH. unfold cost. destruct (Hinst k0) as [-> ->]. unfold Second. lia.
Qed.

Lemma quiet_chunk options fs (buffer : bytes) h w :
  (IsTracked h = true -> 0 <= Offset h) ->
  quiet fs (start_offset options fs (mkSt h w) + len buffer) (size h) (reads w) ->
  chunk options (fs (reads w)) (len buffer) h =
  (drop (start_offset options fs (mkSt h w) + len buffer) (contents (fs (reads w))),
   Some EOF).
Proof.
  intros Hoff [Hsz Hq]. destruct (Hq (reads w) (le_n _)) as (_ & Hfault & Hno & _).
  unfold chunk, truncated.
  destruct (Z.ltb_spec (len (contents (fs (reads w)))) (size h)); [lia|].
  pose proof (entry_pos_start options fs (mkSt h w) Hoff) as Hep.
  cbn [hv wd] in Hep. rewrite Hep.
  unfold ReadBytes. cbn [position]. rewrite Hfault.
  rewrite upto_LF_no_LF by exact Hno. reflexivity.
Qed.

Lemma quiet_later fs p q sz sz' k0 :
  quiet fs p sz k0 -> p <= q -> 0 <= p ->
  sz' <= len (contents (fs (S k0))) ->
  quiet fs q sz' (S k0).
Proof.
  intros [Hsz Hq] Hpq Hp Hsz'. split; [exact Hsz'|].
  intros k Hk. destruct (Hq k ltac:(lia)) as (H1 & H2 & H3 & H4).
  repeat split; auto.
  intros Hin. apply H3.
  replace q with (p + (q - p)) in Hin by lia.
  rewrite <- drop_drop in Hin by lia. eapply In_drop. exact Hin.
Qed.

Lemma readline_loop_quiet options fs fuel :
  forall start_time eof_timeout buffer h w o st',
    String.eqb (Path h) "-" = false ->
    (IsTracked h = true -> 0 <= Offset h) ->
    ~ In LF buffer ->
    quiet fs (start_offset options fs (mkSt h w) + len buffer) (size h) (reads w) ->
    readline_loop options fs fuel start_time eof_timeout buffer true 1
                  (mkSt h w) = (o, st') ->
    o = NoFuel
    \/ exists buf m,
        o = Ret (None, 0, Some EOF, buf)
        /\ (0 < m)%nat
        /\ reads (wd st') = (reads w + m)%nat
        /\ clock (wd st') = clock w + elapsed fs (reads w) m
        /\ eof_timeout < clock (wd st') - start_time
        /\ (forall j, (0 < j < m)%nat ->
                      clock w + elapsed fs (reads w) j - start_time <= eof_timeout)
        /\ ~ In LF buf
        /\ IsTracked (hv st') = true
        /\ Offset (hv st') = start_offset options fs (mkSt h w)
        /\ quiet fs (Offset (hv st') + len buf) (size (hv st')) (reads (wd st')).
Proof.
  induction fuel as [|fuel IH];
    intros start_time T buffer h w o st' Hpath Hoff Hbuf Hq Hrun.
  - cbn in Hrun. inversion Hrun. auto.
  - pose proof Hq as [Hsz Hq'].
    destruct (Hq' (reads w) (le_n _)) as (Hreg & Hfault & Hno & Hgrow).
    rewrite readline_loop_step in Hrun by assumption. cbv zeta in Hrun.
    rewrite (quiet_chunk options fs buffer h w Hoff Hq) in Hrun.
    cbn [fst snd] in Hrun.
    set (v := fs (reads w)) in *.
    set (p := start_offset options fs (mkSt h w) + len buffer) in *.
    rewrite absorb_partial in Hrun by exact Hno.
    cbn [error_eqb andb] in Hrun.
    assert (Hreads : forall d, reads (advance d (world_after_read v (Path h) w))
                               = S (reads w))
      by (intros d; cbn [advance reads]; apply world_after_read_reads).
    assert (Hclock : forall d, clock (advance d (world_after_read v (Path h) w))
                               = clock w + cost v - 1 * Second + d).
    { intros d. cbn [advance clock]. rewrite world_after_read_clock.
      unfold cost. lia. }
    assert (Hno' : ~ In LF (buffer ++ drop p (contents v)))
      by (intros Hin; apply in_app_or in Hin; tauto).
    pose proof (start_offset_nonneg options fs (mkSt h w) Hoff) as Hso.
    assert (Hq2 : quiet fs (start_offset options fs (mkSt h w)
                            + len (buffer ++ drop p (contents v)))
                        (len (contents v)) (S (reads w))).
    { apply (quiet_later fs p _ (size h) _ (reads w) Hq).
      - rewrite len_app. pose proof (len_nonneg (drop p (contents v))).
        subst p. lia.
      - pose proof (len_nonneg buffer). subst p. lia.
      - exact Hgrow. }
    rewrite Hclock in Hrun.
    destruct (Z.gtb_spec (clock w + cost v - 1 * Second + 1 * Second - start_time) T)
      as [Hout|Hin].
    + inversion Hrun; subst o st'. right.
      exists (buffer ++ drop p (contents v)), 1%nat.
      cbn [hv wd after_read IsTracked Offset size].
      rewrite Hreads, Hclock. cbn [elapsed]. fold v.
      split; [reflexivity|]. split; [lia|]. split; [lia|].
      split; [unfold Second; lia|].
      split; [unfold Second in *; lia|]. split; [intros j Hj; lia|].
      split; [exact Hno'|].
      split; [reflexivity|]. split; [reflexivity|].
      replace (reads w + 1)%nat with (S (reads w)) by lia. exact Hq2.
    + apply IH in Hrun; auto.
      * destruct Hrun as [->|(buf & m & -> & Hm & Hr & Hc & Ht & Hj & Hb & Htr & Ho & Hq3)];
          [auto|]. right.
        cbn [hv wd] in Hr, Hc, Hj, Ho.
        rewrite Hreads in Hr, Hc, Hj. rewrite Hclock in Hc, Hj.
        exists buf, (S m). cbn [elapsed]. fold v.
        split; [reflexivity|]. split; [lia|]. split; [lia|].
        split; [unfold Second in *; lia|].
        split; [exact Ht|].
        split.
        { intros j Hjm. destruct j as [|j]; [lia|]. cbn [elapsed]. fold v.
          destruct j as [|j].
          - cbn [elapsed]. unfold Second in *. lia.
          - specialize (Hj (S j) ltac:(lia)). unfold Second in *. lia. }
        split; [exact Hb|]. split; [exact Htr|].
        split; [exact Ho|]. exact Hq3.
      * cbn [hv wd after_read IsTracked Offset size].
        rewrite Hreads. exact Hq2.
Qed.

(** One iteration of the loop at the end of a quiet file. *)
Lemma Harvest_body_quiet options fs fr st :
  String.eqb (Path (hv st)) "-" = false ->
  (IsTracked (hv st) = true -> 0 <= Offset (hv st)) ->
  ~ In LF (buffer fr) ->
  quiet fs (start_offset options fs st + len (buffer fr))
        (size (hv st)) (reads (wd st)) ->
  exists buf st1 m,
    readline options fs (buffer fr) read_timeout st
    = (Ret (None, 0, Some EOF, buf), st1)
    /\ (0 < m)%nat
    /\ reads (wd st1) = (reads (wd st) + m)%nat
    /\ clock (wd st1) = clock (wd st) + elapsed fs (reads (wd st)) m
    /\ 10 * Second < elapsed fs (reads (wd st)) m
    /\ (forall j, (0 < j < m)%nat ->
                  elapsed fs (reads (wd st)) j <= 10 * Second)
    /\ Offset (hv st1) = start_offset options fs st
    /\ Harvest_body options fs fr st
       = (if clock (wd st1) - last_read_time fr
             >? Cfg.deadtime (FileConfig (hv st1))
          then (Ret (Return Dead),
                mkSt (hv st1)
                     (logged (NoticeStopping (Path (hv st1))
                                             (clock (wd st1) - last_read_time fr))
                             (wd st1)))
          else (Ret (Continue (mkFrame (line fr) buf (last_read_time fr))), st1))
    /\ ~ In LF buf
    /\ IsTracked (hv st1) = true
    /\ quiet fs (Offset (hv st1) + len buf) (size (hv st1)) (reads (wd st1))
    /\ Path (hv st1) = Path (hv st)
    /\ FileConfig (hv st1) = FileConfig (hv st)
    /\ FinishChan (hv st1) = FinishChan (hv st)
    /\ output (wd st1) = output (wd st).
Proof.
  intros Hpath Hoff Hbuf Hq. destruct st as [h w]. cbn [hv wd] in *.
  destruct (readline options fs (buffer fr) read_timeout (mkSt h w))
    as [o st1] eqn:Hrl.
  destruct (readline_spec options fs _ _ h w o st1 Hpath Hrl)
    as [(P1 & P2 & P3 & P4 & _) Hfuel].
  pose proof Hrl as Hrun. unfold readline, bind, Now in Hrun. cbn [hv wd] in Hrun.
  destruct (readline_loop_quiet options fs _ _ _ _ h w o st1 Hpath Hoff Hbuf Hq Hrun)
    as [->|(buf & m & -> & Hm & Hr & Hc & Ht & Hj & Hb & Htr & Ho & Hq3)];
    [congruence|].
  exists buf, st1, m.
  split; [reflexivity|]. split; [exact Hm|]. split; [exact Hr|].
  split; [exact Hc|].
  split; [unfold read_timeout in Ht; lia|].
  split; [intros j Hjm; specialize (Hj j Hjm); unfold read_timeout in Hj; lia|].
  split; [exact Ho|].
  split.
  { rewrite Harvest_body_eq. unfold bind. rewrite Hrl.
    destruct st1 as [h1 w1]. apply Harvest_handle_EOF. }
  auto 10.
Qed.

(** ** A file that does not change *)

Lemma chomp_strip body : chomp (body ++ [LF]) = strip_terminator (body ++ [LF]).
Proof.
  unfold strip_terminator. rewrite rev_app_distr. cbn [rev app].
  destruct (rev body) as [|c rbody] eqn:Hrev.
  - apply (f_equal (@rev byte)) in Hrev. rewrite rev_involutive in Hrev.
    subst body. vm_compute. reflexivity.
  - apply (f_equal (@rev byte)) in Hrev. rewrite rev_involutive in Hrev.
    cbn [rev] in Hrev. subst body.
    replace (Byte.eqb LF LF) with true by reflexivity. cbn [andb].
    unfold chomp, terminator_length.
    assert (Hlen : len ((rev rbody ++ [c]) ++ [LF]) = len (rev rbody) + 2)
      by (len_norm; lia).
    rewrite Hlen. pose proof (len_nonneg (rev rbody)) as Hn.
    destruct (Z.ltb_spec 1 (len (rev rbody) + 2)); [|lia]. cbn [andb].
    replace (len (rev rbody) + 2 - 2) with (len (rev rbody)) by lia.
    rewrite <- app_assoc. rewrite byte_at_app_right by lia.
    replace (len (rev rbody) - len (rev rbody)) with 0 by lia.
    change (byte_at ([c] ++ [LF]) 0) with c.
    destruct (Byte.eqb c CR).
    + replace (len (rev rbody) + 2 - 2) with (len (rev rbody)) by lia.
      apply firstn_len_app.
    + replace (len (rev rbody) + 2 - 1) with (len (rev rbody ++ [c])) by (len_norm; lia).
      rewrite app_assoc. apply firstn_len_app.
Qed.

Lemma static_chunk_line options fs pre body rest h w :
  static fs (pre ++ (body ++ [LF]) ++ rest) ->
  ~ In LF body ->
  (IsTracked h = true -> 0 <= Offset h) ->
  start_offset options fs (mkSt h w) = len pre ->
  size h <= len (pre ++ (body ++ [LF]) ++ rest) ->
  chunk options (fs (reads w)) 0 h = (body ++ [LF], None).
Proof.
  intros Hst Hbody Hoff Hso Hsz. destruct (Hst (reads w)) as (Hc & Hr & Hf).
  unfold chunk, truncated. rewrite Hc.
  destruct (Z.ltb_spec (len (pre ++ (body ++ [LF]) ++ rest)) (size h)); [lia|].
  pose proof (entry_pos_start options fs (mkSt h w) Hoff) as Hep.
  cbn [hv wd] in Hep. rewrite Hep, Hso.
  unfold ReadBytes. cbn [position]. rewrite Hf, Hc.
  rewrite drop_app_plus by lia. rewrite drop_nonpos by lia.
  rewrite <- app_assoc. cbn [app]. rewrite upto_LF_line by exact Hbody.
  reflexivity.
Qed.

(** [readline] on an empty buffer when the next chunk is a whole line. *)
Lemma readline_line options fs eof_timeout h w body :
  String.eqb (Path h) "-" = false ->
  is_regular (fs (reads w)) = true ->
  chunk options (fs (reads w)) 0 h = (body ++ [LF], None) ->
  readline options fs [] eof_timeout (mkSt h w) =
  (Ret (Some (chomp (body ++ [LF])), len (body ++ [LF]), None, []),
   mkSt (after_read options (fs (reads w)) 0 h)
        (world_after_read (fs (reads w)) (Path h) w)).
Proof.
  intros Hpath Hreg Hchunk. unfold readline, bind, Now, readline_fuel.
  cbn [hv wd]. rewrite readline_loop_step by assumption. cbv zeta.
  change (len (@nil byte)) with 0. rewrite Hchunk. cbn [fst snd].
  rewrite absorb_line. cbn [negb app].
  replace (1 + terminator_length (body ++ [LF]) - 1)
    with (terminator_length (body ++ [LF])) by lia.
  pose proof (terminator_length_le body).
  destruct (Z.ltb_spec (len (body ++ [LF]) - terminator_length (body ++ [LF])) 0);
    [lia|].
  reflexivity.
Qed.

Lemma Harvest_loop_iterates options fs fr st rs fr' st' :
  iterates options fs fr st rs fr' st' ->
  forall fuel,
    Harvest_loop options fs (List.length rs + fuel) fr st
    = Harvest_loop options fs fuel fr' st'.
Proof.
  intros Hit. induction Hit as [fr st|fr st r buf st1 fr2 st2 rs fr3 st3 _ Hbody _ IH];
    intros fuel; [reflexivity|].
  cbn [List.length Nat.add Harvest_loop]. unfold bind at 1. rewrite Hbody.
  apply IH.
Qed.

(** The loop on a file that holds the lines [bodies] from the position of
    the harvester on: one iteration and one event for each. *)
Lemma static_lines options fs data :
  static fs data ->
  len data < 2 ^ 63 ->
  forall bodies pre rest fr st,
    data = pre ++ terminated bodies ++ rest ->
    Forall (fun b => ~ In LF b) bodies ->
    String.eqb (Path (hv st)) "-" = false ->
    (IsTracked (hv st) = true -> 0 <= Offset (hv st)) ->
    start_offset options fs st = len pre ->
    size (hv st) <= len data ->
    buffer fr = [] ->
    exists rs fr' st' evs,
      iterates options fs fr st rs fr' st'
      /\ List.length rs = List.length bodies
      /\ output (wd st') = output (wd st) ++ evs
      /\ map Event.Text evs = map (fun b => Some (chomp (b ++ [LF]))) bodies
      /\ buffer fr' = []
      /\ String.eqb (Path (hv st')) "-" = false
      /\ (IsTracked (hv st') = true -> 0 <= Offset (hv st'))
      /\ start_offset options fs st' = len pre + len (terminated bodies)
      /\ size (hv st') <= len data
      /\ FileConfig (hv st') = FileConfig (hv st)
      /\ (last_read_time fr = clock (wd st) ->
          last_read_time fr' = clock (wd st')).
Proof.
  intros Hst Hsmall.
  induction bodies as [|b bodies IH];
    intros pre rest fr st Hdata Hno Hpath Hoff Hso Hsz Hbuf.
  - exists [], fr, st, []. cbn [terminated map List.concat].
    change (len (@nil byte)) with 0. rewrite app_nil_r, Z.add_0_r.
    repeat split; auto. constructor.
  - inversion Hno as [|b' bs' Hb Hbs]; subst b' bs'.
    destruct st as [h w]. cbn [hv wd] in *.
    assert (Hdata' : data = pre ++ (b ++ [LF]) ++ (terminated bodies ++ rest)).
    { rewrite Hdata. unfold terminated. cbn [map List.concat].
      rewrite <- !app_assoc. reflexivity. }
    destruct (Hst (reads w)) as (Hc & Hreg & Hfault).
    assert (Hchunk : chunk options (fs (reads w)) 0 h = (b ++ [LF], None)).
    { apply static_chunk_line with (pre := pre) (rest := terminated bodies ++ rest);
        try assumption; rewrite <- Hdata'; assumption. }
    pose proof (readline_line options fs read_timeout h w b Hpath Hreg Hchunk) as Hrl.
    set (h1 := after_read options (fs (reads w)) 0 h) in *.
    set (w1 := world_after_read (fs (reads w)) (Path h) w) in *.
    assert (Hlen : len pre + len (b ++ [LF]) <= len data).
    { rewrite Hdata'. rewrite !len_app.
      pose proof (len_nonneg (terminated bodies)). pose proof (len_nonneg rest). lia. }
    pose proof (len_nonneg pre) as Hpre. pose proof (len_nonneg (b ++ [LF])) as Hbl.
    assert (Ho1 : Offset h1 = len pre) by exact Hso.
    set (fr2 := mkFrame (wrapu64 (line fr + 1)) [] (clock w1)).
    set (ev := event_of fr (Some (chomp (b ++ [LF]))) h1).
    set (st2 := mkSt (set_Offset (len pre + len (b ++ [LF])) h1) (shipped ev w1)).
    assert (Hbody : Harvest_body options fs fr (mkSt h w) = (Ret (Continue fr2), st2)).
    { rewrite Harvest_body_eq. unfold bind. rewrite Hbuf, Hrl.
      rewrite Harvest_handle_line. rewrite Ho1, wrap64_small by lia. reflexivity. }
    destruct (IH (pre ++ b ++ [LF]) rest fr2 st2)
      as (rs & fr' & st' & evs & Hit & Hn & Hout & Htext & Hb' & Hp' & Ho' & Hso'
          & Hsz' & Hcfg & Hlrt).
    + rewrite Hdata'. rewrite <- !app_assoc. reflexivity.
    + exact Hbs.
    + exact Hpath.
    + intros _. cbn. lia.
    + rewrite start_offset_tracked by reflexivity.
      unfold st2. cbn [hv set_Offset Offset]. rewrite (len_app pre). reflexivity.
    + unfold st2, h1. cbn [hv set_Offset after_read size]. rewrite Hc. lia.
    + reflexivity.
    + exists ((Some (chomp (b ++ [LF])), len (b ++ [LF]), None) :: rs), fr', st',
        (ev :: evs).
      split.
      { econstructor; [rewrite Hbuf; exact Hrl | exact Hbody | exact Hit]. }
      split; [cbn; lia|].
      split.
      { rewrite Hout. unfold st2. cbn [wd shipped output]. unfold w1.
        rewrite world_after_read_output. rewrite <- app_assoc. reflexivity. }
      split; [cbn [map]; rewrite Htext; reflexivity|].
      split; [exact Hb'|]. split; [exact Hp'|]. split; [exact Ho'|].
      split.
      { rewrite Hso'. unfold terminated. cbn [map List.concat].
        rewrite !len_app. lia. }
      split; [exact Hsz'|]. split; [exact Hcfg|].
      intros _. apply Hlrt. reflexivity.
Qed.

(** The loop at the end of a quiet file: it sends nothing, keeps the offset,
    and returns once the dead time is over, which takes at most one
    iteration for every 10 seconds of it. *)
Lemma idle_loop options fs fuel :
  forall fr st,
    String.eqb (Path (hv st)) "-" = false ->
    (IsTracked (hv st) = true -> 0 <= Offset (hv st)) ->
    ~ In LF (buffer fr) ->
    quiet fs (start_offset options fs st + len (buffer fr))
          (size (hv st)) (reads (wd st)) ->
    exists o st',
      Harvest_loop options fs fuel fr st = (o, st')
      /\ output (wd st') = output (wd st)
      /\ (o = NoFuel \/ o = Ret Dead)
      /\ ((0 < fuel)%nat -> Offset (hv st') = start_offset options fs st)
      /\ ((0 < fuel)%nat ->
          Cfg.deadtime (FileConfig (hv st)) - (clock (wd st) - last_read_time fr)
          < Z.of_nat fuel * (10 * Second) ->
          o = Ret Dead).
Proof.
  induction fuel as [|fuel IH]; intros fr st Hpath Hoff Hbuf Hq.
  - exists NoFuel, st. cbn [Harvest_loop]. repeat split; auto; lia.
  - destruct (Harvest_body_quiet options fs fr st Hpath Hoff Hbuf Hq)
      as (buf & st1 & m & _ & _ & _ & Hc & Hlong & _ & Ho & Hbody & Hb & Htr & Hq1
          & Hp & Hcfg & _ & Hout).
    cbn [Harvest_loop]. unfold bind at 1. rewrite Hbody.
    destruct (Z.gtb_spec (clock (wd st1) - last_read_time fr)
                         (Cfg.deadtime (FileConfig (hv st1)))) as [Hdead|Halive].
    + eexists _, _. split; [reflexivity|]. cbn [hv wd logged output].
      repeat split; auto.
    + destruct (IH (mkFrame (line fr) buf (last_read_time fr)) st1)
        as (o & st' & Hloop & Hout' & Hcase & Hoff' & Hdead').
      * rewrite Hp. exact Hpath.
      * intros _. rewrite Ho. apply start_offset_nonneg. exact Hoff.
      * exact Hb.
      * rewrite start_offset_tracked by exact Htr. exact Hq1.
      * exists o, st'. split; [exact Hloop|].
        split; [congruence|]. split; [exact Hcase|].
        split.
        { intros _. destruct fuel as [|fuel].
          - cbn in Hloop. inversion Hloop; subst. exact Ho.
          - rewrite Hoff' by lia. rewrite start_offset_tracked by exact Htr.
            exact Ho. }
        intros _ Hbudget. cbn [last_read_time] in Hdead'.
        rewrite Hcfg in Halive, Hdead'.
        apply Hdead'; unfold Second in *; lia.
Qed.

(** C1: a fresh harvester that reads from the start, on a file that stays
    as it is and holds [n] newline-terminated lines and then a partial line.
    Whatever the number of iterations, the texts of the events sent are the
    first lines of the file in order, each without its terminator, so the
    partial line is never among them; and once the iterations are enough for
    the lines and the dead time, Harvest has returned at the dead time with
    exactly the [n] events sent and the offset at the end of the last
    terminated line. *)
Theorem line_integrity options fs st bodies partial :
  tailOnRotate options = false ->
  IsTracked (hv st) = false ->
  size (hv st) = 0 ->
  String.eqb (Path (hv st)) "-" = false ->
  static fs (terminated bodies ++ partial) ->
  Forall (fun b => ~ In LF b) bodies ->
  ~ In LF partial ->
  len (terminated bodies ++ partial) < 2 ^ 63 ->
  let expected := map (fun b => Some (strip_terminator (b ++ [LF]))) bodies in
  (forall fuel, exists evs,
      output (wd (snd (Harvest options fs fuel st))) = output (wd st) ++ evs
      /\ map Event.Text evs = firstn fuel expected)
  /\ (exists fuel0, forall fuel, (fuel0 <= fuel)%nat ->
        exists st' evs,
          Harvest options fs fuel st = (Ret Dead, st')
          /\ output (wd st') = output (wd st) ++ evs
          /\ List.length evs = List.length bodies
          /\ map Event.Text evs = expected
          /\ Offset (hv st') = len (terminated bodies)
          /\ FinishChan (hv st')
             = FinishChan (hv st) ++ [len (terminated bodies)]).
Proof.
  intros Htail Hfresh Hsize Hpath Hst Hno Hpart Hsmall expected.
  set (data := terminated bodies ++ partial) in *.
  set (st0 := announced options st).
  set (fr0 := initial_frame st).
  assert (Hexp : expected = map (fun b => Some (chomp (b ++ [LF]))) bodies).
  { unfold expected. apply map_ext. intros b. now rewrite chomp_strip. }
  assert (Hpath0 : String.eqb (Path (hv st0)) "-" = false) by exact Hpath.
  assert (Hoff0 : IsTracked (hv st0) = true -> 0 <= Offset (hv st0))
    by (cbn [st0 announced hv]; rewrite Hfresh; discriminate).
  assert (Hso0 : start_offset options fs st0 = len (@nil byte)).
  { unfold start_offset, entry_offset, entry_pos. cbn [st0 announced hv wd].
    rewrite Hfresh, Htail. reflexivity. }
  assert (Hsz0 : size (hv st0) <= len data)
    by (cbn [st0 announced hv]; rewrite Hsize; apply len_nonneg).
  (* the lines, then the wait *)
  assert (Hphase : forall n fuel,
             (n <= List.length bodies)%nat ->
             exists fr' st' evs,
               Harvest_loop options fs (n + fuel) fr0 st0
               = Harvest_loop options fs fuel fr' st'
               /\ output (wd st') = output (wd st) ++ evs
               /\ map Event.Text evs = firstn n expected
               /\ buffer fr' = []
               /\ String.eqb (Path (hv st')) "-" = false
               /\ (IsTracked (hv st') = true -> 0 <= Offset (hv st'))
               /\ start_offset options fs st'
                  = len (terminated (firstn n bodies))
               /\ size (hv st') <= len data
               /\ FileConfig (hv st') = FileConfig (hv st)
               /\ last_read_time fr' = clock (wd st')).
  { intros n fuel Hn.
    destruct (static_lines options fs data Hst Hsmall (firstn n bodies) []
                (terminated (skipn n bodies) ++ partial) fr0 st0)
      as (rs & fr' & st' & evs & Hit & Hlen & Hout & Htext & Hb & Hp & Ho & Hso
          & Hsz & Hcfg & Hlrt); auto.
    - unfold data, terminated. cbn [app]. rewrite app_assoc.
      rewrite <- concat_app, <- map_app, firstn_skipn. reflexivity.
    - apply Forall_forall. intros b Hb. rewrite Forall_forall in Hno.
      apply Hno. eapply In_firstn. exact Hb.
    - exists fr', st', evs.
      rewrite <- (Harvest_loop_iterates options fs _ _ _ _ _ Hit).
      rewrite Hlen, length_firstn, Nat.min_l by exact Hn.
      split; [reflexivity|]. split; [exact Hout|].
      split; [rewrite Htext, Hexp, firstn_map; reflexivity|].
      split; [exact Hb|]. split; [exact Hp|]. split; [exact Ho|].
      split; [rewrite Hso; reflexivity|].
      split; [exact Hsz|]. split; [exact Hcfg|].
      apply Hlrt. reflexivity. }
  assert (Hidle : forall fuel,
             exists evs o st'',
               Harvest_loop options fs (List.length bodies + fuel) fr0 st0 = (o, st'')
               /\ output (wd st'') = output (wd st) ++ evs
               /\ map Event.Text evs = expected
               /\ (o = NoFuel \/ o = Ret Dead)
               /\ ((0 < fuel)%nat -> Offset (hv st'') = len (terminated bodies))
               /\ ((0 < fuel)%nat ->
                   Cfg.deadtime (FileConfig (hv st))
                   < Z.of_nat fuel * (10 * Second) -> o = Ret Dead)).
  { intros fuel.
    destruct (Hphase (List.length bodies) fuel (le_n _))
      as (fr' & st' & evs & Hloop & Hout & Htext & Hb & Hp & Ho & Hso & Hsz
          & Hcfg & Hlrt).
    rewrite firstn_all in Hso.
    rewrite firstn_all2 in Htext
      by (unfold expected; rewrite length_map; apply Nat.le_refl).
    assert (Hq : quiet fs (start_offset options fs st' + len (buffer fr'))
                       (size (hv st')) (reads (wd st'))).
    { rewrite Hso, Hb. change (len (@nil byte)) with 0. rewrite Z.add_0_r.
      split.
      - destruct (Hst (reads (wd st'))) as (-> & _). exact Hsz.
      - intros k _. destruct (Hst k) as (Hc & Hr & Hf).
        destruct (Hst (S k)) as (Hc' & _). rewrite Hc, Hc'.
        repeat split; auto; try lia.
        unfold data. rewrite <- (Z.add_0_r (len (terminated bodies))).
        rewrite drop_app_plus by lia. rewrite drop_nonpos by lia. exact Hpart. }
    destruct (idle_loop options fs fuel fr' st' Hp Ho
                ltac:(rewrite Hb; cbn; tauto) Hq)
      as (o & st'' & Hrun & Hout' & Hcase & Hoff' & Hdead).
    exists evs, o, st''.
    split; [congruence|]. split; [congruence|]. split; [exact Htext|].
    split; [exact Hcase|].
    split; [intros Hf; rewrite Hoff' by exact Hf; exact Hso|].
    intros Hf Hbudget. apply Hdead; [exact Hf|].
    rewrite Hcfg, Hlrt. lia. }
  split.
  - intros fuel. rewrite Harvest_eq. fold st0 fr0.
    destruct (Nat.le_gt_cases (List.length bodies) fuel) as [Hge|Hlt].
    + destruct (Hidle (fuel - List.length bodies)%nat)
        as (evs & o & st'' & Hrun & Hout & Htext & Hcase & _).
      replace (List.length bodies + (fuel - List.length bodies))%nat with fuel
        in Hrun by lia.
      rewrite Hrun. exists evs.
      split; [destruct Hcase as [-> | ->]; exact Hout|].
      rewrite Htext. symmetry. apply firstn_all2.
      unfold expected. rewrite length_map. exact Hge.
    + destruct (Hphase fuel O ltac:(lia))
        as (fr' & st' & evs & Hloop & Hout & Htext & _).
      rewrite Nat.add_0_r in Hloop. rewrite Hloop. cbn [Harvest_loop snd].
      exists evs. auto.
  - exists (List.length bodies
            + S (Z.to_nat (Cfg.deadtime (FileConfig (hv st)) / (10 * Second))))%nat.
    intros fuel Hfuel.
    destruct (Hidle (fuel - List.length bodies)%nat)
      as (evs & o & st'' & Hrun & Hout & Htext & Hcase & Hoff & Hdead).
    replace (List.length bodies + (fuel - List.length bodies))%nat with fuel
      in Hrun by lia.
    assert (Ho : o = Ret Dead).
    { apply Hdead; [lia|].
      set (D := Cfg.deadtime (FileConfig (hv st))) in *.
      destruct (Z.le_gt_cases 0 D) as [Hpos|Hneg]; [|unfold Second; lia].
      pose proof (Z.mod_pos_bound D (10 * Second) ltac:(unfold Second; lia)) as Hm.
      pose proof (Z.div_mod D (10 * Second) ltac:(unfold Second; lia)) as Hd.
      assert (0 <= D / (10 * Second)) by (apply Z.div_pos; unfold Second; lia).
      assert (D / (10 * Second) + 1 <= Z.of_nat (fuel - List.length bodies)) by lia.
      nia. }
    subst o.
    rewrite Harvest_eq. fold st0 fr0. rewrite Hrun.
    exists (push_offset st''), evs.
    split; [reflexivity|]. cbn [push_offset hv wd send_FinishChan Offset].
    split; [exact Hout|].
    split.
    { apply (f_equal (@List.length _)) in Htext.
      unfold expected in Htext. rewrite !length_map in Htext. exact Htext. }
    split; [exact Htext|].
    rewrite Hoff by lia. split; [reflexivity|].
    pose proof (Harvest_loop_frame options fs fuel fr0 st0 _ _ Hrun) as Hf.
    cbn [send_FinishChan FinishChan]. rewrite Hf. reflexivity.
Qed.

(** ** Runs on sample files *)

(** The three ways out of Harvest, each with one value on the channel. *)
Example Harvest_dead_run :
  let r := Harvest replay (fun _ => plain_view sample_file) 10 sample_state in
  fst r = Ret Dead /\ FinishChan (hv (snd r)) = [9].
Proof. vm_compute. auto. Qed.

Example Harvest_aborted_run :
  let r := Harvest replay faulty 10 sample_state in
  fst r = Ret Aborted /\ FinishChan (hv (snd r)) = [3].
Proof. vm_compute. auto. Qed.

Example Harvest_panicked_run :
  let r := Harvest replay replaced 10 sample_state in
  fst r = Panic (Errorf "Harvester: not a regular file:%q"
                        ["drwxr-xr-x"; "messages"])
  /\ FinishChan (hv (snd r)) = [3].
Proof. vm_compute. auto. Qed.

(** C4 at the input on which the code misses it: the file shows "abc\r" at
    the first read and "abc\r\n" at the second.  The newline comes in a
    segment of its own, the check for the carriage return looks at that
    segment only, and the text keeps the carriage return, while the same
    line read in one chunk loses it. *)
Lemma readline_keeps_CR_of_earlier_chunk :
  fst (readline replay grown [] read_timeout sample_state)
  = Ret (Some (sample_bytes "abc" ++ [CR]), 5, None, [])
  /\ fst (readline replay (fun _ => plain_view (sample_bytes "abc" ++ [CR; LF]))
                   [] read_timeout sample_state)
     = Ret (Some (sample_bytes "abc"), 5, None, [])
  /\ strip_terminator (sample_bytes "abc" ++ [CR; LF]) = sample_bytes "abc".
Proof. vm_compute. auto. Qed.

(** C3 at the input on which the code misses it: "abc" is buffered when the
    file is cut to "hi" and then grows to "hi there\n".  The truncation sets
    the offset to 0 and leaves "abc" in the buffer; the next read starts 3
    bytes into the new file, and the one event sent has the text
    "abcthere". *)
Lemma truncation_keeps_buffered_bytes :
  let r := Harvest replay rewritten 10 sample_state in
  fst r = Ret Dead
  /\ map Event.Text (output (wd (snd r))) = [Some (sample_bytes "abcthere")]
  /\ In (NoticeTruncated "/var/log/messages") (log (wd (snd r)))
  /\ (let b := Harvest_body replay rewritten
                            (mkFrame 0 (sample_bytes "abc") 0)
                            (mkSt (resumed_harvester 0 3) (mkWorld 0 1 [] [])) in
      fst b = Ret (Continue (mkFrame 0 (sample_bytes "abc") 0))
      /\ Offset (hv (snd b)) = 0).
Proof. vm_compute. intuition. Qed.

(** ** The theorems at the sample inputs *)

Lemma sample_file_static : static (fun _ => plain_view sample_file) sample_file.
Proof. intros k. repeat split; reflexivity. Qed.

Lemma sample_file_small k :
  len (contents ((fun _ : nat => plain_view sample_file) k)) < 2 ^ 63.
Proof. vm_compute. reflexivity. Qed.

Lemma line_integrity_witness :
  let expected :=
    map (fun b => Some (strip_terminator (b ++ [LF]))) sample_lines in
  (forall fuel, exists evs,
      output (wd (snd (Harvest replay (fun _ => plain_view sample_file)
                               fuel sample_state)))
      = output (wd sample_state) ++ evs
      /\ map Event.Text evs = firstn fuel expected)
  /\ (exists fuel0, forall fuel, (fuel0 <= fuel)%nat ->
        exists st' evs,
          Harvest replay (fun _ => plain_view sample_file) fuel sample_state
          = (Ret Dead, st')
          /\ output (wd st') = output (wd sample_state) ++ evs
          /\ List.length evs = List.length sample_lines
          /\ map Event.Text evs = expected
          /\ Offset (hv st') = len (terminated sample_lines)
          /\ FinishChan (hv st')
             = FinishChan (hv sample_state) ++ [len (terminated sample_lines)]).
Proof.
  apply (line_integrity replay (fun _ => plain_view sample_file) sample_state
                        sample_lines sample_partial).
  - reflexivity.
  - reflexivity.
  - reflexivity.
  - reflexivity.
  - exact sample_file_static.
  - repeat constructor; cbn; intuition discriminate.
  - cbn; intuition discriminate.
  - vm_compute. reflexivity.
Defined.

Lemma tracked_offset_invariant_witness :
  let fs := fun _ : nat => plain_view sample_file in
  let fr0 := initial_frame sample_state in
  let rs := [(Some (sample_bytes "ab"), 4, None)] in
  let fr := mkFrame 1 [] 0 in
  let st := snd (Harvest_body replay fs fr0 sample_state) in
  start_offset replay fs st = tracked_after (start_offset replay fs sample_state) rs
  /\ 0 <= start_offset replay fs st
  /\ (rs <> [] -> Offset (hv st) = start_offset replay fs st)
  /\ forall r buf st1 o st2,
       readline replay fs (buffer fr) read_timeout st = (Ret (r, buf), st1) ->
       Harvest_body replay fs fr st = (o, st2) ->
       match r with
       | (_, n, None) =>
           exists more body rest,
             n = len (buffer fr ++ more ++ body ++ [LF])
             /\ buf = []
             /\ drop (start_offset replay fs st + len (buffer fr ++ more))
                     (contents (last_view fs (wd st1)))
                = (body ++ [LF]) ++ rest
             /\ Offset (hv st2) = start_offset replay fs st + n
       | (_, _, Some FILE_TRUNCATED) => Offset (hv st2) = 0
       | (_, _, Some _) =>
           exists more,
             buf = buffer fr ++ more
             /\ Offset (hv st2) = start_offset replay fs st
       end.
Proof.
  cbv zeta.
  apply (tracked_offset_invariant replay (fun _ : nat => plain_view sample_file)
           (initial_frame sample_state) sample_state
           [(Some (sample_bytes "ab"), 4, None)]).
  - exact sample_file_small.
  - reflexivity.
  - cbn. discriminate.
  - reflexivity.
  - eapply iterates_cons.
    + vm_compute. reflexivity.
    + vm_compute. reflexivity.
    + apply iterates_nil.
Defined.

Lemma faulty_small k : len (contents (faulty k)) < 2 ^ 63.
Proof. destruct k as [|k]; vm_compute; reflexivity. Qed.

Lemma failed_read_keeps_offset_witness :
  (forall buffer eof_timeout s text n e buf s',
      String.eqb (Path (hv s)) "-" = false ->
      readline replay faulty buffer eof_timeout s
      = (Ret (text, n, Some e, buf), s') ->
      text = None /\ n = 0
      /\ (IsTracked (hv s) = true -> Offset (hv s') = Offset (hv s)))
  /\ (forall st',
         Harvest replay faulty 10 sample_state = (Ret Aborted, st') ->
         exists rs frk stk e buf st1,
           iterates replay faulty (initial_frame sample_state)
                    (announced replay sample_state) rs frk stk
           /\ readline replay faulty (buffer frk) read_timeout stk
              = (Ret (None, 0, Some e, buf), st1)
           /\ e <> EOF /\ e <> FILE_TRUNCATED
           /\ Offset (hv st1)
              = tracked_after (start_offset replay faulty sample_state) rs
           /\ Offset (hv st') = Offset (hv st1)
           /\ FinishChan (hv st')
              = FinishChan (hv sample_state)
                ++ [tracked_after (start_offset replay faulty sample_state) rs]).
Proof.
  apply (failed_read_keeps_offset replay faulty 10 sample_state).
  - exact faulty_small.
  - reflexivity.
  - cbn. discriminate.
Defined.

(** * More properties of the code

    ** readline comes back *)

Lemma chunk_error_cases options v offset h segment e :
  chunk options v offset h = (segment, Some e) ->
  e = EOF \/ e = FILE_TRUNCATED
  \/ exists k msg, fault v = Some (k, msg) /\ e = IOError msg.
Proof.
  unfold chunk. destruct (truncated v h); [intros H; inversion H; auto|].
  unfold ReadBytes. destruct (fault v) as [[k msg]|].
  - destruct (upto_LF _) as [l found]; destruct found; [discriminate|].
    intros H. inversion H. right. right. eauto.
  - destruct (upto_LF _) as [l found]; destruct found; [discriminate|].
    intros H. inversion H. auto.
Qed.

Lemma readline_loop_safe options fs fuel :
  forall start_time eof_timeout buffer h w o st',
    String.eqb (Path h) "-" = false ->
    readline_loop options fs fuel start_time eof_timeout buffer true 1
                  (mkSt h w) = (o, st') ->
    (reads w <= reads (wd st') <= reads w + fuel)%nat
    /\ match o with
       | Panic msg =>
           msg = refusal (last_view fs (wd st')) (Path h)
           /\ (reads w < reads (wd st'))%nat
           /\ is_regular (last_view fs (wd st')) = false
       | Ret (_, _, Some e, _) =>
           e = EOF \/ e = FILE_TRUNCATED
           \/ exists k msg, fault (last_view fs (wd st')) = Some (k, msg)
                            /\ e = IOError msg
       | _ => True
       end.
Proof.
  induction fuel as [|fuel IH]; intros start_time T buffer h w o st' Hpath Hrun.
  - cbn in Hrun. inversion Hrun; subst. cbn. split; [lia | exact I].
  - destruct (is_regular (fs (reads w))) eqn:Hreg.
    2:{ rewrite readline_loop_panics in Hrun by assumption.
        inversion Hrun; subst. unfold last_view. cbn [hv wd].
        rewrite world_after_read_reads. cbn [pred].
        repeat split; auto; lia. }
    rewrite readline_loop_step in Hrun by assumption. cbv zeta in Hrun.
    set (v := fs (reads w)) in *.
    destruct (chunk options v (len buffer) h) as [segment err] eqn:Hchunk.
    cbn [fst snd] in Hrun.
    destruct (chunk_shape options v (len buffer) h segment err (len_nonneg buffer) Hchunk)
      as [_ Hshape].
    assert (Hreads : forall d, reads (advance d (world_after_read v (Path h) w))
                               = S (reads w))
      by (intros d; cbn [advance reads]; apply world_after_read_reads).
    destruct err as [e|].
    + destruct Hshape as (Hno & _).
      rewrite absorb_partial in Hrun by assumption.
      destruct (error_eqb e EOF); cbn [andb] in Hrun.
      * destruct (_ >? _).
        -- inversion Hrun; subst. cbn [hv wd]. rewrite Hreads.
           split; [lia|].
           apply chunk_error_cases in Hchunk. unfold last_view.
           cbn [advance reads]. rewrite world_after_read_reads. exact Hchunk.
        -- apply IH in Hrun; [|exact Hpath]. cbn [hv wd] in Hrun.
           rewrite Hreads in Hrun. destruct Hrun as [Hr Ho].
           split; [lia|]. destruct o as [[[[text n] err] buf]|msg| |]; auto.
           destruct Ho as (Hm & Hlt & Hirr). repeat split; auto. lia.
      * inversion Hrun; subst. cbn [hv wd logged reads].
        rewrite world_after_read_reads. split; [lia|].
        apply chunk_error_cases in Hchunk. unfold last_view.
        cbn [logged reads]. rewrite world_after_read_reads. exact Hchunk.
    + destruct Hshape as (_ & body & -> & _).
      rewrite absorb_line in Hrun. cbn [negb] in Hrun.
      pose proof (terminator_length_le body) as Hle.
      pose proof (len_nonneg buffer) as Hbuf.
      destruct (Z.ltb_spec (len (buffer ++ body ++ [LF])
                            - (1 + terminator_length (body ++ [LF]) - 1)) 0)
        as [Hneg|Hpos].
      { rewrite len_app in Hneg. lia. }
      inversion Hrun; subst. cbn [hv wd].
      rewrite world_after_read_reads. split; [lia | exact I].
Qed.

Lemma readline_total options fs buffer eof_timeout st :
  String.eqb (Path (hv st)) "-" = false ->
  (forall k, (reads (wd st) <= k)%nat -> is_regular (fs k) = true) ->
  exists r st',
    readline options fs buffer eof_timeout st = (Ret r, st')
    /\ (reads (wd st) < reads (wd st')
        <= reads (wd st) + readline_fuel eof_timeout)%nat.
Proof.
  intros Hpath Hreg. destruct st as [h w]. cbn [hv wd] in *.
  destruct (readline options fs buffer eof_timeout (mkSt h w)) as [o st'] eqn:Hrl.
  destruct (readline_spec options fs _ _ h w o st' Hpath Hrl) as [Hpost Hfuel].
  pose proof Hrl as Hrun. unfold readline, bind, Now in Hrun. cbn [hv wd] in Hrun.
  destruct (readline_loop_safe options fs _ _ _ _ h w o st' Hpath Hrun) as [Hr Ho].
  unfold readline_post in Hpost.
  destruct o as [r|msg| |].
  - exists r, st'. split; [reflexivity|].
    destruct r as [[[text n] err] buf].
    destruct Hpost as (_ & _ & _ & _ & _ & _ & _ & _ & Hlt & _). lia.
  - destruct Ho as (_ & Hlt & Hirr). unfold last_view in Hirr.
    rewrite Hreg in Hirr by lia. discriminate.
  - destruct Hpost as (_ & _ & _ & _ & _ & _ & []).
  - congruence.
Qed.

(** X4: on a named file that is regular at every read, [readline] returns:
    it neither panics, the slice that cuts the terminator off the buffer
    being always within bounds, nor loops for ever; and it has read at least
    one chunk and at most one more than the seconds in [eof_timeout]. *)
Theorem readline_returns options fs buffer eof_timeout st :
  String.eqb (Path (hv st)) "-" = false ->
  (forall k, (reads (wd st) <= k)%nat -> is_regular (fs k) = true) ->
  exists r st',
    readline options fs buffer eof_timeout st = (Ret r, st')
    /\ (reads (wd st) < reads (wd st')
        <= reads (wd st) + readline_fuel eof_timeout)%nat.
Proof.
  intros Hpath Hreg.
  exact (readline_total options fs buffer eof_timeout st Hpath Hreg).
Qed.

Lemma readline_returns_witness :
  exists r st',
    readline replay (fun _ => plain_view sample_file) [] read_timeout sample_state
    = (Ret r, st')
    /\ (reads (wd sample_state) < reads (wd st')
        <= reads (wd sample_state) + readline_fuel read_timeout)%nat.
Proof.
  apply (readline_returns replay (fun _ => plain_view sample_file) []
                          read_timeout sample_state).
  - reflexivity.
  - intros k _. reflexivity.
Defined.

(** ** The only panics *)

Lemma Harvest_loop_panic options fs fuel :
  forall fr st p st',
    String.eqb (Path (hv st)) "-" = false ->
    Harvest_loop options fs fuel fr st = (Panic p, st') ->
    p = refusal (last_view fs (wd st')) (Path (hv st))
    /\ (reads (wd st) < reads (wd st'))%nat
    /\ is_regular (last_view fs (wd st')) = false
    /\ exists fr' st1, Harvest_body options fs fr' st1 = (Panic p, st')
                       /\ output (wd st') = output (wd st1).
Proof.
  induction fuel as [|fuel IH]; intros fr st p st' Hpath Hrun;
    [cbn in Hrun; discriminate|].
  cbn [Harvest_loop] in Hrun. unfold bind in Hrun.
  destruct (Harvest_body options fs fr st) as [ob st2] eqn:Hbody.
  pose proof Hbody as Hb. rewrite Harvest_body_eq in Hb. unfold bind in Hb.
  destruct (readline options fs (buffer fr) read_timeout st) as [ro st1] eqn:Hrl.
  destruct st as [h w]. cbn [hv wd] in *.
  destruct (readline_spec options fs _ _ h w ro st1 Hpath Hrl) as [Hpost _].
  pose proof Hrl as Hloop. unfold readline, bind, Now in Hloop. cbn [hv wd] in Hloop.
  destruct (readline_loop_safe options fs _ _ _ _ h w ro st1 Hpath Hloop) as [Hr Ho].
  unfold readline_post in Hpost.
  destruct Hpost as (P1 & _ & _ & P4 & _ & _ & _).
  destruct ro as [r|m| |]; inversion Hb; subst; clear Hb.
  - destruct (Harvest_handle_returns fr r st1) as (c & s & Hh).
    rewrite Hh in H0. inversion H0; subst ob st2. clear H0.
    assert (Hs : Path (hv s) = Path (hv st1) /\ reads (wd s) = reads (wd st1)).
    { destruct st1 as [h1 w1]. destruct r as [[[text n] [[| |m']|]] buf].
      - rewrite Harvest_handle_EOF in Hh.
        destruct (_ >? _); inversion Hh; subst; auto.
      - rewrite Harvest_handle_truncated in Hh. inversion Hh; subst; auto.
      - rewrite Harvest_handle_IOError in Hh. inversion Hh; subst; auto.
      - rewrite Harvest_handle_line in Hh. inversion Hh; subst; auto. }
    destruct Hs as [Hp Hrd].
    destruct c as [fr2|e]; [|discriminate].
    destruct (IH fr2 s p st' ltac:(congruence) Hrun) as (Hm & Hlt & Hirr & Hex).
    split; [rewrite Hm; congruence|]. split; [lia|]. split; [exact Hirr | exact Hex].
  - inversion Hrun; subst. destruct Ho as (Hm & Hlt & Hirr).
    split; [exact Hm|]. split; [exact Hlt|]. split; [exact Hirr|].
    exists fr, (mkSt h w). split; [exact Hbody|]. exact P4.
  - discriminate.
  - discriminate.
Qed.

(** X5: the panics of [Harvest] on a named file are those of
    [mustBeRegularFile], and no other: [Stat] failed on the file the last
    read opened, and the panic is the error built from the format of the
    failed [Stat] and the text of its error; or [Stat] showed a mode that is
    not regular, and the panic is the error built from the format for a
    file that is not regular, the mode and the name.  The slice with which
    [readline] cuts the terminator off the buffer is never out of bounds,
    and the descriptor checked is never nil.  The iteration that panics has
    read the file at least once and sends no event. *)
Theorem Harvest_panics_in_mustBeRegularFile options fs fuel st p st' :
  String.eqb (Path (hv st)) "-" = false ->
  Harvest options fs fuel st = (Panic p, st') ->
  (reads (wd st) < reads (wd st'))%nat
  /\ match status (last_view fs (wd st')) with
     | StatFails e => p = Errorf "Harvester: FAULT: stat error: %s" [e]
     | StatOk mode regular =>
         regular = false
         /\ p = Errorf "Harvester: not a regular file:%q"
                       [mode;
                        fi_name (Stat (last_view fs (wd st')) (Path (hv st)))]
     end
  /\ exists fr1 st1 st2,
       Harvest_body options fs fr1 st1 = (Panic p, st2)
       /\ output (wd st2) = output (wd st1)
       /\ output (wd st') = output (wd st2).
Proof.
  intros Hpath Hrun. rewrite Harvest_eq in Hrun.
  destruct (Harvest_loop options fs fuel (initial_frame st) (announced options st))
    as [ol sl] eqn:Hloop.
  destruct ol as [e|m| |]; inversion Hrun; subst; clear Hrun.
  destruct (Harvest_loop_panic options fs fuel (initial_frame st)
                               (announced options st) p sl Hpath Hloop)
    as (Hm & Hlt & Hirr & fr1 & st1 & Hb & Hout).
  split; [exact Hlt|]. split.
  - change (wd (push_offset sl)) with (wd sl).
    change (Path (hv (announced options st))) with (Path (hv st)) in Hm.
    unfold is_regular in Hirr. unfold refusal in Hm.
    destruct (status (last_view fs (wd sl))) as [mode regular|e];
      [split; assumption | exact Hm].
  - exists fr1, st1, sl. split; [exact Hb|]. split; [exact Hout | reflexivity].
Qed.

Lemma Harvest_panics_in_mustBeRegularFile_witness :
  let r := Harvest replay replaced 10 sample_state in
  let p := Errorf "Harvester: not a regular file:%q"
                  ["drwxr-xr-x"; "messages"] in
  (reads (wd sample_state) < reads (wd (snd r)))%nat
  /\ match status (last_view replaced (wd (snd r))) with
     | StatFails e => p = Errorf "Harvester: FAULT: stat error: %s" [e]
     | StatOk mode regular =>
         regular = false
         /\ p = Errorf "Harvester: not a regular file:%q"
                       [mode;
                        fi_name (Stat (last_view replaced (wd (snd r)))
                                      (Path (hv sample_state)))]
     end
  /\ exists fr1 st1 st2,
       Harvest_body replay replaced fr1 st1 = (Panic p, st2)
       /\ output (wd st2) = output (wd st1)
       /\ output (wd (snd r)) = output (wd st2).
Proof.
  cbv zeta.
  apply (Harvest_panics_in_mustBeRegularFile replay replaced 10 sample_state).
  - reflexivity.
  - vm_compute. reflexivity.
Defined.

(** ** Failed opens *)

(** X7: a failed [os.Open] only delays.  Whatever the number of failures, a
    read of a named regular file returns the same segment and error and
    leaves the same harvester as with none; every failure adds five seconds
    to the clock and one notice to the log, and nothing else. *)
Theorem read_failed_opens_only_delay options fs offset h w :
  String.eqb (Path h) "-" = false ->
  is_regular (fs (reads w)) = true ->
  0 <= offset ->
  exists r h1 w1 w0,
    read options fs offset (mkSt h w) = (Ret r, mkSt h1 w1)
    /\ read options (fun k => without_failures (fs k)) offset (mkSt h w)
       = (Ret r, mkSt h1 w0)
    /\ clock w1
       = clock w0 + 5 * Second * Z.of_nat (open_failures (fs (reads w)))
    /\ log w1
       = log w0 ++ repeat (NoticeFailedOpening (Path h))
                          (open_failures (fs (reads w)))
    /\ log w0 = log w
    /\ reads w1 = reads w0
    /\ output w1 = output w0.
Proof.
  intros Hpath Hreg Hoff.
  rewrite !read_eq by assumption.
  eexists _, _, _, _. split; [reflexivity|]. split; [reflexivity|].
  unfold world_after_read. cbn [without_failures open_failures latency retried].
  set (w0 := next_view (Z.of_N (latency (fs (reads w)))) w).
  assert (Hlog : forall k u, log (retried k (Path h) u)
                             = log u ++ repeat (NoticeFailedOpening (Path h)) k).
  { induction k as [|k IH]; intros u; cbn [retried repeat].
    - now rewrite app_nil_r.
    - rewrite IH. cbn [advance logged log]. rewrite <- app_assoc. reflexivity. }
  destruct (retried_facts (open_failures (fs (reads w))) (Path h) w0)
    as (Hr & Ho & Hc).
  rewrite Hc, Hlog, Hr, Ho. repeat split; reflexivity.
Qed.

Lemma read_failed_opens_only_delay_witness :
  exists r h1 w1 w0,
    read replay busy 0 (mkSt fresh_harvester sample_world) = (Ret r, mkSt h1 w1)
    /\ read replay (fun k => without_failures (busy k)) 0
            (mkSt fresh_harvester sample_world)
       = (Ret r, mkSt h1 w0)
    /\ clock w1
       = clock w0 + 5 * Second * Z.of_nat (open_failures (busy (reads sample_world)))
    /\ log w1
       = log w0 ++ repeat (NoticeFailedOpening (Path fresh_harvester))
                          (open_failures (busy (reads sample_world)))
    /\ log w0 = log sample_world
    /\ reads w1 = reads w0
    /\ output w1 = output w0.
Proof.
  apply (read_failed_opens_only_delay replay busy 0 fresh_harvester sample_world).
  - reflexivity.
  - reflexivity.
  - lia.
Defined.

(** ** Files that only grow *)

Lemma drop_skipn p (l : bytes) : 0 <= p -> drop p l = skipn (Z.to_nat p) l.
Proof.
  revert p. induction l as [|x l IH]; intros p Hp; cbn [drop].
  - now rewrite skipn_nil.
  - destruct (Z.leb_spec p 0).
    + replace p with 0 by lia. reflexivity.
    + rewrite IH by lia.
      replace (Z.to_nat p) with (S (Z.to_nat (p - 1))) by lia. reflexivity.
Qed.

Lemma lies_at_drop data p b :
  lies_at data p b
  <-> 0 <= p <= len data /\ exists rest, drop p data = b ++ rest.
Proof.
  split.
  - intros (pre & rest & -> & <-). split.
    + rewrite len_app. pose proof (len_nonneg pre).
      pose proof (len_nonneg (b ++ rest)). lia.
    + exists rest. apply drop_app_len.
  - intros [Hp [rest Hd]]. exists (slice_to p data), rest. split.
    + rewrite <- Hd, drop_skipn by lia. unfold slice_to.
      symmetry. apply firstn_skipn.
    + unfold slice_to, len in *. rewrite length_firstn. lia.
Qed.

Lemma lies_at_bound data p b :
  lies_at data p b -> 0 <= p /\ p + len b <= len data.
Proof.
  intros (pre & rest & -> & <-). rewrite !len_app.
  pose proof (len_nonneg pre). pose proof (len_nonneg rest). lia.
Qed.

Lemma lies_at_nil data p : 0 <= p <= len data -> lies_at data p [].
Proof.
  intros Hp. apply lies_at_drop. split; [exact Hp|].
  exists (drop p data). reflexivity.
Qed.

Lemma lies_at_grow data more p b :
  lies_at data p b -> lies_at (data ++ more) p b.
Proof.
  intros (pre & rest & -> & <-). exists pre, (rest ++ more).
  split; [|reflexivity]. now rewrite <- !app_assoc.
Qed.

Lemma lies_at_app data p a b :
  lies_at data p a -> lies_at data (p + len a) b -> lies_at data p (a ++ b).
Proof.
  intros (pre & r1 & E & Hp) Hb. apply lies_at_drop in Hb.
  destruct Hb as [_ [r2 Hd]]. subst data p.
  rewrite drop_app_plus in Hd by apply len_nonneg.
  rewrite drop_app_len in Hd. subst r1.
  exists pre, r2. split; [|reflexivity]. now rewrite <- !app_assoc.
Qed.

Lemma lies_at_whole data p a :
  lies_at data p a -> drop (p + len a) data = [] -> p + len a = len data.
Proof.
  intros (pre & r1 & E & Hp) Hd. subst data p.
  rewrite drop_app_plus in Hd by apply len_nonneg.
  rewrite drop_app_len in Hd. subst r1. rewrite !len_app, len_nil. lia.
Qed.

Lemma append_only_later fs k0 k :
  append_only fs k0 -> (k0 <= k)%nat -> append_only fs k.
Proof. intros H Hk j Hj. apply H. lia. Qed.

Lemma lies_at_later fs k0 p b :
  append_only fs k0 ->
  forall k k', (k0 <= k)%nat -> (k <= k')%nat ->
               lies_at (contents (fs k)) p b -> lies_at (contents (fs k')) p b.
Proof.
  intros Happ k k' Hk Hle Hat. induction Hle as [|k' Hle IH]; [exact Hat|].
  destruct (Happ k' ltac:(lia)) as [more ->]. now apply lies_at_grow.
Qed.

Lemma append_only_len fs k0 :
  append_only fs k0 ->
  forall k k', (k0 <= k)%nat -> (k <= k')%nat ->
               len (contents (fs k)) <= len (contents (fs k')).
Proof.
  intros Happ k k' Hk Hle. induction Hle as [|k' Hle IH]; [lia|].
  destruct (Happ k' ltac:(lia)) as [more ->]. rewrite len_app.
  pose proof (len_nonneg more). lia.
Qed.

Lemma chomp_cases body :
  chomp (body ++ [LF]) = body
  \/ exists b, body = b ++ [CR] /\ chomp (body ++ [LF]) = b.
Proof.
  rewrite chomp_strip. unfold strip_terminator.
  rewrite rev_app_distr. cbn [rev app].
  destruct (rev body) as [|c rbody] eqn:Hrev;
    apply (f_equal (@rev byte)) in Hrev; rewrite rev_involutive in Hrev;
    cbn [rev] in Hrev; subst body.
  - left. reflexivity.
  - replace (Byte.eqb LF LF) with true by reflexivity. cbn [andb].
    destruct (Byte.eqb c CR) eqn:E.
    + apply Byte.byte_dec_bl in E. subst c. right. eauto.
    + left. reflexivity.
Qed.

Lemma chunk_to_end options v offset h segment :
  chunk options v offset h = (segment, Some EOF) ->
  segment = drop (entry_pos options v h + offset) (contents v).
Proof.
  unfold chunk. destruct (truncated v h); [discriminate|].
  unfold ReadBytes. cbn [position].
  destruct (fault v) as [[k msg]|].
  - destruct (upto_LF _) as [l found]; destruct found; discriminate.
  - destruct (upto_LF _) as [l found] eqn:U; destruct found; [discriminate|].
    intros H. inversion H; subst. apply upto_LF_missing in U. tauto.
Qed.

Lemma error_eqb_EOF e : error_eqb e EOF = true <-> e = EOF.
Proof. destruct e; cbn; split; congruence. Qed.

Lemma chunk_error_fault options v offset h segment e :
  chunk options v offset h = (segment, Some e) ->
  e <> FILE_TRUNCATED -> e <> EOF -> fault v <> None.
Proof.
  unfold chunk. destruct (truncated v h); [congruence|].
  unfold ReadBytes. destruct (fault v) as [[k msg]|]; [discriminate|].
  destruct (upto_LF _) as [l found]; destruct found; congruence.
Qed.

Lemma readline_loop_tiles options fs fuel :
  forall start_time eof_timeout buffer h w text n err buf' st',
    String.eqb (Path h) "-" = false ->
    append_only fs (reads w) ->
    size h <= len (contents (fs (reads w))) ->
    lies_at (contents (fs (reads w))) (entry_pos options (fs (reads w)) h) buffer ->
    ~ In LF buffer ->
    readline_loop options fs fuel start_time eof_timeout buffer true 1 (mkSt h w)
    = (Ret (text, n, err, buf'), st') ->
    match err with
    | None =>
        exists raw,
          lies_at (contents (last_view fs (wd st')))
                  (entry_pos options (fs (reads w)) h) raw
          /\ line_text raw text /\ n = len raw
    | Some e =>
        lies_at (contents (last_view fs (wd st')))
                (entry_pos options (fs (reads w)) h) buf'
        /\ ~ In LF buf'
        /\ e <> FILE_TRUNCATED
        /\ (e = EOF ->
            entry_pos options (fs (reads w)) h + len buf'
            = len (contents (last_view fs (wd st'))))
        /\ (e <> EOF -> fault (last_view fs (wd st')) <> None)
    end.
Proof.
  induction fuel as [|fuel IH];
    intros start_time T buffer h w text n err buf' st' Hpath Happ Hsize Hat Hno Hrun;
    [cbn in Hrun; discriminate|].
  destruct (is_regular (fs (reads w))) eqn:Hreg.
  2:{ rewrite readline_loop_panics in Hrun by assumption. discriminate. }
  rewrite readline_loop_step in Hrun by assumption. cbv zeta in Hrun.
  set (v := fs (reads w)) in *.
  set (P := entry_pos options v h) in *.
  assert (Htr : truncated v h = false) by (unfold truncated; apply Z.ltb_ge; lia).
  destruct (chunk options v (len buffer) h) as [segment err0] eqn:Hchunk.
  cbn [fst snd] in Hrun.
  destruct (chunk_shape options v (len buffer) h segment err0 (len_nonneg buffer) Hchunk)
    as [_ Hshape].
  destruct (chunk_in_file options v (len buffer) h segment err0 Hchunk Htr)
    as [rest Hrest]. fold P in Hrest.
  destruct (lies_at_bound _ _ _ Hat) as [HP Hin].
  assert (Hcat : lies_at (contents v) P (buffer ++ segment)).
  { apply lies_at_app; [exact Hat|]. apply lies_at_drop.
    pose proof (len_nonneg buffer). split; [lia | eauto]. }
  assert (Hlast : forall w', reads w' = S (reads w) -> last_view fs w' = v).
  { intros w' E. unfold last_view. rewrite E. reflexivity. }
  assert (Hreads : forall d n',
             reads (advance d (world_after_read v (Path h) w)) = S (reads w)
             /\ reads (logged n' (world_after_read v (Path h) w)) = S (reads w)
             /\ reads (world_after_read v (Path h) w) = S (reads w)).
  { intros d n'. cbn [advance logged reads].
    rewrite world_after_read_reads. auto. }
  destruct err0 as [e|].
  - destruct Hshape as (Hseg & Htrunc & _).
    assert (Hne : e <> FILE_TRUNCATED) by (intros E; apply Htrunc in E; congruence).
    assert (Hno' : ~ In LF (buffer ++ segment))
      by (rewrite in_app_iff; tauto).
    rewrite absorb_partial in Hrun by assumption.
    destruct (error_eqb e EOF) eqn:He; cbn [andb] in Hrun.
    + apply error_eqb_EOF in He. subst e.
      destruct (_ >? _).
      * inversion Hrun; subst. cbn [hv wd].
        rewrite Hlast by apply (Hreads 0 (NoticeReadLine EOF)).
        split; [exact Hcat|]. split; [exact Hno'|]. split; [exact Hne|].
        split; [|congruence]. intros _.
        apply chunk_to_end in Hchunk. fold P in Hchunk.
        rewrite Hrest in Hchunk.
        assert (rest = []).
        { apply (f_equal (@len byte)) in Hchunk. rewrite len_app in Hchunk.
          apply len_zero_nil. pose proof (len_nonneg rest). lia. }
        subst rest. rewrite app_nil_r in Hrest.
        apply lies_at_whole; [exact Hcat|].
        rewrite len_app, Z.add_assoc.
        pose proof (len_nonneg buffer). pose proof (len_nonneg segment).
        rewrite <- drop_drop by lia.
        rewrite Hrest. apply drop_beyond. lia.
      * apply IH in Hrun; cbn [hv wd advance reads] in *;
          rewrite ?world_after_read_reads in *;
          rewrite ?entry_pos_after_read in *; fold v in Hrun; fold P in Hrun.
        -- exact Hrun.
        -- exact Hpath.
        -- apply append_only_later with (k0 := reads w); [exact Happ | lia].
        -- cbn [after_read size].
           apply (append_only_len fs (reads w) Happ); lia.
        -- fold P.
           apply (lies_at_later fs (reads w) P (buffer ++ segment) Happ
                                (reads w) (S (reads w))); [lia | lia | exact Hcat].
        -- exact Hno'.
    + inversion Hrun; subst. cbn [hv wd].
      rewrite Hlast by apply (Hreads 0 (NoticeReadLine e)).
      split; [exact Hcat|]. split; [exact Hno'|]. split; [exact Hne|].
      split; [intros ->; discriminate|].
      intros HnE. exact (chunk_error_fault _ _ _ _ _ _ Hchunk Hne HnE).
  - destruct Hshape as (_ & body & -> & Hbody).
    rewrite absorb_line in Hrun. cbn [negb] in Hrun.
    pose proof (terminator_length_le body) as Hle.
    pose proof (len_nonneg buffer) as Hbuf.
    replace (1 + terminator_length (body ++ [LF]) - 1)
      with (terminator_length (body ++ [LF])) in Hrun by lia.
    destruct (Z.ltb_spec (len (buffer ++ body ++ [LF])
                          - terminator_length (body ++ [LF])) 0)
      as [Hneg|Hpos].
    { rewrite len_app in Hneg. lia. }
    inversion Hrun; subst. cbn [hv wd].
    rewrite Hlast by apply (Hreads 0 (NoticeReadLine EOF)).
    exists (buffer ++ body ++ [LF]). split; [exact Hcat|]. split; [|reflexivity].
    exists (buffer ++ body). split; [now rewrite <- app_assoc|].
    split; [rewrite in_app_iff; tauto|].
    replace (len (buffer ++ body ++ [LF]) - terminator_length (body ++ [LF]))
      with (len buffer + (len (body ++ [LF]) - terminator_length (body ++ [LF])))
      by (rewrite !len_app; lia).
    rewrite slice_to_app by lia.
    change (slice_to (len (body ++ [LF]) - terminator_length (body ++ [LF]))
                     (body ++ [LF])) with (chomp (body ++ [LF])).
    destruct (chomp_cases body) as [->|(b & -> & ->)].
    + left. reflexivity.
    + right. exists (buffer ++ b). split; [now rewrite <- app_assoc | reflexivity].
Qed.

Lemma lies_at_prefix data p a b : lies_at data p (a ++ b) -> lies_at data p a.
Proof.
  intros (pre & rest & -> & <-). exists pre, (b ++ rest).
  split; [|reflexivity]. now rewrite <- !app_assoc.
Qed.

Lemma tiles_app o raws1 evs1 raws2 evs2 :
  tiles o raws1 evs1 ->
  tiles (o + len (List.concat raws1)) raws2 evs2 ->
  tiles o (raws1 ++ raws2) (evs1 ++ evs2).
Proof.
  revert o evs1. induction raws1 as [|raw raws1 IH]; intros o evs1 H1 H2.
  - destruct evs1; [|contradiction]. cbn [List.concat] in H2.
    change (len (@nil byte)) with 0 in H2. rewrite Z.add_0_r in H2. exact H2.
  - destruct evs1 as [|e evs1]; [contradiction|].
    destruct H1 as (Ho & Ht & H1). cbn [app tiles].
    split; [exact Ho|]. split; [exact Ht|]. apply IH; [exact H1|].
    cbn [List.concat] in H2. rewrite len_app, Z.add_assoc in H2. exact H2.
Qed.

Lemma follows_loop_inv options fs fr st :
  (forall k, len (contents (fs k)) < 2 ^ 63) ->
  follows options fs fr st ->
  loop_inv options fs (2 ^ 63 - 1) fr st.
Proof.
  intros Hsize (Hpath & Hoff & _ & Hat & Hno).
  apply lies_at_bound in Hat. specialize (Hsize (reads (wd st))).
  unfold loop_inv. repeat split; auto. lia.
Qed.

(** One iteration of the loop on a file that only grows. *)
Lemma Harvest_body_tiles options fs fr st c st2 :
  (forall k, len (contents (fs k)) < 2 ^ 63) ->
  append_only fs (reads (wd st)) ->
  follows options fs fr st ->
  Harvest_body options fs fr st = (Ret c, st2) ->
  exists raws evs tail,
    output (wd st2) = output (wd st) ++ evs
    /\ tiles (start_offset options fs st) raws evs
    /\ Offset (hv st2) = start_offset options fs st + len (List.concat raws)
    /\ IsTracked (hv st2) = true
    /\ Path (hv st2) = Path (hv st)
    /\ (reads (wd st) < reads (wd st2))%nat
    /\ size (hv st2) = len (contents (last_view fs (wd st2)))
    /\ ~ In LF tail
    /\ lies_at (contents (last_view fs (wd st2))) (start_offset options fs st)
               (List.concat raws ++ tail)
    /\ match c with
       | Continue fr2 =>
           buffer fr2 = tail
           /\ (raws = [] ->
               start_offset options fs st + len tail
               = len (contents (last_view fs (wd st2))))
       | Return e =>
           evs = []
           /\ (e = Dead ->
               start_offset options fs st + len tail
               = len (contents (last_view fs (wd st2))))
           /\ (e = Aborted -> fault (last_view fs (wd st2)) <> None)
       end.
Proof.
  intros Hsizes Happ (Hpath & Hoff & Hsz & Hat & Hno) Hrun.
  rewrite Harvest_body_eq in Hrun. unfold bind in Hrun.
  destruct (readline options fs (buffer fr) read_timeout st) as [ro st1] eqn:Hrl.
  destruct st as [h w]. cbn [hv wd] in *.
  destruct (readline_spec options fs _ _ h w ro st1 Hpath Hrl) as [Hpost _].
  pose proof Hrl as Hloop. unfold readline, bind, Now in Hloop. cbn [hv wd] in Hloop.
  pose proof (entry_pos_start options fs (mkSt h w) Hoff) as Hep. cbn [hv wd] in Hep.
  set (start := start_offset options fs (mkSt h w)) in *.
  destruct ro as [[[[text n] err] buf]|msg| |]; try discriminate.
  apply readline_loop_tiles in Hloop; try assumption;
    [|rewrite Hep; exact Hat].
  rewrite Hep in Hloop.
  unfold readline_post in Hpost. cbv zeta in Hpost.
  destruct Hpost as (P1 & _ & _ & P4 & _ & _ & Q1 & Q2 & Q3 & Q4 & _ & Q6).
  change (entry_offset options (fs (reads w)) h) with start in Q2.
  destruct st1 as [h1 w1]. cbn [hv wd] in *.
  assert (Hlv : forall w', reads w' = reads w1 -> last_view fs w' = last_view fs w1)
    by (intros w' E; unfold last_view; now rewrite E).
  destruct err as [[| |m]|].
  - destruct Hloop as (Hl & Hn & _ & Hend & _).
    rewrite Harvest_handle_EOF in Hrun.
    exists [], [], buf. cbn [List.concat app tiles].
    change (len (@nil byte)) with 0. rewrite Z.add_0_r, app_nil_r.
    destruct (_ >? _); inversion Hrun; subst; cbn [hv wd logged output reads];
      rewrite ?Hlv by reflexivity; repeat split; auto; discriminate.
  - destruct Hloop as (_ & _ & Hne & _). congruence.
  - destruct Hloop as (Hl & Hn & _ & _ & Hfault).
    specialize (Hfault ltac:(discriminate)).
    rewrite Harvest_handle_IOError in Hrun.
    exists [], [], buf. cbn [List.concat app tiles].
    change (len (@nil byte)) with 0. rewrite Z.add_0_r, app_nil_r.
    inversion Hrun; subst; cbn [hv wd logged output reads];
      rewrite ?Hlv by reflexivity; repeat split; auto; discriminate.
  - destruct Hloop as (raw & Hl & Ht & ->). destruct Q6 as [-> _].
    rewrite Harvest_handle_line in Hrun.
    exists [raw], [event_of fr text h1], []. cbn [List.concat app tiles].
    rewrite !app_nil_r.
    destruct (lies_at_bound _ _ _ Hl) as [Hs Hb].
    pose proof (Hsizes (pred (reads w1))) as Hlt. fold (last_view fs w1) in Hlt.
    pose proof (len_nonneg raw) as Hraw.
    inversion Hrun; subst; cbn [hv wd shipped output reads set_Offset Offset
                                IsTracked Path size buffer];
      rewrite ?Hlv by reflexivity.
    rewrite Q2, wrap64_small by lia.
    repeat split; auto; try discriminate. now rewrite P4.
Qed.

(** The runs of the loop on a file that only grows. *)
Lemma iterates_tiles options fs :
  (forall k, len (contents (fs k)) < 2 ^ 63) ->
  forall fr st rs fr' st',
    iterates options fs fr st rs fr' st' ->
    append_only fs (reads (wd st)) ->
    follows options fs fr st ->
    exists raws evs,
      output (wd st') = output (wd st) ++ evs
      /\ tiles (start_offset options fs st) raws evs
      /\ start_offset options fs st'
         = start_offset options fs st + len (List.concat raws)
      /\ (reads (wd st) <= reads (wd st'))%nat
      /\ follows options fs fr' st'
      /\ lies_at (contents (fs (reads (wd st')))) (start_offset options fs st)
                 (List.concat raws ++ buffer fr').
Proof.
  intros Hsizes fr st rs fr' st' Hit.
  induction Hit as [fr st|fr st r buf st1 fr2 st2 rs fr3 st3 Hrl Hbody Hit IH];
    intros Happ Hfol.
  - exists [], []. cbn [List.concat app tiles].
    change (len (@nil byte)) with 0. rewrite Z.add_0_r, app_nil_r.
    destruct Hfol as (? & ? & ? & ? & ?). unfold follows. repeat split; auto.
  - destruct (Harvest_body_tiles options fs fr st _ st2 Hsizes Happ Hfol Hbody)
      as (raws1 & evs1 & tail & Hout & Htiles & Hoff & Htr & Hpath & Hreads
          & Hsz & Hno & Hat & Hbuf & _).
    destruct Hfol as (Hp0 & Ho0 & _).
    pose proof (start_offset_nonneg options fs st Ho0) as Hs0.
    assert (Hk : reads (wd st2) = S (pred (reads (wd st2)))) by lia.
    assert (Hstart2 : start_offset options fs st2
                      = start_offset options fs st + len (List.concat raws1))
      by (rewrite start_offset_tracked by exact Htr; exact Hoff).
    assert (Happ2 : append_only fs (reads (wd st2)))
      by (apply append_only_later with (k0 := reads (wd st)); [exact Happ | lia]).
    assert (Hat2 : lies_at (contents (fs (reads (wd st2))))
                           (start_offset options fs st)
                           (List.concat raws1 ++ tail)).
    { apply (lies_at_later fs (reads (wd st)) _ _ Happ (pred (reads (wd st2))));
        [lia | lia | exact Hat]. }
    assert (Hfol2 : follows options fs fr2 st2).
    { unfold follows. rewrite Hstart2, Hbuf.
      pose proof (len_nonneg (List.concat raws1)).
      split; [congruence|]. split; [intros _; lia|].
      split; [rewrite Hsz; unfold last_view;
              apply (append_only_len fs (reads (wd st)) Happ); lia|].
      split; [|exact Hno].
      apply lies_at_drop in Hat2. destruct Hat2 as [Hr [rest Hd]].
      apply lies_at_drop. pose proof (lies_at_bound _ _ _ Hat) as Hb.
      rewrite len_app in Hb. pose proof (len_nonneg tail).
      pose proof (append_only_len fs (reads (wd st)) Happ
                    (pred (reads (wd st2))) (reads (wd st2))
                    ltac:(lia) ltac:(lia)) as Hgrow.
      fold (last_view fs (wd st2)) in Hgrow.
      split; [lia|]. exists rest.
      rewrite <- drop_drop by lia. rewrite Hd, <- app_assoc.
      apply drop_app_len. }
    destruct (IH Happ2 Hfol2)
      as (raws & evs & Hout' & Htiles' & Hoff' & Hreads' & Hfol' & Hat').
    exists (raws1 ++ raws), (evs1 ++ evs).
    split; [rewrite Hout', Hout, <- app_assoc; reflexivity|].
    split; [apply tiles_app; [exact Htiles | rewrite <- Hstart2; exact Htiles']|].
    rewrite concat_app, len_app.
    split; [rewrite Hoff', Hstart2; lia|].
    split; [lia|]. split; [exact Hfol'|].
    rewrite <- app_assoc. apply lies_at_app.
    + apply lies_at_prefix with (b := tail).
      apply (lies_at_later fs (reads (wd st2)) _ _ Happ2 (reads (wd st2)));
        [lia | lia | exact Hat2].
    + rewrite <- Hstart2. exact Hat'.
Qed.

Lemma follows_initial options fs st :
  String.eqb (Path (hv st)) "-" = false ->
  (IsTracked (hv st) = true ->
   0 <= Offset (hv st) <= len (contents (fs (reads (wd st))))) ->
  size (hv st) <= len (contents (fs (reads (wd st)))) ->
  follows options fs (initial_frame st) (announced options st).
Proof.
  intros Hpath Hoff Hsz. unfold follows.
  change (start_offset options fs (announced options st))
    with (start_offset options fs st).
  cbn [initial_frame buffer announced hv wd logged reads].
  split; [exact Hpath|]. split; [intros Ht; apply Hoff; exact Ht|].
  split; [exact Hsz|]. split; [|intros []].
  apply lies_at_nil. unfold start_offset, entry_offset, entry_pos.
  pose proof (len_nonneg (contents (fs (reads (wd st))))).
  destruct (IsTracked (hv st)); [apply Hoff; reflexivity|].
  destruct (tailOnRotate options); lia.
Qed.

Lemma Harvest_loop_tiles options fs fuel fr st e st' :
  (forall k, len (contents (fs k)) < 2 ^ 63) ->
  append_only fs (reads (wd st)) ->
  follows options fs fr st ->
  Harvest_loop options fs fuel fr st = (Ret e, st') ->
  exists raws evs tail,
    output (wd st') = output (wd st) ++ evs
    /\ tiles (start_offset options fs st) raws evs
    /\ Offset (hv st') = start_offset options fs st + len (List.concat raws)
    /\ IsTracked (hv st') = true
    /\ Path (hv st') = Path (hv st)
    /\ (reads (wd st) < reads (wd st'))%nat
    /\ size (hv st') = len (contents (last_view fs (wd st')))
    /\ ~ In LF tail
    /\ lies_at (contents (last_view fs (wd st'))) (start_offset options fs st)
               (List.concat raws ++ tail)
    /\ (e = Dead ->
        start_offset options fs st + len (List.concat raws ++ tail)
        = len (contents (last_view fs (wd st')))).
Proof.
  intros Hsizes Happ Hfol Hrun.
  assert (HB : forall k, len (contents (fs k)) <= 2 ^ 63 - 1)
    by (intros k; specialize (Hsizes k); lia).
  destruct (Harvest_loop_unfold options fs (2 ^ 63 - 1) HB ltac:(lia)
              fuel fr st _ _ (follows_loop_inv options fs fr st Hsizes Hfol) Hrun)
    as [[Hno _]|(rs & frk & stk & Hit & _ & [(e' & He & Hbody)|(msg & Hm & _)])];
    try discriminate.
  inversion He; subst e'. clear He.
  destruct (iterates_tiles options fs Hsizes _ _ _ _ _ Hit Happ Hfol)
    as (raws & evs & Hout & Htiles & Hoff & Hreads & Hfolk & Hat).
  assert (Happk : append_only fs (reads (wd stk)))
    by (apply append_only_later with (k0 := reads (wd st)); assumption).
  destruct (Harvest_body_tiles options fs frk stk _ st' Hsizes Happk Hfolk Hbody)
    as (raws1 & evs1 & tail & Hout1 & Htiles1 & Hoff1 & Htr1 & Hpath1 & Hreads1
        & Hsz1 & Hno1 & Hat1 & -> & Hend & _).
  destruct raws1 as [|raw raws1]; [|contradiction].
  cbn [List.concat app] in *. change (len (@nil byte)) with 0 in Hoff1.
  rewrite Z.add_0_r in Hoff1. rewrite app_nil_r in Hout1.
  assert (Hpathk : Path (hv stk) = Path (hv st)).
  { pose proof (iterates_inv options fs (2 ^ 63 - 1) HB ltac:(lia) _ _ _ _ _ Hit
                  (follows_loop_inv options fs fr st Hsizes Hfol)) as Hinv.
    tauto. }
  assert (Hwhole : lies_at (contents (last_view fs (wd st')))
                           (start_offset options fs st)
                           (List.concat raws ++ tail)).
  { apply lies_at_app; [|rewrite <- Hoff; exact Hat1].
    apply lies_at_prefix with (b := buffer frk).
    apply (lies_at_later fs (reads (wd stk)) _ _ Happk (reads (wd stk)));
      [lia | lia | exact Hat]. }
  exists raws, evs, tail.
  split; [congruence|]. split; [exact Htiles|].
  split; [congruence|]. split; [exact Htr1|]. split; [congruence|].
  split; [lia|]. split; [exact Hsz1|]. split; [exact Hno1|].
  split; [exact Hwhole|].
  intros Hd. specialize (Hend Hd). rewrite len_app. lia.
Qed.

Lemma Harvest_tiles options fs fuel st e st' :
  (forall k, len (contents (fs k)) < 2 ^ 63) ->
  append_only fs (reads (wd st)) ->
  String.eqb (Path (hv st)) "-" = false ->
  (IsTracked (hv st) = true ->
   0 <= Offset (hv st) <= len (contents (fs (reads (wd st))))) ->
  size (hv st) <= len (contents (fs (reads (wd st)))) ->
  Harvest options fs fuel st = (Ret e, st') ->
  exists raws evs tail,
    output (wd st') = output (wd st) ++ evs
    /\ tiles (start_offset options fs st) raws evs
    /\ FinishChan (hv st')
       = FinishChan (hv st)
         ++ [start_offset options fs st + len (List.concat raws)]
    /\ ~ In LF tail
    /\ lies_at (contents (last_view fs (wd st'))) (start_offset options fs st)
               (List.concat raws ++ tail)
    /\ (e = Dead ->
        start_offset options fs st + len (List.concat raws ++ tail)
        = len (contents (last_view fs (wd st'))))
    /\ (reads (wd st) < reads (wd st'))%nat
    /\ size (hv st') = len (contents (last_view fs (wd st')))
    /\ Path (hv st') = Path (hv st).
Proof.
  intros Hsizes Happ Hpath Hoff Hsz Hrun.
  pose proof (Harvest_finish options fs fuel st _ _ Hrun) as Hfin.
  cbv beta iota in Hfin.
  rewrite Harvest_eq in Hrun.
  destruct (Harvest_loop options fs fuel (initial_frame st) (announced options st))
    as [ol sl] eqn:Hloop.
  destruct ol as [e'|m| |]; inversion Hrun; subst; clear Hrun.
  destruct (Harvest_loop_tiles options fs fuel (initial_frame st)
                               (announced options st) e sl Hsizes Happ
              (follows_initial options fs st Hpath Hoff Hsz) Hloop)
    as (raws & evs & tail & Hout & Htiles & Hoff' & Htr & Hpath' & Hreads
        & Hsz' & Hno & Hat & Hend).
  exists raws, evs, tail.
  split; [exact Hout|]. split; [exact Htiles|].
  split; [rewrite Hfin; cbn [push_offset hv Offset]; f_equal; f_equal; exact Hoff'|].
  split; [exact Hno|]. split; [exact Hat|]. split; [exact Hend|].
  split; [exact Hreads|]. split; [exact Hsz' | exact Hpath'].
Qed.

(** X1: on a file that only grows by appending, the events of a run of
    [Harvest] are the lines of the file laid end to end from the offset of
    the start: each event carries the byte offset at which its line starts
    and the bytes of the line up to its newline, without a carriage return
    before the newline at most, and the next line starts where it ends; no
    byte is skipped and none is sent twice.  The offset sent on the
    completion channel is the end of the last line sent.  What the file, as
    last read, holds after that line has no newline; and when the harvester
    gives the file up as dead, that rest reaches the end of the file: every
    complete line has been sent. *)
Theorem Harvest_sends_appended_lines options fs fuel st e st' :
  (forall k, len (contents (fs k)) < 2 ^ 63) ->
  append_only fs (reads (wd st)) ->
  String.eqb (Path (hv st)) "-" = false ->
  (IsTracked (hv st) = true ->
   0 <= Offset (hv st) <= len (contents (fs (reads (wd st))))) ->
  size (hv st) <= len (contents (fs (reads (wd st)))) ->
  Harvest options fs fuel st = (Ret e, st') ->
  exists raws evs tail,
    output (wd st') = output (wd st) ++ evs
    /\ tiles (start_offset options fs st) raws evs
    /\ FinishChan (hv st')
       = FinishChan (hv st)
         ++ [start_offset options fs st + len (List.concat raws)]
    /\ ~ In LF tail
    /\ lies_at (contents (last_view fs (wd st'))) (start_offset options fs st)
               (List.concat raws ++ tail)
    /\ (e = Dead ->
        start_offset options fs st + len (List.concat raws ++ tail)
        = len (contents (last_view fs (wd st')))).
Proof.
  intros Hsizes Happ Hpath Hoff Hsz Hrun.
  destruct (Harvest_tiles options fs fuel st e st' Hsizes Happ Hpath Hoff Hsz Hrun)
    as (raws & evs & tail & H1 & H2 & H3 & H4 & H5 & H6 & _).
  exists raws, evs, tail.
  exact (conj H1 (conj H2 (conj H3 (conj H4 (conj H5 H6))))).
Qed.

(** X2: stopping and resuming loses nothing and repeats nothing.  When a run
    of [Harvest] on a file that only grows has returned, and a harvester for
    the same path is resumed at the offset that run sent on the completion
    channel, the events of the two runs together are the lines of the file
    laid end to end from the offset at which the first run started. *)
Theorem Harvest_resumed_continues options fs fuel1 fuel2 st e1 st1 h2 e2 st2 :
  (forall k, len (contents (fs k)) < 2 ^ 63) ->
  append_only fs (reads (wd st)) ->
  String.eqb (Path (hv st)) "-" = false ->
  (IsTracked (hv st) = true ->
   0 <= Offset (hv st) <= len (contents (fs (reads (wd st))))) ->
  size (hv st) <= len (contents (fs (reads (wd st)))) ->
  Harvest options fs fuel1 st = (Ret e1, st1) ->
  IsTracked h2 = true ->
  Path h2 = Path (hv st) ->
  Offset h2 = last (FinishChan (hv st1)) 0 ->
  size h2 <= len (contents (fs (reads (wd st1)))) ->
  Harvest options fs fuel2 (mkSt h2 (wd st1)) = (Ret e2, st2) ->
  exists raws evs tail,
    output (wd st2) = output (wd st) ++ evs
    /\ tiles (start_offset options fs st) raws evs
    /\ FinishChan (hv st2)
       = FinishChan h2 ++ [start_offset options fs st + len (List.concat raws)]
    /\ ~ In LF tail
    /\ lies_at (contents (last_view fs (wd st2))) (start_offset options fs st)
               (List.concat raws ++ tail)
    /\ (e2 = Dead ->
        start_offset options fs st + len (List.concat raws ++ tail)
        = len (contents (last_view fs (wd st2)))).
Proof.
  intros Hsizes Happ Hpath Hoff Hsz Hrun1 Htr2 Hpath2 Hoff2 Hsz2 Hrun2.
  destruct (Harvest_tiles options fs fuel1 st e1 st1 Hsizes Happ Hpath Hoff Hsz Hrun1)
    as (raws1 & evs1 & tail1 & Hout1 & Htiles1 & Hfin1 & Hno1 & Hat1 & _
        & Hreads1 & _).
  rewrite Hfin1, last_last in Hoff2.
  set (start := start_offset options fs st) in *.
  assert (Happ1 : append_only fs (reads (wd st1)))
    by (apply append_only_later with (k0 := reads (wd st)); [exact Happ | lia]).
  assert (Hat1' : lies_at (contents (fs (reads (wd st1)))) start
                          (List.concat raws1 ++ tail1)).
  { apply (lies_at_later fs (reads (wd st)) _ _ Happ (pred (reads (wd st1))));
      [lia | lia | exact Hat1]. }
  pose proof (lies_at_bound _ _ _ (lies_at_prefix _ _ _ _ Hat1')) as Hb1.
  assert (Hstart2 : start_offset options fs (mkSt h2 (wd st1))
                    = start + len (List.concat raws1)).
  { rewrite start_offset_tracked by exact Htr2. exact Hoff2. }
  pose proof (len_nonneg (List.concat raws1)) as Hn1.
  destruct (Harvest_tiles options fs fuel2 (mkSt h2 (wd st1)) e2 st2 Hsizes Happ1)
    as (raws2 & evs2 & tail2 & Hout2 & Htiles2 & Hfin2 & Hno2 & Hat2 & Hend2
        & Hreads2 & _); cbn [hv wd]; try assumption.
  { congruence. }
  { intros _. rewrite Hoff2. lia. }
  cbn [hv wd] in *. rewrite Hstart2 in *.
  exists (raws1 ++ raws2), (evs1 ++ evs2), tail2.
  rewrite concat_app, len_app, <- !app_assoc.
  split; [rewrite Hout2, Hout1, <- app_assoc; reflexivity|].
  split; [apply tiles_app; assumption|].
  split; [rewrite Hfin2; f_equal; f_equal; lia|].
  split; [exact Hno2|].
  split.
  - apply lies_at_app; [|exact Hat2].
    apply lies_at_prefix with (b := tail1).
    apply (lies_at_later fs (reads (wd st1)) _ _ Happ1 (reads (wd st1)));
      [lia | lia | exact Hat1'].
  - intros Hd. specialize (Hend2 Hd). rewrite len_app. lia.
Qed.

Lemma appended_append_only t k0 : append_only (appended t) k0.
Proof.
  intros k _. unfold appended, plain_view. cbn [contents].
  destruct (Nat.ltb_spec k t), (Nat.ltb_spec (S k) t); try lia.
  - exists []. now rewrite !app_nil_r.
  - exists (sample_bytes "cd" ++ [LF]). now rewrite app_nil_r.
  - exists []. now rewrite !app_nil_r.
Qed.

Lemma appended_small t k : len (contents (appended t k)) < 2 ^ 63.
Proof.
  unfold appended. destruct (k <? t)%nat; vm_compute; reflexivity.
Qed.

Lemma Harvest_sends_appended_lines_witness :
  let r := Harvest replay (appended 5) 10 sample_state in
  exists raws evs tail,
    output (wd (snd r)) = output (wd sample_state) ++ evs
    /\ tiles (start_offset replay (appended 5) sample_state) raws evs
    /\ FinishChan (hv (snd r))
       = FinishChan (hv sample_state)
         ++ [start_offset replay (appended 5) sample_state
             + len (List.concat raws)]
    /\ ~ In LF tail
    /\ lies_at (contents (last_view (appended 5) (wd (snd r))))
               (start_offset replay (appended 5) sample_state)
               (List.concat raws ++ tail)
    /\ (Dead = Dead ->
        start_offset replay (appended 5) sample_state
        + len (List.concat raws ++ tail)
        = len (contents (last_view (appended 5) (wd (snd r))))).
Proof.
  cbv zeta.
  apply (Harvest_sends_appended_lines replay (appended 5) 10 sample_state Dead).
  - apply appended_small.
  - apply appended_append_only.
  - reflexivity.
  - discriminate.
  - vm_compute. discriminate.
  - vm_compute. reflexivity.
Defined.

Lemma Harvest_resumed_continues_witness :
  let r1 := Harvest replay (appended 40) 10 sample_state in
  let h2 := resumed_harvester 3 0 in
  let r2 := Harvest replay (appended 40) 10 (mkSt h2 (wd (snd r1))) in
  exists raws evs tail,
    output (wd (snd r2)) = output (wd sample_state) ++ evs
    /\ tiles (start_offset replay (appended 40) sample_state) raws evs
    /\ FinishChan (hv (snd r2))
       = FinishChan h2
         ++ [start_offset replay (appended 40) sample_state
             + len (List.concat raws)]
    /\ ~ In LF tail
    /\ lies_at (contents (last_view (appended 40) (wd (snd r2))))
               (start_offset replay (appended 40) sample_state)
               (List.concat raws ++ tail)
    /\ (Dead = Dead ->
        start_offset replay (appended 40) sample_state
        + len (List.concat raws ++ tail)
        = len (contents (last_view (appended 40) (wd (snd r2))))).
Proof.
  cbv zeta.
  apply (Harvest_resumed_continues replay (appended 40) 10 10 sample_state Dead
           (snd (Harvest replay (appended 40) 10 sample_state))
           (resumed_harvester 3 0) Dead).
  - apply appended_small.
  - apply appended_append_only.
  - reflexivity.
  - discriminate.
  - vm_compute. discriminate.
  - vm_compute. reflexivity.
  - reflexivity.
  - reflexivity.
  - vm_compute. reflexivity.
  - vm_compute. discriminate.
  - vm_compute. reflexivity.
Defined.

(** ** Files that stop growing *)

Lemma settled_bound fs k0 K :
  append_only fs k0 ->
  (forall k, (K <= k)%nat -> contents (fs k) = contents (fs K)) ->
  forall k, (k0 <= k)%nat ->
            len (contents (fs k)) <= len (contents (fs K)).
Proof.
  intros Happ Hset k Hk. destruct (le_lt_dec k K) as [Hle|Hgt].
  - apply (append_only_len fs k0 Happ); assumption.
  - rewrite (Hset k) by lia. lia.
Qed.

Lemma tiles_nil_r o raws : tiles o raws [] -> raws = [].
Proof. destruct raws; [reflexivity | contradiction]. Qed.

Lemma line_text_len raw text : line_text raw text -> 1 <= len raw.
Proof.
  intros (body & -> & _). rewrite len_app, len_cons, len_nil.
  pose proof (len_nonneg body). lia.
Qed.

(** The loop on a file that has stopped growing by read number [K]: it runs
    some iterations and then returns at the dead time. *)
Lemma settled_run options fs K :
  (forall k, len (contents (fs k)) < 2 ^ 63) ->
  (forall k, (K <= k)%nat -> contents (fs k) = contents (fs K)) ->
  forall n fr st,
    ((K - reads (wd st))
     + Z.to_nat (len (contents (fs K)) - start_offset options fs st) < n)%nat ->
    append_only fs (reads (wd st)) ->
    (forall k, (reads (wd st) <= k)%nat ->
               is_regular (fs k) = true /\ fault (fs k) = None) ->
    follows options fs fr st ->
    exists rs frk stk st',
      iterates options fs fr st rs frk stk
      /\ Harvest_body options fs frk stk = (Ret (Return Dead), st').
Proof.
  intros Hsizes Hset.
  assert (HB : forall k, len (contents (fs k)) <= 2 ^ 63 - 1)
    by (intros k; specialize (Hsizes k); lia).
  induction n as [|n IH]; intros fr st Hmu Happ Hgood Hfol; [lia|].
  pose proof Hfol as (Hpath & Hoff & Hsz & Hat & Hno).
  destruct (readline_total options fs (buffer fr) read_timeout st Hpath
              (fun k Hk => proj1 (Hgood k Hk)))
    as ([r buf] & st1 & Hrl & _).
  destruct (Harvest_handle_returns fr (r, buf) st1) as (c & st2 & Hh).
  assert (Hbody : Harvest_body options fs fr st = (Ret c, st2))
    by (rewrite Harvest_body_eq; unfold bind; rewrite Hrl; exact Hh).
  destruct (Harvest_body_tiles options fs fr st c st2 Hsizes Happ Hfol Hbody)
    as (raws & evs & tail & Hout & Htiles & Hoffset & Htr & Hpath2 & Hreads
        & Hsize2 & Hno2 & Hat2 & Hc).
  assert (Hfault : fault (last_view fs (wd st2)) = None)
    by (apply Hgood; lia).
  destruct c as [fr2|[|]].
  - destruct Hc as [Hbuf Hend].
    assert (Hit1 : iterates options fs fr st [r] fr2 st2)
      by (econstructor; [exact Hrl | exact Hbody | constructor]).
    destruct (iterates_tiles options fs Hsizes _ _ _ _ _ Hit1 Happ Hfol)
      as (_ & _ & _ & _ & _ & _ & Hfol2 & _).
    assert (Happ2 : append_only fs (reads (wd st2)))
      by (apply append_only_later with (k0 := reads (wd st)); [exact Happ | lia]).
    assert (Hgood2 : forall k, (reads (wd st2) <= k)%nat ->
                               is_regular (fs k) = true /\ fault (fs k) = None)
      by (intros k Hk; apply Hgood; lia).
    assert (Hstart2 : start_offset options fs st2
                      = start_offset options fs st + len (List.concat raws))
      by (rewrite start_offset_tracked by exact Htr; exact Hoffset).
    assert (Hle2 : start_offset options fs st2 <= len (contents (fs K))).
    { destruct Hfol2 as (_ & _ & _ & Hat' & _). apply lies_at_bound in Hat'.
      pose proof (settled_bound fs (reads (wd st)) K Happ Hset
                    (reads (wd st2)) ltac:(lia)).
      pose proof (len_nonneg (buffer fr2)). lia. }
    assert (Hrest : (exists rs frk stk st',
                        iterates options fs fr2 st2 rs frk stk
                        /\ Harvest_body options fs frk stk
                           = (Ret (Return Dead), st'))).
    { destruct raws as [|raw raws].
      - cbn [List.concat] in Hstart2. change (len (@nil byte)) with 0 in Hstart2.
        rewrite Z.add_0_r in Hstart2.
        destruct (le_lt_dec K (reads (wd st))) as [Hlate|Hearly].
        + specialize (Hend eq_refl).
          assert (HL : contents (last_view fs (wd st2)) = contents (fs K))
            by (unfold last_view; apply Hset; lia).
          assert (Hquiet : quiet fs (start_offset options fs st2 + len (buffer fr2))
                                 (size (hv st2)) (reads (wd st2))).
          { destruct Hfol2 as (_ & _ & Hsz2 & _). split; [exact Hsz2|].
            intros k Hk. destruct (Hgood k ltac:(lia)) as [Hreg Hf].
            split; [exact Hreg|]. split; [exact Hf|].
            rewrite (Hset k), (Hset (S k)) by lia.
            split; [|lia].
            rewrite drop_beyond; [intros []|].
            rewrite Hstart2, Hbuf, Hend, HL. lia. }
          destruct Hfol2 as (Hp2 & Ho2 & Hfol2').
          set (X := Cfg.deadtime (FileConfig (hv st2))
                    - (clock (wd st2) - last_read_time fr2)).
          destruct (idle_loop options fs (S (Z.to_nat X)) fr2 st2 Hp2 Ho2
                              (proj2 (proj2 Hfol2')) Hquiet)
            as (o & st' & Hloop & _ & _ & _ & Hdead).
          assert (Ho : o = Ret Dead).
          { apply Hdead; [lia|]. fold X. unfold Second. lia. }
          subst o.
          destruct (Harvest_loop_unfold options fs (2 ^ 63 - 1) HB ltac:(lia)
                      _ fr2 st2 _ _
                      (follows_loop_inv options fs fr2 st2 Hsizes
                         (conj Hp2 (conj Ho2 Hfol2'))) Hloop)
            as [[Hnf _]|(rs & frk & stk & Hit & _
                         & [(e' & He & Hb)|(msg & Hm & _)])];
            try discriminate.
          inversion He; subst e'.
          exists rs, frk, stk, st'. split; assumption.
        + apply (IH fr2 st2); try assumption. rewrite Hstart2. lia.
      - destruct evs as [|ev evs]; [contradiction|].
        destruct Htiles as (_ & Hline & _). apply line_text_len in Hline.
        cbn [List.concat] in Hstart2. rewrite len_app in Hstart2.
        pose proof (len_nonneg (List.concat raws)).
        apply (IH fr2 st2); try assumption. lia. }
    destruct Hrest as (rs & frk & stk & st' & Hit & Hb).
    exists (r :: rs), frk, stk, st'. split; [|exact Hb].
    econstructor; [exact Hrl | exact Hbody | exact Hit].
  - exists [], fr, st, st2. split; [constructor | exact Hbody].
  - destruct Hc as (_ & _ & Hab). exfalso. apply Hab; [reflexivity | exact Hfault].
Qed.

(** X3: [Harvest] gives up a file that has stopped growing.  When the file
    only grows, stays a regular file without device errors, and no longer
    changes from some read on, a run with enough iterations returns at the
    dead time, whatever the dead time and the position of the start; the
    loop does not go on for ever. *)
Theorem Harvest_gives_up_settled_file options fs K st :
  (forall k, len (contents (fs k)) < 2 ^ 63) ->
  append_only fs (reads (wd st)) ->
  (forall k, (reads (wd st) <= k)%nat ->
             is_regular (fs k) = true /\ fault (fs k) = None) ->
  (forall k, (K <= k)%nat -> contents (fs k) = contents (fs K)) ->
  String.eqb (Path (hv st)) "-" = false ->
  (IsTracked (hv st) = true ->
   0 <= Offset (hv st) <= len (contents (fs (reads (wd st))))) ->
  size (hv st) <= len (contents (fs (reads (wd st)))) ->
  exists fuel0 st', forall fuel, (fuel0 <= fuel)%nat ->
    Harvest options fs fuel st = (Ret Dead, st').
Proof.
  intros Hsizes Happ Hgood Hset Hpath Hoff Hsz.
  destruct (settled_run options fs K Hsizes Hset _
              (initial_frame st) (announced options st) (Nat.lt_succ_diag_r _)
              Happ Hgood (follows_initial options fs st Hpath Hoff Hsz))
    as (rs & frk & stk & st' & Hit & Hb).
  exists (S (List.length rs)), (push_offset st'). intros fuel Hfuel.
  replace fuel with (List.length rs + S (fuel - S (List.length rs)))%nat by lia.
  rewrite Harvest_eq, (Harvest_loop_iterates options fs _ _ _ _ _ Hit).
  cbn [Harvest_loop]. unfold bind. rewrite Hb. reflexivity.
Qed.

Lemma appended_settled t k :
  (t <= k)%nat -> contents (appended t k) = contents (appended t t).
Proof.
  intros Hk. unfold appended.
  destruct (Nat.ltb_spec k t), (Nat.ltb_spec t t); try lia. reflexivity.
Qed.

Lemma Harvest_gives_up_settled_file_witness :
  exists fuel0 st', forall fuel, (fuel0 <= fuel)%nat ->
    Harvest replay (appended 5) fuel sample_state = (Ret Dead, st').
Proof.
  apply (Harvest_gives_up_settled_file replay (appended 5) 5 sample_state).
  - apply appended_small.
  - apply appended_append_only.
  - intros k _. split; reflexivity.
  - apply appended_settled.
  - reflexivity.
  - discriminate.
  - vm_compute. discriminate.
Defined.

(** ** The position of the start *)

Lemma read_tracked_at options fs offset h w :
  String.eqb (Path h) "-" = false ->
  IsTracked h = false ->
  is_regular (fs (reads w)) = true ->
  0 <= offset ->
  read options fs offset
       (mkSt (tracked_at (entry_pos options (fs (reads w)) h) h) w)
  = read options fs offset (mkSt h w).
Proof.
  intros Hpath Hun Hreg Hoff.
  rewrite !read_eq by assumption.
  pose proof (entry_pos_nonneg options (fs (reads w)) h) as Hp.
  set (v := fs (reads w)) in *. set (p := entry_pos options v h) in *.
  assert (Hpos : entry_pos options v (tracked_at p h) = p).
  { unfold entry_pos at 1. cbn [tracked_at set_IsTracked set_Offset IsTracked Offset].
    destruct (Z.ltb_spec p 0); [lia | reflexivity]. }
  assert (Hoffs : entry_offset options v h = p)
    by (unfold entry_offset; rewrite Hun; reflexivity).
  unfold chunk, after_read. rewrite Hpos.
  change (entry_offset options v (tracked_at p h)) with p.
  rewrite Hoffs. reflexivity.
Qed.

(** X8: the loop on an untracked harvester runs as on a harvester resumed at
    the position [open] chooses for it, the end of the file as the first
    read finds it when tailing and 0 otherwise: the same outcome, the same
    events and the same state at the end, once one iteration has run. *)
Theorem untracked_runs_as_resumed options fs fuel fr h w :
  (0 < fuel)%nat ->
  String.eqb (Path h) "-" = false ->
  IsTracked h = false ->
  is_regular (fs (reads w)) = true ->
  Harvest_loop options fs fuel fr
               (mkSt (tracked_at (entry_pos options (fs (reads w)) h) h) w)
  = Harvest_loop options fs fuel fr (mkSt h w).
Proof.
  intros Hfuel Hpath Hun Hreg. destruct fuel as [|fuel]; [lia|].
  assert (Hrl : readline options fs (buffer fr) read_timeout
                  (mkSt (tracked_at (entry_pos options (fs (reads w)) h) h) w)
                = readline options fs (buffer fr) read_timeout (mkSt h w)).
  { unfold readline, bind, Now. cbn [hv wd]. unfold readline_fuel.
    cbn [readline_loop]. unfold bind.
    rewrite read_tracked_at by (auto using len_nonneg). reflexivity. }
  cbn [Harvest_loop]. rewrite !Harvest_body_eq. unfold bind.
  rewrite Hrl. reflexivity.
Qed.

Lemma untracked_runs_as_resumed_witness :
  Harvest_loop tailing (fun _ => plain_view sample_file) 10
               (initial_frame sample_state)
               (mkSt (tracked_at
                        (entry_pos tailing (plain_view sample_file) fresh_harvester)
                        fresh_harvester)
                     sample_world)
  = Harvest_loop tailing (fun _ => plain_view sample_file) 10
                 (initial_frame sample_state)
                 (mkSt fresh_harvester sample_world).
Proof.
  apply (untracked_runs_as_resumed tailing (fun _ => plain_view sample_file) 10
           (initial_frame sample_state) fresh_harvester sample_world);
    [lia | reflexivity | reflexivity | reflexivity].
Defined.

(** ** A file cut short *)

Lemma rewritten_append_only : append_only rewritten 1.
Proof.
  intros k Hk. destruct k as [|[|k]]; [lia| |].
  - exists (sample_bytes " there" ++ [LF]). reflexivity.
  - exists []. cbn [rewritten]. now rewrite app_nil_r.
Qed.

Lemma rewritten_small k : len (contents (rewritten k)) < 2 ^ 63.
Proof. destruct k as [|[|k]]; vm_compute; reflexivity. Qed.

(** X9: a truncation found with nothing buffered is recovered from.  When a
    read finds the file of a tracked harvester smaller than the read before
    left it, and no partial line is buffered, the iteration sends no event,
    reports the truncation and sets the offset to 0 for the next one; and
    if from then on the file only grows, the events sent after it are the
    lines of the new file laid end to end from its start. *)
Theorem truncation_restarts_from_zero options fs fr st :
  (forall k, len (contents (fs k)) < 2 ^ 63) ->
  String.eqb (Path (hv st)) "-" = false ->
  IsTracked (hv st) = true ->
  0 <= Offset (hv st) ->
  is_regular (fs (reads (wd st))) = true ->
  len (contents (fs (reads (wd st)))) < size (hv st) ->
  buffer fr = [] ->
  append_only fs (reads (wd st)) ->
  exists fr2 st2,
    Harvest_body options fs fr st = (Ret (Continue fr2), st2)
    /\ Offset (hv st2) = 0
    /\ output (wd st2) = output (wd st)
    /\ In (NoticeTruncated (Path (hv st))) (log (wd st2))
    /\ line fr2 = line fr
    /\ reads (wd st2) = S (reads (wd st))
    /\ forall rs fr' st',
         iterates options fs fr2 st2 rs fr' st' ->
         exists raws evs,
           output (wd st') = output (wd st) ++ evs
           /\ tiles 0 raws evs
           /\ start_offset options fs st' = len (List.concat raws)
           /\ lies_at (contents (fs (reads (wd st')))) 0
                      (List.concat raws ++ buffer fr').
Proof.
  intros Hsizes Hpath Htr Hoff Hreg Hcut Hbuf Happ.
  destruct st as [h w]. cbn [hv wd] in *.
  set (v := fs (reads w)) in *.
  assert (Hchunk : chunk options v (len (buffer fr)) h = ([], Some FILE_TRUNCATED)).
  { unfold chunk, truncated. destruct (Z.ltb_spec (len (contents v)) (size h)); [reflexivity | lia]. }
  assert (Hbody : Harvest_body options fs fr (mkSt h w)
                  = (Ret (Continue (mkFrame (line fr) [] (last_read_time fr))),
                     mkSt (set_Offset 0 (after_read options v (len (buffer fr)) h))
                          (logged (NoticeTruncated (Path h))
                             (logged (NoticeReadLine FILE_TRUNCATED)
                                (world_after_read v (Path h) w))))).
  { rewrite Harvest_body_eq. unfold bind at 1.
    unfold readline, bind at 1, Now. cbn [hv wd]. unfold readline_fuel.
    rewrite readline_loop_step by assumption. cbv zeta. fold v.
    rewrite Hchunk. cbn [fst snd].
    rewrite absorb_partial by (intros []). cbn [error_eqb andb].
    rewrite Hbuf. cbn [app]. rewrite Harvest_handle_truncated. reflexivity. }
  set (st2 := mkSt (set_Offset 0 (after_read options v (len (buffer fr)) h))
                   (logged (NoticeTruncated (Path h))
                      (logged (NoticeReadLine FILE_TRUNCATED)
                         (world_after_read v (Path h) w)))) in *.
  assert (Hreads2 : reads (wd st2) = S (reads w))
    by (cbn [st2 wd logged reads]; apply world_after_read_reads).
  assert (Hout2 : output (wd st2) = output w)
    by (cbn [st2 wd logged output]; apply world_after_read_output).
  assert (Hstart2 : start_offset options fs st2 = 0)
    by (rewrite start_offset_tracked; reflexivity).
  exists (mkFrame (line fr) [] (last_read_time fr)), st2.
  split; [exact Hbody|]. split; [reflexivity|]. split; [exact Hout2|].
  split; [cbn [st2 wd logged log]; apply in_or_app; right; left; reflexivity|].
  split; [reflexivity|]. split; [exact Hreads2|].
  intros rs fr' st' Hit.
  destruct (iterates_tiles options fs Hsizes _ _ _ _ _ Hit)
    as (raws & evs & Hout & Htiles & Hoffs & _ & _ & Hat).
  - rewrite Hreads2.
    apply append_only_later with (k0 := reads w); [exact Happ | lia].
  - unfold follows. rewrite Hstart2, Hreads2. cbn [buffer].
    split; [exact Hpath|]. split; [intros _; cbn; lia|].
    split; [cbn [st2 hv set_Offset size after_read];
            apply (append_only_len fs (reads w) Happ); lia|].
    split; [|intros []].
    apply lies_at_nil. pose proof (len_nonneg (contents (fs (S (reads w))))). lia.
  - rewrite Hstart2 in *. rewrite Hout2 in Hout. rewrite Z.add_0_l in Hoffs.
    exists raws, evs. auto.
Qed.

Lemma truncation_restarts_from_zero_witness :
  exists fr2 st2,
    Harvest_body replay rewritten (mkFrame 0 [] 0)
                 (mkSt (resumed_harvester 0 3) (mkWorld 0 1 [] []))
    = (Ret (Continue fr2), st2)
    /\ Offset (hv st2) = 0
    /\ output (wd st2) = []
    /\ In (NoticeTruncated "/var/log/messages") (log (wd st2))
    /\ line fr2 = 0
    /\ reads (wd st2) = 2%nat
    /\ forall rs fr' st',
         iterates replay rewritten fr2 st2 rs fr' st' ->
         exists raws evs,
           output (wd st') = [] ++ evs
           /\ tiles 0 raws evs
           /\ start_offset replay rewritten st' = len (List.concat raws)
           /\ lies_at (contents (rewritten (reads (wd st')))) 0
                      (List.concat raws ++ buffer fr').
Proof.
  apply (truncation_restarts_from_zero replay rewritten (mkFrame 0 [] 0)
           (mkSt (resumed_harvester 0 3) (mkWorld 0 1 [] []))).
  - apply rewritten_small.
  - reflexivity.
  - reflexivity.
  - cbn. lia.
  - reflexivity.
  - vm_compute. reflexivity.
  - reflexivity.
  - apply rewritten_append_only.
Defined.

(** ** Why Harvest returns *)

Lemma Harvest_loop_reasons options fs fuel :
  forall fr st e st',
    String.eqb (Path (hv st)) "-" = false ->
    last_read_time fr <= clock (wd st) ->
    Harvest_loop options fs fuel fr st = (Ret e, st') ->
    match e with
    | Dead =>
        exists l age,
          log (wd st') = l ++ [NoticeStopping (Path (hv st)) age]
          /\ Cfg.deadtime (FileConfig (hv st)) < age
             <= clock (wd st') - last_read_time fr
    | Aborted =>
        exists l k msg,
          log (wd st')
          = l ++ [NoticeUnexpected (Path (hv st)) (IOError msg)]
          /\ fault (last_view fs (wd st')) = Some (k, msg)
    end.
Proof.
  induction fuel as [|fuel IH]; intros fr st e st' Hpath Htime Hrun;
    [cbn in Hrun; discriminate|].
  cbn [Harvest_loop] in Hrun. unfold bind in Hrun.
  destruct (Harvest_body options fs fr st) as [ob st2] eqn:Hbody.
  rewrite Harvest_body_eq in Hbody. unfold bind in Hbody.
  destruct (readline options fs (buffer fr) read_timeout st) as [ro st1] eqn:Hrl.
  destruct st as [h w]. cbn [hv wd] in *.
  destruct (readline_spec options fs _ _ h w ro st1 Hpath Hrl) as [Hpost _].
  pose proof Hrl as Hloop. unfold readline, bind, Now in Hloop. cbn [hv wd] in Hloop.
  destruct (readline_loop_safe options fs _ _ _ _ h w ro st1 Hpath Hloop) as [_ Herr].
  unfold readline_post in Hpost.
  destruct Hpost as (P1 & P2 & _ & _ & P5 & _).
  destruct ro as [[[[text n] err] buf]|msg| |];
    try (inversion Hbody; subst; discriminate).
  destruct st1 as [h1 w1]. cbn [hv wd] in *.
  assert (Hnext : forall fr2 h2 w2,
             Path h2 = Path h1 -> FileConfig h2 = FileConfig h1 ->
             last_read_time fr <= last_read_time fr2 <= clock w2 ->
             Harvest_loop options fs fuel fr2 (mkSt h2 w2) = (Ret e, st') ->
             match e with
             | Dead =>
                 exists l age,
                   log (wd st') = l ++ [NoticeStopping (Path h) age]
                   /\ Cfg.deadtime (FileConfig h) < age
                      <= clock (wd st') - last_read_time fr
             | Aborted =>
                 exists l k msg,
                   log (wd st') = l ++ [NoticeUnexpected (Path h) (IOError msg)]
                   /\ fault (last_view fs (wd st')) = Some (k, msg)
             end).
  { intros fr2 h2 w2 Hp2 Hc2 Ht2 Hrun2.
    apply IH in Hrun2; cbn [hv wd] in *; [|congruence|lia].
    rewrite Hp2, Hc2, P1, P2 in Hrun2.
    destruct e; [|exact Hrun2].
    destruct Hrun2 as (l & age & Hl & Ha). exists l, age. split; [exact Hl | lia]. }
  destruct err as [[| |m]|].
  - rewrite Harvest_handle_EOF in Hbody.
    destruct (Z.gtb_spec (clock w1 - last_read_time fr)
                         (Cfg.deadtime (FileConfig h1))) as [Hage|Hage];
      inversion Hbody; subst; clear Hbody.
    + inversion Hrun; subst. cbn [wd logged log clock].
      exists (log w1), (clock w1 - last_read_time fr).
      rewrite P2 in Hage. rewrite P1. split; [reflexivity | lia].
    + apply Hnext in Hrun; cbn [last_read_time]; auto; lia.
  - rewrite Harvest_handle_truncated in Hbody. inversion Hbody; subst; clear Hbody.
    apply Hnext in Hrun; cbn [last_read_time logged clock]; auto; lia.
  - rewrite Harvest_handle_IOError in Hbody. inversion Hbody; subst; clear Hbody.
    inversion Hrun; subst. cbn [wd logged log].
    destruct Herr as [He|[He|(k & msg & Hf & He)]]; try discriminate.
    inversion He; subst msg.
    exists (log w1), k, m. rewrite P1. split; [reflexivity | exact Hf].
  - rewrite Harvest_handle_line in Hbody. inversion Hbody; subst; clear Hbody.
    apply Hnext in Hrun; cbn [last_read_time shipped clock]; auto; lia.
Qed.

(** X6: why [Harvest] returns.  It returns [Dead] only with an age that is
    more than the dead time and at most the time the run has lasted, so
    that the run has lasted longer than the dead time, and the last notice
    is then the one of the stop, with that age; it returns [Aborted] only
    when the device failed at the last read, and the last notice then
    reports that error.  The end of the file and a truncation never end the
    run by themselves. *)
Theorem Harvest_return_reasons options fs fuel st e st' :
  String.eqb (Path (hv st)) "-" = false ->
  Harvest options fs fuel st = (Ret e, st') ->
  match e with
  | Dead =>
      exists l age,
        log (wd st') = l ++ [NoticeStopping (Path (hv st)) age]
        /\ Cfg.deadtime (FileConfig (hv st)) < age
           <= clock (wd st') - clock (wd st)
  | Aborted =>
      exists l k msg,
        log (wd st') = l ++ [NoticeUnexpected (Path (hv st)) (IOError msg)]
        /\ fault (last_view fs (wd st')) = Some (k, msg)
  end.
Proof.
  intros Hpath Hrun. rewrite Harvest_eq in Hrun.
  destruct (Harvest_loop options fs fuel (initial_frame st) (announced options st))
    as [ol sl] eqn:Hloop.
  destruct ol as [e'|m| |]; inversion Hrun; subst; clear Hrun.
  apply (Harvest_loop_reasons options fs fuel (initial_frame st)
                              (announced options st) e sl Hpath) in Hloop;
    [exact Hloop|].
  cbn [initial_frame last_read_time announced wd logged clock]. lia.
Qed.

Lemma Harvest_return_reasons_witness :
  let r := Harvest replay faulty 10 sample_state in
  exists l k msg,
    log (wd (snd r))
    = l ++ [NoticeUnexpected (Path (hv sample_state)) (IOError msg)]
    /\ fault (last_view faulty (wd (snd r))) = Some (k, msg).
Proof.
  cbv zeta.
  apply (Harvest_return_reasons replay faulty 10 sample_state Aborted).
  - reflexivity.
  - vm_compute. reflexivity.
Defined.

(** ** The time of the last line *)

Lemma emitted_zero_cons r rs :
  emitted (r :: rs) = 0 -> is_line r = false /\ emitted rs = 0.
Proof.
  unfold emitted. cbn [filter]. destruct (is_line r); [|auto].
  rewrite len_cons. pose proof (len_nonneg (filter is_line rs)). lia.
Qed.

(** An iteration whose [readline] returned a line sets the time of the last
    read to the clock at that return. *)
Lemma line_sets_time options fs fr st r buf st1 fr2 st2 :
  readline options fs (buffer fr) read_timeout st = (Ret (r, buf), st1) ->
  is_line r = true ->
  Harvest_body options fs fr st = (Ret (Continue fr2), st2) ->
  last_read_time fr2 = clock (wd st1).
Proof.
  intros Hrl Hline Hbody. rewrite Harvest_body_eq in Hbody.
  unfold bind in Hbody. rewrite Hrl in Hbody.
  destruct r as [[text n] [e|]]; [discriminate|].
  destruct st1 as [h1 w1]. rewrite Harvest_handle_line in Hbody.
  inversion Hbody; subst. reflexivity.
Qed.

(** An iteration whose [readline] returned no line leaves it as it was. *)
Lemma no_line_keeps_time options fs fr st r buf st1 fr2 st2 :
  readline options fs (buffer fr) read_timeout st = (Ret (r, buf), st1) ->
  is_line r = false ->
  Harvest_body options fs fr st = (Ret (Continue fr2), st2) ->
  last_read_time fr2 = last_read_time fr.
Proof.
  intros Hrl Hline Hbody. rewrite Harvest_body_eq in Hbody.
  unfold bind in Hbody. rewrite Hrl in Hbody.
  destruct r as [[text n] [e|]]; [|discriminate].
  destruct st1 as [h1 w1]. destruct e as [| |msg].
  - rewrite Harvest_handle_EOF in Hbody.
    destruct (_ >? _); inversion Hbody; subst; reflexivity.
  - rewrite Harvest_handle_truncated in Hbody. inversion Hbody; subst; reflexivity.
  - rewrite Harvest_handle_IOError in Hbody. discriminate.
Qed.

Lemma idle_run_keeps_time options fs fr st rs fr' st' :
  iterates options fs fr st rs fr' st' ->
  emitted rs = 0 ->
  last_read_time fr' = last_read_time fr.
Proof.
  intros Hit. induction Hit as [fr st|fr st r buf st1 fr2 st2 rs fr3 st3 Hrl Hbody Hit IH];
    intros Hnone; [reflexivity|].
  apply emitted_zero_cons in Hnone. destruct Hnone as [Hr Hrs].
  rewrite (IH Hrs). eapply no_line_keeps_time; eassumption.
Qed.

(** Every run has sent no line, or has a last iteration that returned
    one. *)
Lemma last_line_split options fs fr0 st0 rs fr st :
  iterates options fs fr0 st0 rs fr st ->
  emitted rs = 0
  \/ exists rs1 frm stm r bufm st1m frn stn rs2,
       rs = rs1 ++ r :: rs2
       /\ iterates options fs fr0 st0 rs1 frm stm
       /\ readline options fs (buffer frm) read_timeout stm = (Ret (r, bufm), st1m)
       /\ is_line r = true
       /\ Harvest_body options fs frm stm = (Ret (Continue frn), stn)
       /\ iterates options fs frn stn rs2 fr st
       /\ emitted rs2 = 0.
Proof.
  intros Hit.
  induction Hit as [fr st|fr st r buf st1 fr2 st2 rs fr3 st3 Hrl Hbody Hit IH].
  - left. reflexivity.
  - destruct IH as [Hnone|(rs1 & frm & stm & r' & bufm & st1m & frn & stn & rs2
                           & -> & Hit1 & Hrl' & Hline & Hbody' & Hit2 & Hnone)].
    + destruct (is_line r) eqn:Hline.
      * right. exists [], fr, st, r, buf, st1, fr2, st2, rs.
        split; [reflexivity|]. split; [constructor|]. auto.
      * left. unfold emitted in *. cbn [filter]. rewrite Hline. exact Hnone.
    + right. exists (r :: rs1), frm, stm, r', bufm, st1m, frn, stn, rs2.
      split; [reflexivity|].
      split; [econstructor; eassumption|]. auto.
Qed.

(** The time [Harvest] keeps in [last_read_time] is the time of the last
    line of the run, and no other time is. *)
Lemma last_read_time_spec options fs st0 rs fr st :
  iterates options fs (initial_frame st0) (announced options st0) rs fr st ->
  last_line_at options fs st0 rs fr st (last_read_time fr)
  /\ forall t, last_line_at options fs st0 rs fr st t -> t = last_read_time fr.
Proof.
  intros Hit. split.
  - destruct (last_line_split options fs _ _ _ _ _ Hit)
      as [Hnone|(rs1 & frm & stm & r & bufm & st1m & frn & stn & rs2
                 & -> & Hit1 & Hrl & Hline & Hbody & Hit2 & Hnone)].
    + rewrite (idle_run_keeps_time options fs _ _ _ _ _ Hit Hnone).
      cbn [initial_frame last_read_time]. now constructor.
    + rewrite (idle_run_keeps_time options fs _ _ _ _ _ Hit2 Hnone),
        (line_sets_time options fs _ _ _ _ _ _ _ Hrl Hline Hbody).
      econstructor; eassumption.
  - intros t Ht. destruct Ht as [rs fr st Hit' Hnone
                                |rs1 frm stm r bufm st1m frn stn rs2 fr st
                                   Hit1 Hrl Hline Hbody Hit2 Hnone].
    + rewrite (idle_run_keeps_time options fs _ _ _ _ _ Hit' Hnone). reflexivity.
    + rewrite (idle_run_keeps_time options fs _ _ _ _ _ Hit2 Hnone),
        (line_sets_time options fs _ _ _ _ _ _ _ Hrl Hline Hbody). reflexivity.
Qed.

(** C9: at the end of a quiet file, with at most a partial line buffered,
    [readline] reads a chunk, sleeps a second and tries again; it returns
    the end-of-file outcome after the first chunk at which the time spent
    since its start, sleeps included, is more than the 10 seconds [Harvest]
    allows, and not before; on a file system that answers at once that is
    after 11 chunks and 11 seconds.  [Harvest] then compares the clock with
    the time [t] of the last successful line read of its run, which is the
    clock when the [readline] of the last iteration that returned a line
    came back, or the clock at the start of the loop when there was none:
    it returns when the time since [t] is more than the dead time, and
    goes on with the same offset, line count and time when it is not. *)
Theorem eof_wait_and_dead_time options fs st0 rs fr st :
  iterates options fs (initial_frame st0) (announced options st0) rs fr st ->
  String.eqb (Path (hv st)) "-" = false ->
  (IsTracked (hv st) = true -> 0 <= Offset (hv st)) ->
  ~ In LF (buffer fr) ->
  quiet fs (start_offset options fs st + len (buffer fr))
        (size (hv st)) (reads (wd st)) ->
  exists buf st1 m t,
    readline options fs (buffer fr) read_timeout st
    = (Ret (None, 0, Some EOF, buf), st1)
    /\ (0 < m)%nat
    /\ reads (wd st1) = (reads (wd st) + m)%nat
    /\ clock (wd st1) = clock (wd st) + elapsed fs (reads (wd st)) m
    /\ 10 * Second < elapsed fs (reads (wd st)) m
    /\ (forall j, (0 < j < m)%nat ->
                  elapsed fs (reads (wd st)) j <= 10 * Second)
    /\ ((forall k, latency (fs k) = 0%N /\ open_failures (fs k) = O) ->
        m = 11%nat /\ clock (wd st1) = clock (wd st) + 11 * Second)
    /\ Offset (hv st1) = start_offset options fs st
    /\ last_line_at options fs st0 rs fr st t
    /\ (forall t', last_line_at options fs st0 rs fr st t' -> t' = t)
    /\ Harvest_body options fs fr st
       = if clock (wd st1) - t >? Cfg.deadtime (FileConfig (hv st1))
         then (Ret (Return Dead),
               mkSt (hv st1)
                    (logged (NoticeStopping (Path (hv st1)) (clock (wd st1) - t))
                            (wd st1)))
         else (Ret (Continue (mkFrame (line fr) buf t)), st1).
Proof.
  intros Hit Hpath Hoff Hbuf Hq.
  destruct (Harvest_body_quiet options fs fr st Hpath Hoff Hbuf Hq)
    as (buf & st1 & m & Hrl & Hm & Hr & Hc & Hlong & Hshort & Ho & Hbody & _).
  destruct (last_read_time_spec options fs st0 rs fr st Hit) as [Hlast Huniq].
  exists buf, st1, m, (last_read_time fr).
  split; [exact Hrl|]. split; [exact Hm|]. split; [exact Hr|].
  split; [exact Hc|]. split; [exact Hlong|]. split; [exact Hshort|].
  split; [|auto].
  intros Hinst.
  rewrite (elapsed_instant fs Hinst) in Hlong.
  assert (m = 11%nat).
  { destruct (Nat.lt_trichotomy m 11) as [Hlt|[Heq|Hgt]]; [|exact Heq|].
    - unfold Second in Hlong. lia.
    - specialize (Hshort 11%nat ltac:(lia)).
      rewrite (elapsed_instant fs Hinst) in Hshort. unfold Second in Hshort. lia. }
  subst m. split; [reflexivity|].
  rewrite Hc, (elapsed_instant fs Hinst). lia.
Qed.

Lemma slow_run :
  iterates replay slow (initial_frame sample_state) (announced replay sample_state)
           [(Some (sample_bytes "ab"), 3, None)]
           (mkFrame 1 [] 2000000000)
           (snd (Harvest_body replay slow (initial_frame sample_state)
                              (announced replay sample_state))).
Proof.
  apply (iterates_cons replay slow (initial_frame sample_state)
           (announced replay sample_state) (Some (sample_bytes "ab"), 3, None) []
           (snd (readline replay slow [] read_timeout (announced replay sample_state)))
           (mkFrame 1 [] 2000000000)
           (snd (Harvest_body replay slow (initial_frame sample_state)
                              (announced replay sample_state)))).
  - vm_compute. reflexivity.
  - vm_compute. reflexivity.
  - apply iterates_nil.
Qed.

Lemma slow_quiet :
  let st := snd (Harvest_body replay slow (initial_frame sample_state)
                              (announced replay sample_state)) in
  quiet slow (start_offset replay slow st + len (buffer (mkFrame 1 [] 2000000000)))
        (size (hv st)) (reads (wd st)).
Proof.
  cbv zeta. split.
  - vm_compute. discriminate.
  - intros k _. repeat split.
    + vm_compute. intuition discriminate.
    + apply Z.le_refl.
Qed.

Lemma eof_wait_and_dead_time_witness :
  let st := snd (Harvest_body replay slow (initial_frame sample_state)
                              (announced replay sample_state)) in
  let fr := mkFrame 1 [] 2000000000 in
  let rs := [(Some (sample_bytes "ab"), 3, None)] in
  exists buf st1 m,
    readline replay slow (buffer fr) read_timeout st
    = (Ret (None, 0, Some EOF, buf), st1)
    /\ (0 < m)%nat
    /\ reads (wd st1) = (reads (wd st) + m)%nat
    /\ clock (wd st1) = clock (wd st) + elapsed slow (reads (wd st)) m
    /\ 10 * Second < elapsed slow (reads (wd st)) m
    /\ (forall j, (0 < j < m)%nat ->
                  elapsed slow (reads (wd st)) j <= 10 * Second)
    /\ Offset (hv st1) = start_offset replay slow st
    /\ last_line_at replay slow sample_state rs fr st 2000000000
    /\ Harvest_body replay slow fr st
       = if clock (wd st1) - 2000000000 >? Cfg.deadtime (FileConfig (hv st1))
         then (Ret (Return Dead),
               mkSt (hv st1)
                    (logged (NoticeStopping (Path (hv st1))
                                            (clock (wd st1) - 2000000000))
                            (wd st1)))
         else (Ret (Continue (mkFrame (line fr) buf 2000000000)), st1).
Proof.
  cbv zeta.
  destruct (eof_wait_and_dead_time replay slow sample_state
              [(Some (sample_bytes "ab"), 3, None)] (mkFrame 1 [] 2000000000)
              (snd (Harvest_body replay slow (initial_frame sample_state)
                                 (announced replay sample_state)))
              slow_run)
    as (buf & st1 & m & t & Hrl & Hm & Hr & Hc & Hlong & Hshort & _ & Ho
        & Hlast & Huniq & Hbody).
  - reflexivity.
  - intros _. vm_compute. discriminate.
  - intros [].
  - exact slow_quiet.
  - assert (Ht : t = 2000000000).
    { symmetry. apply Huniq.
      apply (line_then_none replay slow sample_state []
               (initial_frame sample_state) (announced replay sample_state)
               (Some (sample_bytes "ab"), 3, None) []
               (mkSt (after_read replay (slow 0) 0 fresh_harvester)
                     (mkWorld 2000000000 1 [HarvestStart "/var/log/messages"] []))
               (mkFrame 1 [] 2000000000)
               (snd (Harvest_body replay slow (initial_frame sample_state)
                                  (announced replay sample_state)))
               [] (mkFrame 1 [] 2000000000)
               (snd (Harvest_body replay slow (initial_frame sample_state)
                                  (announced replay sample_state)))).
      - apply iterates_nil.
      - vm_compute. reflexivity.
      - reflexivity.
      - vm_compute. reflexivity.
      - apply iterates_nil.
      - reflexivity. }
    subst t. exists buf, st1, m.
    split; [exact Hrl|]. split; [exact Hm|]. split; [exact Hr|].
    split; [exact Hc|]. split; [exact Hlong|]. split; [exact Hshort|].
    split; [exact Ho|]. split; [exact Hlast | exact Hbody].
Defined.

(** ** What an event carries *)



